(** * JobGPT python_scraper: run orchestration and reconciliation

    A shallow embedding of [scraper/deduplication.py], [scraper/metadata.py],
    [scraper/job_scraper.py], [scraper/pipeline.py],
    [scraper/company_discovery.py] and [scraper/config.py], and the
    properties of the specification that concern them.

    Conventions of the embedding:
    - a Python [str] is a list of characters; the characters are the code
      points below 256 (ASCII and the Latin-1 supplement), and on them case
      mapping, the classes [\w] and [\s] of [re] and the whitespace of
      [str.strip] are those of Python, which follows the Unicode tables;
      text with higher code points is outside the model;
    - a JSON or otherwise untyped Python value is a [pyval] (a JSON number
      is an integer: a float passes the same tests, false when zero and
      never a string);
    - the identifiers of rows (UUIDs, which the code also carries as their
      text) are natural numbers;
    - the store (PostgreSQL reached through asyncpg) is a record of tables,
      each a list of rows; every statement sent through the pool runs in
      its own implicit transaction, statements inside [conn.transaction()]
      commit or roll back together; the arguments of a statement pass
      through the driver, which the pool of [db.py] uses without any type
      codec of its own;
    - an exception is an outcome [Raise msg]; the state a raising call has
      already written stays written, as in Python. *)

From Stdlib Require Import List Ascii String Bool Arith Lia ZArith.
From Stdlib Require Import DecimalString.
Import ListNotations.

Set Warnings "-register-all".

Open Scope string_scope.
Open Scope list_scope.
Open Scope nat_scope.

(* ------------------------------------------------------------------ *)
(** ** Python strings *)

Module PyStr.

Definition str := list ascii.

Definition lit (s : string) : str := list_ascii_of_string s.

Definition code (c : ascii) : nat := nat_of_ascii c.

Definition between (lo hi n : nat) : bool := (lo <=? n) && (n <=? hi).

(** The letters that [str.lower] changes: A-Z, and in the Latin-1
    supplement U+00C0-U+00D6 and U+00D8-U+00DE; each maps to the code point
    32 above it. *)
Definition is_upper (c : ascii) : bool :=
  between 65 90 (code c) || between 192 214 (code c)
  || between 216 222 (code c).

(** The letters whose capital is the code point 32 below them: a-z,
    U+00E0-U+00F6 and U+00F8-U+00FE. *)
Definition is_lower (c : ascii) : bool :=
  between 97 122 (code c) || between 224 246 (code c)
  || between 248 254 (code c).

(** [str.isalpha] on one character: the ASCII letters, the ordinal
    indicators U+00AA and U+00BA, the micro sign U+00B5, and the letters
    U+00C0-U+00FF but for the signs U+00D7 and U+00F7. *)
Definition is_alpha (c : ascii) : bool :=
  between 65 90 (code c) || between 97 122 (code c)
  || (code c =? 170) || (code c =? 181) || (code c =? 186)
  || between 192 214 (code c) || between 216 246 (code c)
  || between 248 255 (code c).

(** [str.isdecimal], [str.isdigit] or [str.isnumeric] on one character:
    0-9, the superscripts U+00B2, U+00B3, U+00B9 and the fractions
    U+00BC-U+00BE. *)
Definition is_digit (c : ascii) : bool :=
  between 48 57 (code c) || between 178 179 (code c) || (code c =? 185)
  || between 188 190 (code c).

(** [str.isalnum] on one character. *)
Definition is_alnum (c : ascii) : bool := is_alpha c || is_digit c.

(** The class [\w] of [re] on a [str] pattern: alphanumeric or the
    underscore. *)
Definition is_word (c : ascii) : bool := is_alnum c || (code c =? 95).

(** The class [\s] of [re] and the characters [str.strip()] removes:
    tab, newline, vertical tab, form feed, carriage return, the four
    separators 0x1c-0x1f, the space, the next-line control U+0085 and the
    no-break space U+00A0. *)
Definition is_space (c : ascii) : bool :=
  between 9 13 (code c) || between 28 31 (code c) || (code c =? 32)
  || (code c =? 133) || (code c =? 160).

Definition lower_char (c : ascii) : ascii :=
  if is_upper c then ascii_of_nat (code c + 32) else c.

(** [s.lower()] *)
Definition lower (s : str) : str := map lower_char s.

Fixpoint lstrip (s : str) : str :=
  match s with
  | [] => []
  | c :: s' => if is_space c then lstrip s' else s
  end.

Definition rstrip (s : str) : str := rev (lstrip (rev s)).

(** [s.strip()] *)
Definition strip (s : str) : str := rstrip (lstrip s).

Fixpoint eqb (a b : str) : bool :=
  match a, b with
  | [], [] => true
  | x :: a', y :: b' => Ascii.eqb x y && eqb a' b'
  | _, _ => false
  end.

Fixpoint starts_with (k t : str) : bool :=
  match k, t with
  | [], _ => true
  | x :: k', y :: t' => Ascii.eqb x y && starts_with k' t'
  | _ :: _, [] => false
  end.

(** [k in t] for two strings: [k] occurs in [t] as a substring. *)
Fixpoint contains (k t : str) : bool :=
  starts_with k t ||
  match t with
  | [] => false
  | _ :: t' => contains k t'
  end.

(** [k in l] for a list of strings. *)
Definition mem (k : str) (l : list str) : bool := existsb (eqb k) l.

(** [s.split(sep)] for a one-character separator: [cur] is the piece being
    read, in reverse. *)
Fixpoint split_from (sep : ascii) (cur : str) (s : str) : list str :=
  match s with
  | [] => [rev cur]
  | c :: s' =>
      if Ascii.eqb c sep then rev cur :: split_from sep [] s'
      else split_from sep (c :: cur) s'
  end.

Definition split (sep : ascii) (s : str) : list str := split_from sep [] s.

(** [a + sep + b + sep + c], the f-string ["{a}|{b}|{c}"] for [sep = "|"]. *)
Definition join3 (sep a b c : str) : str := a ++ sep ++ b ++ sep ++ c.

End PyStr.

Import PyStr.
Coercion PyStr.lit : string >-> PyStr.str.

(* ------------------------------------------------------------------ *)
(** ** Untyped Python values (decoded JSON, dictionary entries) *)

Inductive pyval : Type :=
| PNone
| PBool (b : bool)
| PInt (n : Z)
| PStr (s : str)
| PList (l : list pyval)
| PDict (d : list (str * pyval)).

(** Truth value of [v] in a condition and in [a or b]. *)
Definition truthy (v : pyval) : bool :=
  match v with
  | PNone => false
  | PBool b => b
  | PInt n => negb (n =? 0)%Z
  | PStr s => match s with [] => false | _ => true end
  | PList l => match l with [] => false | _ => true end
  | PDict d => match d with [] => false | _ => true end
  end.

(** [a or b] *)
Definition py_or (a b : pyval) : pyval := if truthy a then a else b.

(** [d.get(k)] on a dictionary given as its list of entries; an absent key
    gives [None]. *)
Fixpoint dict_get (d : list (str * pyval)) (k : str) : pyval :=
  match d with
  | [] => PNone
  | (k', v) :: d' => if PyStr.eqb k k' then v else dict_get d' k
  end.

(** [k in d] for a dictionary. *)
Definition dict_has (d : list (str * pyval)) (k : str) : bool :=
  existsb (fun kv => PyStr.eqb k (fst kv)) d.

(** [v == s] for a string [s]. *)
Definition is_str (v : pyval) (s : str) : bool :=
  match v with
  | PStr s' => PyStr.eqb s' s
  | _ => false
  end.

(** An optional string as the value Python sees. *)
Definition of_opt (o : option str) : pyval :=
  match o with
  | Some s => PStr s
  | None => PNone
  end.

(** Outcome of a call that may raise. *)
Inductive outcome (A : Type) : Type :=
| Ok (a : A)
| Raise (msg : str).

Arguments Ok {A} a.
Arguments Raise {A} msg.

(** The result of a call that returned, seen through [f]. *)
Definition outcome_map {A B} (f : A -> B) (o : outcome A) : outcome B :=
  match o with
  | Ok a => Ok (f a)
  | Raise msg => Raise msg
  end.

(* ------------------------------------------------------------------ *)
(** ** models.py *)

(** A scraping configuration dictionary: each top-level key may be absent;
    [jobSelectors] and [experienceLevelMapping] are dictionaries from
    strings to strings, kept in insertion order. *)
Record ScrapingConfig := mkScrapingConfig {
  jobListingSelector : option str;
  jobSelectors : option (list (str * str));
  experienceLevelMapping : option (list (str * str))
}.

(** What the attribute [scraping_config] of a company holds: a dictionary,
    as the annotation has it, or a text, which is what [load_active_companies]
    puts there when the column is not null (see [to_company]). *)
Inductive scraping_config : Type :=
| ConfigDict (cfg : ScrapingConfig)
| ConfigText (text : str).

(** [careers_endpoint_payload] is annotated as a dictionary; the attribute
    holds whatever the caller passes, a text when it comes from the store. *)
Record Company := mkCompany {
  c_id : nat;
  c_name : str;
  c_domain : option str;
  c_careers_url : option str;
  c_careers_endpoint_payload : pyval;
  c_scraping_config : scraping_config
}.

Record ScrapedJob := mkScrapedJob {
  title : str;
  company : str;
  company_id : nat;
  location : str;
  description : str;
  requirements : list str;
  experience_level : str;
  application_url : pyval
}.

Record RunMetrics := mkRunMetrics {
  companies_discovered : nat;
  companies_with_careers : nat;
  companies_scraped : nat;
  jobs_scraped : nat;
  jobs_inserted : nat;
  jobs_updated : nat;
  jobs_marked_unavailable : nat;
  errors : list str
}.

(** [RunMetrics()] *)
Definition new_metrics : RunMetrics := mkRunMetrics 0 0 0 0 0 0 0 [].

(* ------------------------------------------------------------------ *)
(** ** deduplication.py *)

Module Dedup.

(** [re.sub(r"[^\w\s]", "", text.lower()).strip()] *)
Definition normalize (text : str) : str :=
  strip (filter (fun c => is_word c || is_space c) (lower text)).

Definition job_key (job : ScrapedJob) : str :=
  join3 (lit "|") (normalize (title job)) (normalize (company job))
        (normalize (location job)).

(** The loop of [deduplicate]: [seen] and [unique] are the two
    accumulators. *)
Fixpoint dedup_loop (jobs : list ScrapedJob) (seen : list str)
  (unique : list ScrapedJob) : list ScrapedJob :=
  match jobs with
  | [] => unique
  | j :: rest =>
      let k := job_key j in
      if mem k seen then dedup_loop rest seen unique
      else dedup_loop rest (k :: seen) (unique ++ [j])
  end.

Definition deduplicate (jobs : list ScrapedJob) : list ScrapedJob :=
  dedup_loop jobs [] [].






End Dedup.

(* ------------------------------------------------------------------ *)
(** ** metadata.py *)

Module Metadata.

Definition kv (k v : string) : str * str := (lit k, lit v).

Definition default_jobSelectors : list (str * str) :=
  [ kv "title" ".title, .job-title, h2, h3, .position-title, .role-title";
    kv "location" ".location, .job-location, .office, .city";
    kv "description" ".description, .job-description, .summary, .content";
    kv "requirements" ".requirements, .qualifications, .skills, ul li";
    kv "applicationUrl" ".apply, .apply-link, a[href*='apply'], .btn-apply" ].

(** [DEFAULT_SCRAPING_CONFIG["experienceLevelMapping"]], in the order the
    dictionary literal lists its entries (the order [items()] follows). *)
Definition default_experienceLevelMapping : list (str * str) :=
  [ kv "junior" "entry"; kv "entry" "entry"; kv "graduate" "entry";
    kv "intern" "entry"; kv "mid-level" "mid"; kv "mid" "mid";
    kv "intermediate" "mid"; kv "senior" "senior"; kv "sr" "senior";
    kv "lead" "lead"; kv "principal" "lead"; kv "staff" "lead";
    kv "director" "lead" ].

Definition default_jobListingSelector : str :=
  ".job, .position, .opening, [data-job], .job-listing, .career-item".

Definition DEFAULT_SCRAPING_CONFIG : ScrapingConfig :=
  mkScrapingConfig (Some default_jobListingSelector)
                   (Some default_jobSelectors)
                   (Some default_experienceLevelMapping).

(** [any(t in url for t in markers)] *)
Definition any_in (markers : list str) (text : str) : bool :=
  existsb (fun t => contains t text) markers.

Definition detect_endpoint (url : str) : list (str * pyval) :=
  if any_in (map lit ["/api/"; ".json"; "/v1/"; "/v2/"]) url then
    [ (lit "type", PStr "api"); (lit "method", PStr "GET");
      (lit "headers", PDict [(lit "Accept", PStr "application/json")]) ]
  else
    [ (lit "type", PStr "webpage"); (lit "method", PStr "GET") ].

End Metadata.

(* ------------------------------------------------------------------ *)
(** ** job_scraper.py *)

Module Scraper.

Import Metadata.

(** What one listing element of a page answers: [text_of sel] is the result
    of [_text(el, sel)] (the empty string when nothing matches or the query
    throws), [href_of sel] that of [_attr(el, sel, "href")]. *)
Record Element := mkElement {
  text_of : str -> str;
  href_of : str -> option str
}.

(** A visit of a careers page with the browser: starting the browser and
    opening a page, then loading the URL, waiting for a listing selector
    and collecting the elements that match it, then closing the page. *)
Record PageVisit := mkPageVisit {
  pv_open : outcome unit;
  pv_elements : str -> outcome (list Element);
  pv_close : outcome unit
}.

(** The network as one scrape sees it: the decoded JSON body of a GET
    (raising on a transport error, an error status or an undecodable body),
    and the visit of the page at a URL. *)
Record Internet := mkInternet {
  http_get : str -> outcome pyval;
  visit : str -> PageVisit
}.

(** The messages of the exceptions are abbreviated to the names of their
    classes. *)
Definition attribute_error : str := "AttributeError".
Definition key_error : str := "KeyError".
Definition type_error : str := "TypeError".

Definition bind {A B} (m : outcome A) (f : A -> outcome B) : outcome B :=
  match m with
  | Ok a => f a
  | Raise e => Raise e
  end.

Declare Scope outcome_scope.
Delimit Scope outcome_scope with outcome.

Notation "x <- m ;; k" := (bind m (fun x => k))
  (at level 61, m at next level, right associativity) : outcome_scope.

Local Open Scope outcome_scope.

(** A method of [str] called on [v]: it raises unless [v] is a string. *)
Definition as_str (v : pyval) : outcome str :=
  match v with
  | PStr s => Ok s
  | _ => Raise attribute_error
  end.

Section WithRepr.

(** [str(v)] for a list or a dictionary, whose text follows Python's
    [repr] of the elements; it is left open. *)
Variable repr_container : pyval -> str.

(** [str(v)], also what an f-string inserts for [{v}]. *)
Definition py_str (v : pyval) : str :=
  match v with
  | PStr s => s
  | PNone => lit "None"
  | PBool true => lit "True"
  | PBool false => lit "False"
  | PInt n => lit (NilZero.string_of_int (Z.to_int n))
  | _ => repr_container v
  end.

Definition _parse_requirements (text : pyval) : outcome (list str) :=
  if negb (truthy text) then Ok []
  else
    s <- as_str text ;;
    let parts := map strip (split "010"%char s) in
    let out :=
      filter (fun p => (0 <? List.length p) && (List.length p <? 200)) parts in
    Ok (firstn 10 out).

(** The loop over [mapping.items()]: the value of the first entry whose key
    occurs in [text]. *)
Fixpoint mapping_lookup (mapping : list (str * str)) (text : str)
  : option str :=
  match mapping with
  | [] => None
  | (k, v) :: rest =>
      if contains k text then Some v else mapping_lookup rest text
  end.

Definition _determine_level (title desc : str) (mapping : list (str * str))
  : str :=
  let text := lower (title ++ lit " " ++ desc) in
  match mapping_lookup mapping text with
  | Some v => v
  | None =>
      if any_in (map lit ["junior"; "entry"; "graduate"]) text then lit "entry"
      else if any_in (map lit ["senior"; "sr."]) text then lit "senior"
      else if any_in (map lit ["lead"; "principal"; "staff"]) text
           then lit "lead"
      else lit "mid"
  end.

(** [_parse_api_job]: [Ok None] is the [return None] of an item without a
    title; [item.get] raises when the item is not a dictionary. *)
Definition _parse_api_job (item : pyval) (company : Company)
  : outcome (option ScrapedJob) :=
  match item with
  | PDict d =>
      let get := dict_get d in
      let title := py_or (py_or (get "title") (get "name")) (get "position") in
      if negb (truthy title) then Ok None
      else
        let location :=
          py_or (py_or (py_or (get "location") (get "office")) (get "city"))
                (PStr "Remote") in
        let desc := py_or (py_or (get "description") (get "summary")) (PStr "") in
        let apply_url :=
          py_or (py_or (py_or (get "apply_url") (get "url")) (get "link"))
                (of_opt (c_careers_url company)) in
        let req_text :=
          py_or (py_or (py_or (get "requirements") (get "qualifications"))
                       (get "skills")) desc in
        requirements <- _parse_requirements req_text ;;
        let level :=
          _determine_level (py_str title) (py_str desc)
                           default_experienceLevelMapping in
        title_s <- as_str title ;;
        desc_s <- as_str desc ;;
        Ok (Some (mkScrapedJob (strip title_s) (c_name company) (c_id company)
                               (strip (py_str location)) (strip desc_s)
                               requirements level apply_url))
  | _ => Raise attribute_error
  end.

Definition is_list (v : pyval) : bool :=
  match v with PList _ => true | _ => false end.

(** The loop of [_extract_jobs_array] over the container keys, for a
    dictionary [d]. *)
Fixpoint first_list_under (d : list (str * pyval)) (keys : list str)
  : option (list pyval) :=
  match keys with
  | [] => None
  | key :: rest =>
      match (if dict_has d key then dict_get d key else PNone) with
      | PList l => Some l
      | _ => first_list_under d rest
      end
  end.

Definition _extract_jobs_array (data : pyval) : list pyval :=
  match data with
  | PDict d =>
      match first_list_under d
              (map lit ["jobs"; "data"; "results"; "positions"; "openings"])
      with
      | Some l => l
      | None => []
      end
  | PList l => l
  | _ => []
  end.

(** The loop of [_scrape_api] over the items: the first item that raises
    ends it. *)
Fixpoint parse_items (arr : list pyval) (company : Company)
  (jobs : list ScrapedJob) : outcome (list ScrapedJob) :=
  match arr with
  | [] => Ok jobs
  | item :: rest =>
      j <- _parse_api_job item company ;;
      match j with
      | Some job => parse_items rest company (jobs ++ [job])
      | None => parse_items rest company jobs
      end
  end.

(** [client.get(None)] raises before any request is made. *)
Definition _scrape_api (net : Internet) (company : Company)
  : outcome (list ScrapedJob) :=
  match c_careers_url company with
  | Some url =>
      data <- http_get net url ;;
      parse_items (_extract_jobs_array data) company []
  | None => Raise type_error
  end.

(** [{**DEFAULT_SCRAPING_CONFIG, **own}]: a top-level key of the company's
    configuration replaces the default one. *)
Definition merge_config (own : ScrapingConfig)
  : str * list (str * str) * list (str * str) :=
  (match jobListingSelector own with
   | Some v => v
   | None => default_jobListingSelector
   end,
   match jobSelectors own with
   | Some v => v
   | None => default_jobSelectors
   end,
   match experienceLevelMapping own with
   | Some v => v
   | None => default_experienceLevelMapping
   end).

(** [{**DEFAULT_SCRAPING_CONFIG, **(company.scraping_config or {})}]: an
    empty text is false and gives the defaults; a text that is not empty
    cannot be unpacked with [**] and raises [TypeError]. *)
Definition merged_config (company : Company)
  : outcome (str * list (str * str) * list (str * str)) :=
  match c_scraping_config company with
  | ConfigDict own => Ok (merge_config own)
  | ConfigText [] => Ok (merge_config (mkScrapingConfig None None None))
  | ConfigText (_ :: _) => Raise type_error
  end.

(** [selectors[key]], raising [KeyError] for an absent key. *)
Fixpoint selector (selectors : list (str * str)) (key : str) : outcome str :=
  match selectors with
  | [] => Raise key_error
  | (k, v) :: rest => if PyStr.eqb key k then Ok v else selector rest key
  end.

Definition is_empty (s : str) : bool :=
  match s with [] => true | _ => false end.

(** [a or b] for two strings. *)
Definition str_or (a b : str) : str := if is_empty a then b else a.

(** The body of the [try] of [_scrape_web] for one element: [Ok None] is
    the [continue] of an element without a title. *)
Definition parse_element (selectors mapping : list (str * str))
  (company : Company) (el : Element) : outcome (option ScrapedJob) :=
  sel_title <- selector selectors "title" ;;
  let title := text_of el sel_title in
  if is_empty title then Ok None
  else
    sel_location <- selector selectors "location" ;;
    let location := str_or (text_of el sel_location) "Not specified" in
    sel_description <- selector selectors "description" ;;
    let desc := str_or (text_of el sel_description) "" in
    sel_requirements <- selector selectors "requirements" ;;
    let req_text := str_or (text_of el sel_requirements) desc in
    sel_application <- selector selectors "applicationUrl" ;;
    let app_url :=
      py_or (of_opt (href_of el sel_application))
            (of_opt (c_careers_url company)) in
    requirements <- _parse_requirements (PStr req_text) ;;
    let level := _determine_level title desc mapping in
    Ok (Some (mkScrapedJob (strip title) (c_name company) (c_id company)
                           (strip location) (strip desc) requirements level
                           app_url)).

(** The loop of [_scrape_web] over the elements: an element that raises
    is logged and skipped. *)
Fixpoint parse_elements (selectors mapping : list (str * str))
  (company : Company) (elements : list Element) (jobs : list ScrapedJob)
  : list ScrapedJob :=
  match elements with
  | [] => jobs
  | el :: rest =>
      match parse_element selectors mapping company el with
      | Ok (Some job) =>
          parse_elements selectors mapping company rest (jobs ++ [job])
      | Ok None | Raise _ =>
          parse_elements selectors mapping company rest jobs
      end
  end.

(** [_scrape_web]: a failure to start the browser or to open the page
    propagates, and so does, with the page left open, the [TypeError] of a
    configuration that cannot be merged, and a failure to close the page; a
    failure while loading the page or waiting for the listing is logged and
    leaves the jobs read so far (none). *)
Definition _scrape_web (net : Internet) (company : Company)
  : outcome (list ScrapedJob) :=
  let url := match c_careers_url company with Some u => u | None => [] end in
  let v := visit net url in
  _ <- pv_open v ;;
  config <- merged_config company ;;
  let '(listing, selectors, mapping) := config in
  let jobs :=
    match pv_elements v listing with
    | Ok elements => parse_elements selectors mapping company elements []
    | Raise _ => []
    end in
  _ <- pv_close v ;;
  Ok jobs.

(** [payload = company.careers_endpoint_payload or {}] followed by
    [payload.get]: a value that is true and is not a dictionary has no
    [get], and the [AttributeError] is raised before the [try]. *)
Definition payload_dict (company : Company) : outcome (list (str * pyval)) :=
  match py_or (c_careers_endpoint_payload company) (PDict []) with
  | PDict d => Ok d
  | _ => Raise attribute_error
  end.

(** [scrape_company]: what the [try] block raises is logged and gives the
    empty list; what is raised before it leaves the function. *)
Definition scrape_company (net : Internet) (company : Company)
  : outcome (list ScrapedJob) :=
  payload <- payload_dict company ;;
  let has_url := truthy (of_opt (c_careers_url company)) in
  let url := match c_careers_url company with Some u => u | None => [] end in
  let t :=
    py_or (dict_get payload "type")
          (if has_url && any_in (map lit ["/api/"; ".json"]) url
           then PStr "api" else PStr "webpage") in
  let attempt :=
    if is_str t "api" && has_url then _scrape_api net company
    else if has_url then _scrape_web net company
    else Ok [] in
  match attempt with
  | Ok jobs => Ok jobs
  | Raise _ => Ok []
  end.

End WithRepr.

End Scraper.

(* ------------------------------------------------------------------ *)
(** ** The store: tables and the statements the pipeline sends *)

Module Store.

Inductive status : Type := queued | running | success | failed.

Definition status_eqb (a b : status) : bool :=
  match a, b with
  | queued, queued | running, running | success, success | failed, failed =>
      true
  | _, _ => false
  end.

(** A row of [scraping_runs].  [r_started_at] holds the time of the
    insertion until the run is claimed. *)
Record RunRow := mkRunRow {
  r_id : nat;
  r_status : status;
  r_started_at : nat;
  r_finished_at : option nat;
  r_details : option RunMetrics;
  r_companies_scraped : option nat;
  r_jobs_scraped : option nat;
  r_jobs_inserted : option nat;
  r_jobs_updated : option nat;
  r_jobs_marked_unavailable : option nat
}.

(** A row of [companies]; [name] carries the unique constraint the
    [ON CONFLICT (name)] clause names.  [careers_endpoint_payload] and
    [scraping_config] are the columns for JSON values: a row holds the text
    of the value, or null. *)
Record CompanyRow := mkCompanyRow {
  co_id : nat;
  co_name : str;
  co_domain : option str;
  co_careers_url : option str;
  co_careers_endpoint_payload : option str;
  co_scraping_config : option str;
  co_is_active : bool;
  co_discovery_source : str
}.

(** A row of [jobs]; [application_url] carries the unique constraint the
    [ON CONFLICT (application_url)] clause names. *)
Record JobRow := mkJobRow {
  j_id : nat;
  j_title : str;
  j_company_id : nat;
  j_company : str;
  j_location : str;
  j_description : str;
  j_requirements : list str;
  j_experience_level : str;
  j_application_url : str;
  j_is_available : bool
}.

(** The tables, and the next identifier the store hands out for the [id]
    column of an inserted row.  The columns [created_at] and [updated_at]
    are not modelled: they are written only together with the columns
    below and never read. *)
Record DB := mkDB {
  runs : list RunRow;
  companies : list CompanyRow;
  jobs : list JobRow;
  next_id : nat
}.

Definition set_runs (d : DB) (rs : list RunRow) : DB :=
  mkDB rs (companies d) (jobs d) (next_id d).

Definition set_companies (d : DB) (cs : list CompanyRow) : DB :=
  mkDB (runs d) cs (jobs d) (next_id d).

Definition set_jobs (d : DB) (js : list JobRow) : DB :=
  mkDB (runs d) (companies d) js (next_id d).

(** *** scraping_runs *)

(** The scan of [SELECT id FROM scraping_runs WHERE status='queued'
    ORDER BY started_at ASC ... LIMIT 1]: the queued row with the least
    [started_at], the first such row in table order on a tie. *)
Fixpoint oldest_queued (rows : list RunRow) (best : option RunRow)
  : option RunRow :=
  match rows with
  | [] => best
  | r :: rest =>
      if status_eqb (r_status r) queued then
        match best with
        | None => oldest_queued rest (Some r)
        | Some b =>
            if r_started_at r <? r_started_at b
            then oldest_queued rest (Some r)
            else oldest_queued rest best
        end
      else oldest_queued rest best
  end.

Definition select_next_queued (d : DB) : option nat :=
  option_map r_id (oldest_queued (runs d) None).

(** [UPDATE scraping_runs SET status='running', started_at=NOW()
    WHERE id=$1] *)
Definition mark_running (run_id now : nat) (r : RunRow) : RunRow :=
  if r_id r =? run_id then
    mkRunRow (r_id r) running now (r_finished_at r) (r_details r)
             (r_companies_scraped r) (r_jobs_scraped r) (r_jobs_inserted r)
             (r_jobs_updated r) (r_jobs_marked_unavailable r)
  else r.

Definition update_running (run_id now : nat) (d : DB) : DB :=
  set_runs d (map (mark_running run_id now) (runs d)).

(** [UPDATE scraping_runs SET status='success', finished_at=NOW(),
    details=$2, companies_scraped=$3, jobs_scraped=$4, jobs_inserted=$5,
    jobs_updated=$6, jobs_marked_unavailable=$7 WHERE id=$1] *)
Definition mark_success (run_id now : nat) (m : RunMetrics) (r : RunRow)
  : RunRow :=
  if r_id r =? run_id then
    mkRunRow (r_id r) success (r_started_at r) (Some now) (Some m)
             (Some (companies_scraped m)) (Some (jobs_scraped m))
             (Some (jobs_inserted m)) (Some (jobs_updated m))
             (Some (jobs_marked_unavailable m))
  else r.

Definition update_success (run_id now : nat) (m : RunMetrics) (d : DB) : DB :=
  set_runs d (map (mark_success run_id now m) (runs d)).

(** [UPDATE scraping_runs SET status='failed', finished_at=NOW(),
    details=$2 WHERE id=$1] *)
Definition mark_failed (run_id now : nat) (m : RunMetrics) (r : RunRow)
  : RunRow :=
  if r_id r =? run_id then
    mkRunRow (r_id r) failed (r_started_at r) (Some now) (Some m)
             (r_companies_scraped r) (r_jobs_scraped r) (r_jobs_inserted r)
             (r_jobs_updated r) (r_jobs_marked_unavailable r)
  else r.

Definition update_failed (run_id now : nat) (m : RunMetrics) (d : DB) : DB :=
  set_runs d (map (mark_failed run_id now m) (runs d)).

(** *** companies *)

(** A discovered candidate, the dictionary [_extract_company] builds:
    [name] is always present, the other keys are read with [get]. *)
Record Candidate := mkCandidate {
  cand_name : str;
  cand_domain : option str;
  cand_careers_url : option str;
  cand_discovery_source : option str
}.

(** [COALESCE(new, old)] *)
Definition coalesce {A} (new old : option A) : option A :=
  match new with
  | Some v => Some v
  | None => old
  end.

(** The [DO UPDATE SET] clause of the company upsert, on the row in
    conflict. *)
Definition merge_company (name : str) (domain careers_url : option str)
  (payload : option str) (r : CompanyRow) : CompanyRow :=
  if PyStr.eqb (co_name r) name then
    mkCompanyRow (co_id r) (co_name r) domain
                 (coalesce careers_url (co_careers_url r))
                 (coalesce payload (co_careers_endpoint_payload r))
                 (co_scraping_config r) (co_is_active r)
                 (co_discovery_source r)
  else r.

(** [INSERT INTO companies (name, domain, careers_url,
    careers_endpoint_payload, is_active, discovery_source)
    VALUES ($1,$2,$3,$4,true,$5) ON CONFLICT (name) DO UPDATE SET ...];
    [scraping_config], which the statement does not name, is taken to be
    null in a new row. *)
Definition upsert_company (name : str) (domain careers_url : option str)
  (payload : option str) (source : str) (d : DB) : DB :=
  if existsb (fun r => PyStr.eqb (co_name r) name) (companies d) then
    set_companies d
      (map (merge_company name domain careers_url payload) (companies d))
  else
    mkDB (runs d)
         (companies d ++
          [mkCompanyRow (next_id d) name domain careers_url payload None true
                        source])
         (jobs d) (S (next_id d)).

(** The rows a [SELECT] without [ORDER BY] returns come in an order of the
    store's choosing, which an update of a row may change.  [rank] stands
    for that choice: the rows come by increasing rank. *)
Fixpoint insert_by {A} (rank : A -> nat) (x : A) (l : list A) : list A :=
  match l with
  | [] => [x]
  | y :: l' =>
      if rank x <=? rank y then x :: l else y :: insert_by rank x l'
  end.

Definition scan {A} (rank : A -> nat) (rows : list A) : list A :=
  fold_right (insert_by rank) [] rows.

(** [SELECT ... FROM companies WHERE is_active=true LIMIT $1] *)
Definition select_active_companies (rank : CompanyRow -> nat) (limit : nat)
  (d : DB) : list CompanyRow :=
  firstn limit (scan rank (filter co_is_active (companies d))).

(** *** jobs *)

(** The [DO UPDATE SET] clause of the job upsert, on the row in conflict:
    [company_id] and [company] keep their stored values. *)
Definition merge_job (j : ScrapedJob) (url : str) (r : JobRow) : JobRow :=
  if PyStr.eqb (j_application_url r) url then
    mkJobRow (j_id r) (title j) (j_company_id r) (j_company r) (location j)
             (description j) (requirements j) (experience_level j)
             (j_application_url r) true
  else r.

(** [INSERT INTO jobs (...) VALUES ($1,...,$8,true)
    ON CONFLICT (application_url) DO UPDATE SET ...
    RETURNING xmax = 0 as inserted]: the new table and the [inserted]
    flag. *)
Definition upsert_job (j : ScrapedJob) (url : str) (d : DB) : bool * DB :=
  if existsb (fun r => PyStr.eqb (j_application_url r) url) (jobs d) then
    (false, set_jobs d (map (merge_job j url) (jobs d)))
  else
    (true,
     mkDB (runs d) (companies d)
          (jobs d ++
           [mkJobRow (next_id d) (title j) (company_id j) (company j)
                     (location j) (description j) (requirements j)
                     (experience_level j) url true])
          (S (next_id d))).

(** [SELECT id, application_url FROM jobs WHERE company_id=$1 AND
    is_available=true] *)
Definition select_available_jobs (cid : nat) (d : DB) : list (nat * str) :=
  map (fun r => (j_id r, j_application_url r))
      (filter (fun r => (j_company_id r =? cid) && j_is_available r) (jobs d)).

Definition mark_unavailable (ids : list nat) (r : JobRow) : JobRow :=
  if existsb (Nat.eqb (j_id r)) ids then
    mkJobRow (j_id r) (j_title r) (j_company_id r) (j_company r)
             (j_location r) (j_description r) (j_requirements r)
             (j_experience_level r) (j_application_url r) false
  else r.

(** [UPDATE jobs SET is_available=false, updated_at=NOW()
    WHERE id = ANY($1::uuid[])] *)
Definition update_unavailable (ids : list nat) (d : DB) : DB :=
  set_jobs d (map (mark_unavailable ids) (jobs d)).

End Store.

(* ------------------------------------------------------------------ *)
(** ** pipeline.py *)

Module Pipeline.

Import Store Dedup.

(** What one run meets and cannot choose: the candidates
    [discover_companies] returns (it catches the failures of its sources
    itself), what [scraper.scrape_company] returns or raises for a company,
    the outcome of [scraper.close()], and the order in which the store
    returns the companies (see [scan]). *)
Record Env := mkEnv {
  discover : list Candidate;
  scrape : Company -> outcome (list ScrapedJob);
  close : outcome unit;
  row_rank : CompanyRow -> nat
}.

(** The state a coordinator works on: the store, the [RunMetrics] object
    of the run in progress, the clock read by [NOW()], and the faults of
    the store to come: the head of [plan] is consumed by the next statement,
    which raises the message when there is one and executes otherwise; an
    exhausted plan means no further fault. *)
Record World := mkWorld {
  db : DB;
  metrics : RunMetrics;
  plan : list (option str);
  now : nat
}.

Definition M (A : Type) : Type := World -> outcome A * World.

Definition ret {A} (a : A) : M A := fun w => (Ok a, w).

Definition raise {A} (msg : str) : M A := fun w => (Raise msg, w).

Definition bind {A B} (m : M A) (f : A -> M B) : M B :=
  fun w =>
    match m w with
    | (Ok a, w') => f a w'
    | (Raise e, w') => (Raise e, w')
    end.

Declare Scope pipeline_scope.
Delimit Scope pipeline_scope with pipeline.

Notation "x <- m ;; k" := (bind m (fun x => k))
  (at level 61, m at next level, right associativity) : pipeline_scope.
Notation "m ;;; k" := (bind m (fun _ => k))
  (at level 61, right associativity) : pipeline_scope.

Local Open Scope pipeline_scope.

(** One statement sent to the store: [f now db] is what it returns and the
    store it leaves. *)
Definition stmt {A} (f : nat -> DB -> A * DB) : M A :=
  fun w =>
    match plan w with
    | Some msg :: rest =>
        (Raise msg, mkWorld (db w) (metrics w) rest (S (now w)))
    | None :: rest =>
        let '(a, d) := f (now w) (db w) in
        (Ok a, mkWorld d (metrics w) rest (S (now w)))
    | [] =>
        let '(a, d) := f (now w) (db w) in
        (Ok a, mkWorld d (metrics w) [] (S (now w)))
    end.

(** The driver's refusal of a query argument of the wrong type (the text
    of the message is abbreviated). *)
Definition data_error : str := "DataError".

(** A statement one of whose arguments the driver refuses: the arguments
    are encoded once the connection has answered for the statement, so a
    fault of the store shows first; otherwise the call raises [DataError]
    and nothing reaches the store. *)
Definition refused {A} : M A :=
  fun w =>
    match plan w with
    | Some msg :: rest =>
        (Raise msg, mkWorld (db w) (metrics w) rest (S (now w)))
    | None :: rest =>
        (Raise data_error, mkWorld (db w) (metrics w) rest (S (now w)))
    | [] =>
        (Raise data_error, mkWorld (db w) (metrics w) [] (S (now w)))
    end.

(** The pool of [db.py] is created by [asyncpg.create_pool(dsn, min_size,
    max_size)], without an [init] that would register a codec for JSON, and
    none of the driver's own codecs takes a dictionary: a [dict] among the
    arguments is refused, whatever the column it is meant for. *)
Definition encodable (v : pyval) : bool :=
  match v with
  | PDict _ => false
  | _ => true
  end.

(** One statement sent with the arguments [args]. *)
Definition execute {A} (args : list pyval) (f : nat -> DB -> A * DB) : M A :=
  if forallb encodable args then stmt f else refused.

(** What a column for JSON receives from an argument the driver accepts:
    the text of a [str], null for [None]. *)
Definition json_text (v : pyval) : option str :=
  match v with
  | PStr s => Some s
  | _ => None
  end.

Definition of_nat (n : nat) : pyval := PInt (Z.of_nat n).

(** [metrics.to_dict()]: a copy of the attributes of the object. *)
Definition to_dict (m : RunMetrics) : pyval :=
  PDict [ (lit "companies_discovered", of_nat (companies_discovered m));
          (lit "companies_with_careers", of_nat (companies_with_careers m));
          (lit "companies_scraped", of_nat (companies_scraped m));
          (lit "jobs_scraped", of_nat (jobs_scraped m));
          (lit "jobs_inserted", of_nat (jobs_inserted m));
          (lit "jobs_updated", of_nat (jobs_updated m));
          (lit "jobs_marked_unavailable", of_nat (jobs_marked_unavailable m));
          (lit "errors", PList (map PStr (errors m))) ].

(** A call that returns or raises without touching the store. *)
Definition lift {A} (o : outcome A) : M A := fun w => (o, w).

(** [async with conn.transaction()]: what the block wrote to the store is
    undone when it raises; the Python objects keep their changes. *)
Definition transaction {A} (m : M A) : M A :=
  fun w =>
    match m w with
    | (Ok a, w') => (Ok a, w')
    | (Raise e, w') =>
        (Raise e, mkWorld (db w) (metrics w') (plan w') (now w'))
    end.

(** [try: m finally: fin] *)
Definition try_finally {A} (m : M A) (fin : M unit) : M A :=
  fun w =>
    match m w with
    | (Ok a, w1) =>
        match fin w1 with
        | (Ok _, w2) => (Ok a, w2)
        | (Raise e, w2) => (Raise e, w2)
        end
    | (Raise e, w1) =>
        match fin w1 with
        | (Ok _, w2) => (Raise e, w2)
        | (Raise e', w2) => (Raise e', w2)
        end
    end.

Definition get_metrics : M RunMetrics := fun w => (Ok (metrics w), w).

Definition modify_metrics (f : RunMetrics -> RunMetrics) : M unit :=
  fun w => (Ok tt, mkWorld (db w) (f (metrics w)) (plan w) (now w)).

(** [await asyncio.sleep(n)] *)
Definition sleep (n : nat) : M unit :=
  fun w => (Ok tt, mkWorld (db w) (metrics w) (plan w) (now w + n)).

Definition set_discovery (discovered with_careers : nat) (m : RunMetrics)
  : RunMetrics :=
  mkRunMetrics discovered with_careers 0 (jobs_scraped m) (jobs_inserted m)
               (jobs_updated m) (jobs_marked_unavailable m) (errors m).

Definition add_scraped (n : nat) (m : RunMetrics) : RunMetrics :=
  mkRunMetrics (companies_discovered m) (companies_with_careers m)
               (companies_scraped m + 1) (jobs_scraped m + n)
               (jobs_inserted m) (jobs_updated m)
               (jobs_marked_unavailable m) (errors m).

Definition add_inserted (m : RunMetrics) : RunMetrics :=
  mkRunMetrics (companies_discovered m) (companies_with_careers m)
               (companies_scraped m) (jobs_scraped m) (jobs_inserted m + 1)
               (jobs_updated m) (jobs_marked_unavailable m) (errors m).

Definition add_updated (m : RunMetrics) : RunMetrics :=
  mkRunMetrics (companies_discovered m) (companies_with_careers m)
               (companies_scraped m) (jobs_scraped m) (jobs_inserted m)
               (jobs_updated m + 1) (jobs_marked_unavailable m) (errors m).

Definition add_unavailable (n : nat) (m : RunMetrics) : RunMetrics :=
  mkRunMetrics (companies_discovered m) (companies_with_careers m)
               (companies_scraped m) (jobs_scraped m) (jobs_inserted m)
               (jobs_updated m) (jobs_marked_unavailable m + n) (errors m).

Definition add_error (e : str) (m : RunMetrics) : RunMetrics :=
  mkRunMetrics (companies_discovered m) (companies_with_careers m)
               (companies_scraped m) (jobs_scraped m) (jobs_inserted m)
               (jobs_updated m) (jobs_marked_unavailable m) (errors m ++ [e]).

Definition claim_next_run : M (option nat) :=
  row <- stmt (fun _ d => (select_next_queued d, d)) ;;
  match row with
  | None => ret None
  | Some run_id =>
      stmt (fun now d => (tt, update_running run_id now d)) ;;;
      ret (Some run_id)
  end.

(** The [Company] built from a row.  Without a codec the driver returns
    the value of a JSON column as its text, so [payload or {}] and
    [scraping_config or DEFAULT_SCRAPING_CONFIG] give the text when the
    column is not null (the text of a JSON value is never empty), and the
    dictionary on the right otherwise. *)
Definition to_company (r : CompanyRow) : Company :=
  mkCompany (co_id r) (co_name r) (co_domain r) (co_careers_url r)
    (py_or (of_opt (co_careers_endpoint_payload r)) (PDict []))
    (match co_scraping_config r with
     | Some (x :: text) => ConfigText (x :: text)
     | _ => ConfigDict Metadata.DEFAULT_SCRAPING_CONFIG
     end).

Definition load_active_companies (rank : CompanyRow -> nat) (limit : nat)
  : M (list Company) :=
  rows <- stmt (fun _ d => (select_active_companies rank limit d, d)) ;;
  ret (map to_company rows).

(** [detect_endpoint(c.get("careers_url")) if c.get("careers_url")
    else None] *)
Definition endpoint_payload (c : Candidate) : pyval :=
  match cand_careers_url c with
  | Some (x :: u) => PDict (Metadata.detect_endpoint (x :: u))
  | _ => PNone
  end.

(** [c.get("discovery_source") or "search_engine"] *)
Definition source_of (c : Candidate) : str :=
  match cand_discovery_source c with
  | Some (x :: u) => x :: u
  | _ => lit "search_engine"
  end.

(** The loop of [upsert_companies] over the candidates. *)
Fixpoint upsert_each (discovered : list Candidate) : M unit :=
  match discovered with
  | [] => ret tt
  | c :: rest =>
      let payload := endpoint_payload c in
      execute [PStr (cand_name c); of_opt (cand_domain c);
               of_opt (cand_careers_url c); payload; PStr (source_of c)]
              (fun _ d =>
                 (tt, upsert_company (cand_name c) (cand_domain c)
                        (cand_careers_url c) (json_text payload)
                        (source_of c) d)) ;;;
      upsert_each rest
  end.

Definition upsert_companies (discovered : list Candidate) : M nat :=
  match discovered with
  | [] => ret 0
  | _ => transaction (upsert_each discovered) ;;; ret (List.length discovered)
  end.

(** The loop of [save_jobs] over the jobs.  [application_url], the
    conflict key of [jobs], goes to a text column, for which the driver
    takes a [str] only; a [None] is taken to be refused as well. *)
Fixpoint save_each (jobs : list ScrapedJob) : M unit :=
  match jobs with
  | [] => ret tt
  | j :: rest =>
      match application_url j with
      | PStr url =>
          inserted <- stmt (fun _ d => upsert_job j url d) ;;
          modify_metrics (if inserted then add_inserted else add_updated) ;;;
          save_each rest
      | _ => refused
      end
  end.

Definition save_jobs (jobs : list ScrapedJob) : M unit :=
  match jobs with
  | [] => ret tt
  | _ => transaction (save_each jobs)
  end.

(** [u not in current_urls] *)
Definition url_absent (current_urls : list pyval) (u : str) : bool :=
  negb (existsb (fun v => is_str v u) current_urls).

Definition invalidate_missing (company : Company) (current_urls : list pyval)
  : M unit :=
  match current_urls with
  | [] => ret tt
  | _ =>
      res <- stmt (fun _ d => (select_available_jobs (c_id company) d, d)) ;;
      let to_disable :=
        map fst (filter (fun r => url_absent current_urls (snd r)) res) in
      match to_disable with
      | [] => ret tt
      | _ =>
          stmt (fun _ d => (tt, update_unavailable to_disable d)) ;;;
          modify_metrics (add_unavailable (List.length to_disable))
      end
  end.

(** The body of the loop of [run_pipeline] for one company. *)
Definition process_company (env : Env) (company : Company) : M unit :=
  jobs <- lift (scrape env company) ;;
  match jobs with
  | [] => ret tt
  | _ =>
      modify_metrics (add_scraped (List.length jobs)) ;;;
      let unique := deduplicate jobs in
      save_jobs unique ;;;
      invalidate_missing company (map application_url unique)
  end.

Fixpoint process_companies (env : Env) (companies : list Company) : M unit :=
  match companies with
  | [] => ret tt
  | company :: rest =>
      process_company env company ;;; process_companies env rest
  end.

Definition has_careers (c : Candidate) : bool :=
  truthy (of_opt (cand_careers_url c)).

(** The [try] block of [run_pipeline].  Its last statement takes
    [metrics.to_dict()] as [$2]. *)
Definition pipeline_body (env : Env) (run_id : nat) : M unit :=
  let discovered := discover env in
  modify_metrics
    (set_discovery (List.length discovered)
                   (List.length (filter has_careers discovered))) ;;;
  upsert_companies discovered ;;;
  companies <- load_active_companies (row_rank env) 200 ;;
  try_finally (process_companies env companies) (lift (close env)) ;;;
  m <- get_metrics ;;
  execute [of_nat run_id; to_dict m; of_nat (companies_scraped m);
           of_nat (jobs_scraped m); of_nat (jobs_inserted m);
           of_nat (jobs_updated m); of_nat (jobs_marked_unavailable m)]
          (fun now d => (tt, update_success run_id now m d)).

(** [run_pipeline]: the metrics object is created anew; an exception of the
    body is caught and its message appended to [errors]; the statement of
    the handler takes [metrics.to_dict()] as [$2] like the one of the body,
    and what it raises leaves the function. *)
Definition run_pipeline (env : Env) (run_id : nat) : M unit :=
  fun w =>
    match
      pipeline_body env run_id (mkWorld (db w) new_metrics (plan w) (now w))
    with
    | (Ok tt, w1) => (Ok tt, w1)
    | (Raise e, w1) =>
        (modify_metrics (add_error e) ;;;
         m <- get_metrics ;;
         execute [of_nat run_id; to_dict m]
                 (fun now d => (tt, update_failed run_id now m d))) w1
    end.

(** [background_worker], for [fuel] turns of its endless loop: [envs i] is
    what the [i]-th turn meets outside the store.  [Raise] means the loop
    has been left by an exception. *)
Fixpoint background_worker (envs : nat -> Env) (poll_interval_sec : nat)
  (turn fuel : nat) : M unit :=
  match fuel with
  | 0 => ret tt
  | S fuel' =>
      run_id <- claim_next_run ;;
      match run_id with
      | Some id => run_pipeline (envs turn) id
      | None => ret tt
      end ;;;
      sleep poll_interval_sec ;;;
      background_worker envs poll_interval_sec (S turn) fuel'
  end.

(** *** Several coordinators on one store

    [claim_next_run] sends its two statements through the pool, each in
    its own implicit transaction, so another coordinator's statement can
    run between them.  A claimant is at its [SELECT], at its [UPDATE] with
    the row it selected, or has returned. *)
Inductive claimant : Type :=
| AtSelect
| AtUpdate (run_id : nat)
| Returned (result : option nat).

(** The next statement of a claimant, at time [now]. *)
Definition claim_step (now : nat) (c : claimant) (d : DB) : claimant * DB :=
  match c with
  | AtSelect =>
      match select_next_queued d with
      | None => (Returned None, d)
      | Some run_id => (AtUpdate run_id, d)
      end
  | AtUpdate run_id => (Returned (Some run_id), update_running run_id now d)
  | Returned r => (Returned r, d)
  end.

(** The claimants of a system, each with its state. *)
Fixpoint step_nth (now i : nat) (cs : list claimant) (d : DB)
  : list claimant * DB :=
  match cs, i with
  | [], _ => ([], d)
  | c :: rest, 0 =>
      let '(c', d') := claim_step now c d in (c' :: rest, d')
  | c :: rest, S i' =>
      let '(rest', d') := step_nth now i' rest d in (c :: rest', d')
  end.

(** A schedule names, statement after statement, the claimant that
    runs. *)
Fixpoint run_schedule (schedule : list nat) (now : nat) (cs : list claimant)
  (d : DB) : list claimant * DB :=
  match schedule with
  | [] => (cs, d)
  | i :: rest =>
      let '(cs', d') := step_nth now i cs d in
      run_schedule rest (S now) cs' d'
  end.

End Pipeline.

(* ------------------------------------------------------------------ *)
(** ** company_discovery.py *)

Module Discovery.

Import Metadata Store.

Definition SEARCH_ENGINES : list str := map lit ["google"; "bing"; "serpapi"].

Definition CAREERS_KEYWORDS : list str :=
  map lit ["careers"; "jobs"; "hiring"; "employment"; "opportunities"].

Definition JOB_BOARD_HINTS : list str :=
  map lit ["linkedin.com"; "glassdoor.com"; "indeed.com"; "lever.co";
           "greenhouse.io"; "workable.com"].

Definition upper_char (c : ascii) : ascii :=
  if is_lower c then ascii_of_nat (code c - 32) else c.

(** The title-case form of a first character: the capital of a letter that
    has one below 256, "Ss" for the sharp s U+00DF.  The capitals of U+00B5
    and U+00FF lie above 255, outside the characters of the model: these two
    are left as they are. *)
Definition title_char (c : ascii) : str :=
  if code c =? 223 then lit "Ss" else [upper_char c].

(** [s.capitalize()] *)
Definition capitalize (s : str) : str :=
  match s with
  | [] => []
  | c :: rest => title_char c ++ lower rest
  end.

(** [s.replace(pat, "")] for a pattern that is not empty, read from the
    left: [skip] counts the characters of a found occurrence still to be
    dropped. *)
Fixpoint remove_from (pat : str) (skip : nat) (s : str) : str :=
  match s with
  | [] => []
  | c :: rest =>
      match skip with
      | S k => remove_from pat k rest
      | 0 =>
          if starts_with pat s then remove_from pat (List.length pat - 1) rest
          else c :: remove_from pat 0 rest
      end
  end.

Definition remove_all (pat s : str) : str := remove_from pat 0 s.

(** [d.get(k, default)] *)
Definition dict_get_default (d : list (str * pyval)) (k : str)
  (default : pyval) : pyval :=
  if dict_has d k then dict_get d k else default.

(** ["-" in title]: a substring test on a string, a membership test on a
    list or on the keys of a dictionary, a [TypeError] otherwise. *)
Definition dash_in (title : pyval) : outcome bool :=
  match title with
  | PStr s => Ok (contains (lit "-") s)
  | PList l => Ok (existsb (fun v => is_str v (lit "-")) l)
  | PDict d => Ok (dict_has d (lit "-"))
  | _ => Raise Scraper.type_error
  end.

(** [l[-2]] for a list of at least two elements. *)
Definition second_last (l : list str) : str :=
  nth (List.length l - 2) l [].

Definition _name_from_title_or_domain (title : pyval) (domain : str)
  : outcome (option str) :=
  let from_domain :=
    let core := split "."%char domain in
    if 2 <=? List.length core then Some (capitalize (second_last core))
    else None in
  Scraper.bind (dash_in title)
    (fun dashed =>
       if dashed then
         Scraper.bind (Scraper.as_str title)
           (fun s =>
              let first := strip (hd [] (split "-"%char s)) in
              if (2 <? List.length first) && (List.length first <? 80)
              then Ok (Some first)
              else Ok from_domain)
       else Ok from_domain).

Section WithLibraries.

(** [str(v)] for a list or a dictionary, left open as in the scraper. *)
Variable repr_container : pyval -> str.

(** [urlparse(link).hostname]: the host of the link in lower case, [None]
    when the link has none; the parser raises on a link it rejects. *)
Variable hostname : str -> outcome (option str).

(** [_extract_company]: [None] for a result that is passed over, also when
    anything in the [try] block raises. *)
Definition _extract_company (result : list (str * pyval)) : option Candidate :=
  let link := dict_get result (lit "link") in
  if negb (truthy link) then None
  else
    let attempt :=
      Scraper.bind (Scraper.as_str link)
        (fun link_s =>
           Scraper.bind (hostname link_s)
             (fun host =>
                let domain :=
                  match host with
                  | Some (x :: h) => x :: h
                  | _ => []
                  end in
                if any_in JOB_BOARD_HINTS domain then Ok None
                else
                  let title := dict_get_default result (lit "title") (PStr []) in
                  Scraper.bind (_name_from_title_or_domain title domain)
                    (fun name =>
                       match name with
                       | Some (x :: n) =>
                           let snippet :=
                             dict_get_default result (lit "snippet") (PStr []) in
                           let text :=
                             lower (Scraper.py_str repr_container title
                                    ++ lit " "
                                    ++ Scraper.py_str repr_container snippet
                                    ++ lit " " ++ link_s) in
                           let careers_url :=
                             if any_in CAREERS_KEYWORDS text then Some link_s
                             else None in
                           Ok (Some (mkCandidate (x :: n)
                                       (Some (remove_all (lit "www.") domain))
                                       careers_url
                                       (Some (lit "search_engine"))))
                       | _ => Ok None
                       end))) in
    match attempt with
    | Ok c => c
    | Raise _ => None
    end.

(** The candidates of the results of one search, in order. *)
Fixpoint extract_all (results : list (list (str * pyval))) : list Candidate :=
  match results with
  | [] => []
  | r :: rest =>
      match _extract_company r with
      | Some c => c :: extract_all rest
      | None => extract_all rest
      end
  end.

(** [_search(engine, query, limit)] as the loop of [discover_companies]
    sees it: the results, or an exception. *)
Variable search : str -> str -> nat -> outcome (list (list (str * pyval))).

(** The loop over the engines for one query: an engine that raises is
    logged and passed over. *)
Fixpoint search_engines (engines : list str) (query : str) (limit : nat)
  : list Candidate :=
  match engines with
  | [] => []
  | engine :: rest =>
      match search engine query limit with
      | Ok results => extract_all results ++ search_engines rest query limit
      | Raise _ => search_engines rest query limit
      end
  end.

Fixpoint search_queries (queries : list str) (limit : nat) : list Candidate :=
  match queries with
  | [] => []
  | query :: rest =>
      search_engines SEARCH_ENGINES query limit ++ search_queries rest limit
  end.

End WithLibraries.

(** [c.get("domain") or c["name"].lower()] *)
Definition candidate_key (c : Candidate) : str :=
  match cand_domain c with
  | Some (x :: d) => x :: d
  | _ => lower (cand_name c)
  end.

(** The loop that fills the dictionary [dedup], kept as its list of
    entries in insertion order. *)
Fixpoint dedup_loop (companies : list Candidate)
  (dedup : list (str * Candidate)) : list (str * Candidate) :=
  match companies with
  | [] => dedup
  | c :: rest =>
      let key := candidate_key c in
      if existsb (fun kv => PyStr.eqb key (fst kv)) dedup
      then dedup_loop rest dedup
      else dedup_loop rest (dedup ++ [(key, c)])
  end.

(** [list(dedup.values())] *)
Definition deduplicated (companies : list Candidate) : list Candidate :=
  map snd (dedup_loop companies []).

Definition discover_companies (repr_container : pyval -> str)
  (hostname : str -> outcome (option str))
  (search : str -> str -> nat -> outcome (list (list (str * pyval))))
  (queries : list str) (limit : nat) : list Candidate :=
  deduplicated (search_queries repr_container hostname search queries limit).

End Discovery.

(* ------------------------------------------------------------------ *)
(** ** config.py *)

Module Config.

(** The split of [s.split(sep)] for a one-character separator, with the
    pieces trimmed and the empty ones dropped:
    [[q.strip() for q in s.split(",") if q.strip()]]. *)
Definition search_queries (raw : str) : list str :=
  map strip
      (filter (fun q => match strip q with [] => false | _ => true end)
              (split ","%char raw)).

(** [os.getenv("SCRAPER_HEADLESS", "true").lower() == "true"] *)
Definition headless (value : option str) : bool :=
  PyStr.eqb (lower (match value with Some v => v | None => lit "true" end))
            (lit "true").

End Config.

(* ------------------------------------------------------------------ *)
(** ** Vocabulary of the properties *)

Module Vocabulary.

Import Store Dedup Pipeline.

(** The keys of the tables. *)
Definition job_urls (d : DB) : list str := map j_application_url (jobs d).
Definition job_ids (d : DB) : list nat := map j_id (jobs d).
Definition company_names (d : DB) : list str := map co_name (companies d).
Definition run_ids (d : DB) : list nat := map r_id (runs d).


(** The stored company of name [name], if any. *)
Definition company_named (name : str) (d : DB) : option CompanyRow :=
  find (fun r => PyStr.eqb (co_name r) name) (companies d).

(** A stored job that a batch of [company] with the URLs [current_urls]
    makes stale: it belongs to the company, is available, and its URL is
    not among those of the batch. *)
Definition stale (company : Company) (current_urls : list pyval) (r : JobRow)
  : bool :=
  (j_company_id r =? c_id company) && j_is_available r
  && url_absent current_urls (j_application_url r).

Definition unavailable (r : JobRow) : JobRow :=
  mkJobRow (j_id r) (j_title r) (j_company_id r) (j_company r) (j_location r)
           (j_description r) (j_requirements r) (j_experience_level r)
           (j_application_url r) false.





(** The row of the run [run_id]. *)
Definition run_row (run_id : nat) (d : DB) : option RunRow :=
  find (fun r => r_id r =? run_id) (runs d).

Definition run_status (run_id : nat) (d : DB) : option status :=
  option_map r_status (run_row run_id d).


(** A computation that leaves the table of the runs as it is. *)
Definition keeps_runs {A} (m : M A) : Prop :=
  forall w, runs (db (snd (m w))) = runs (db w).

(** One turn of the loop of [background_worker] without its sleep. *)
Definition worker_turn (env : Env) : M unit :=
  Pipeline.bind claim_next_run
    (fun run_id =>
       match run_id with
       | Some id => run_pipeline env id
       | None => ret tt
       end).

(** The run a turn of the worker claims in [w], if any. *)
Definition claimed_by (w : World) : option nat :=
  match fst (claim_next_run w) with
  | Ok claimed => claimed
  | Raise _ => None
  end.

(** [k] occurs in [text]: Python's [k in text] for two strings. *)
Definition occurs (k text : str) : Prop := exists a b, text = a ++ k ++ b.

(** The dictionary [scrape_company] reads the type of the endpoint from:
    the payload of the company when it is one, the empty dictionary when
    the payload is false in a condition. *)
Definition payload_is (c : Company) (d : list (str * pyval)) : Prop :=
  c_careers_endpoint_payload c = PDict d \/
  (truthy (c_careers_endpoint_payload c) = false /\ d = []).

(** API mode: the payload says "api", or names no type and the URL holds
    one of the markers /api/ and .json. *)
Definition api_mode (d : list (str * pyval)) (url : str) : Prop :=
  dict_get d (lit "type") = PStr (lit "api") \/
  (truthy (dict_get d (lit "type")) = false /\
   (occurs (lit "/api/") url \/ occurs (lit ".json") url)).

(** Page mode: the payload names another type, or names none and the URL
    holds neither marker. *)
Definition page_mode (d : list (str * pyval)) (url : str) : Prop :=
  (truthy (dict_get d (lit "type")) = true /\
   dict_get d (lit "type") <> PStr (lit "api")) \/
  (truthy (dict_get d (lit "type")) = false /\
   ~ occurs (lit "/api/") url /\ ~ occurs (lit ".json") url).

(** A computation that leaves a store without fault to come without
    fault to come. *)
Definition stays_sound {A} (m : M A) : Prop :=
  forall w, plan w = [] -> plan (snd (m w)) = [].

(** A computation that raises, whatever the world it starts in. *)
Definition always_raises {A} (m : M A) : Prop :=
  forall w, exists e, fst (m w) = Raise e.

(** A stored company as an upsert may leave it: identifier, name,
    activity, scraping configuration and discovery source are as before. *)
Definition company_kept (r r' : CompanyRow) : Prop :=
  co_id r' = co_id r /\ co_name r' = co_name r /\
  co_is_active r' = co_is_active r /\
  co_scraping_config r' = co_scraping_config r /\
  co_discovery_source r' = co_discovery_source r.

(** The list that stands for the table of the companies after upserts:
    the rows it had, each kept, followed by added rows, all active. *)
Definition companies_extend (old new : list CompanyRow) : Prop :=
  exists updated added,
    new = updated ++ added /\ Forall2 company_kept old updated /\
    Forall (fun r => co_is_active r = true) added.

(** The same of the table itself, whose rows have no order: every row it
    had is kept, no row is lost, and a row that is not a kept one is
    active. *)
Definition companies_preserved (old new : list CompanyRow) : Prop :=
  (forall r, In r old -> exists r', In r' new /\ company_kept r r') /\
  (forall r', In r' new ->
              (exists r, In r old /\ company_kept r r') \/
              co_is_active r' = true) /\
  List.length old <= List.length new.

(** The identifiers of the stored jobs are below the next one the store
    hands out. *)
Definition ids_fresh (d : DB) : Prop :=
  forall r, In r (jobs d) -> j_id r < next_id d.

End Vocabulary.

(* ================================================================== *)
(** * Properties *)

Import Store Pipeline Vocabulary.

Import Dedup.

(** ** Strings *)

Lemma eqb_refl (s : str) : PyStr.eqb s s = true.
Proof.
  induction s as [|c s IH]; simpl; [reflexivity|].
  now rewrite Ascii.eqb_refl.
Qed.

Lemma eqb_eq (a b : str) : PyStr.eqb a b = true <-> a = b.
Proof.
  split.
  - revert b; induction a as [|x a IH]; intros [|y b]; simpl; try discriminate.
    + reflexivity.
    + intros H. apply andb_true_iff in H as [Hxy Hab].
      apply Ascii.eqb_eq in Hxy. apply IH in Hab. now subst.
  - intros ->. apply eqb_refl.
Qed.

Lemma eqb_neq (a b : str) : PyStr.eqb a b = false <-> a <> b.
Proof.
  split.
  - intros H E. apply eqb_eq in E. congruence.
  - intros H. destruct (PyStr.eqb a b) eqn:E; [|reflexivity].
    apply eqb_eq in E. contradiction.
Qed.

Lemma eqb_sym (a b : str) : PyStr.eqb a b = PyStr.eqb b a.
Proof.
  destruct (PyStr.eqb a b) eqn:E.
  - apply eqb_eq in E. subst. symmetry. apply eqb_refl.
  - symmetry. apply eqb_neq. apply eqb_neq in E. congruence.
Qed.

Lemma starts_with_app (k t : str) :
  starts_with k t = true <-> exists b, t = k ++ b.
Proof.
  split.
  - revert t; induction k as [|x k IH]; intros t H.
    + now exists t.
    + destruct t as [|y t]; simpl in H; [discriminate|].
      apply andb_true_iff in H as [Hxy Hk].
      apply Ascii.eqb_eq in Hxy. subst y.
      destruct (IH _ Hk) as [b ->]. now exists b.
  - intros [b ->]. induction k as [|x k IH]; simpl; [reflexivity|].
    now rewrite Ascii.eqb_refl.
Qed.

(** [contains k t] is Python's [k in t]: [k] occurs somewhere in [t]. *)
Lemma contains_spec (k t : str) :
  contains k t = true <-> exists a b, t = a ++ k ++ b.
Proof.
  split.
  - induction t as [|y t IH]; simpl; intros H.
    + rewrite orb_false_r in H. apply starts_with_app in H as [b Hb].
      now exists [], b.
    + apply orb_true_iff in H as [H|H].
      * apply starts_with_app in H as [b Hb]. now exists [], b.
      * destruct (IH H) as (a & b & ->). now exists (y :: a), b.
  - intros (a & b & ->). induction a as [|y a IH]; simpl.
    + assert (Hs : starts_with k (k ++ b) = true)
        by (apply starts_with_app; now exists b).
      destruct (k ++ b); simpl; now rewrite Hs.
    + rewrite IH. apply orb_true_r.
Qed.

Lemma contains_occurs (k t : str) : contains k t = true <-> occurs k t.
Proof. apply contains_spec. Qed.

Lemma contains_not_occurs (k t : str) :
  contains k t = false <-> ~ occurs k t.
Proof.
  rewrite <- contains_occurs. destruct (contains k t); split; congruence.
Qed.







(** ** Normalizer *)





(** ** Experience level *)

Import Metadata Scraper.

Lemma any_in_occurs (markers : list str) (text : str) :
  any_in markers text = true <-> exists k, In k markers /\ occurs k text.
Proof.
  unfold any_in, occurs. rewrite existsb_exists. split.
  - intros (k & Hk & Hc). exists k. split; [exact Hk|].
    now apply contains_spec.
  - intros (k & Hk & Hc). exists k. split; [exact Hk|].
    now apply contains_spec.
Qed.

Lemma any_in_not_occurs (markers : list str) (text : str) :
  any_in markers text = false <->
  ~ exists k, In k markers /\ occurs k text.
Proof.
  rewrite <- any_in_occurs. destruct (any_in markers text); split;
    congruence.
Qed.

Lemma mapping_lookup_first (pre post : list (str * str)) (k v text : str) :
  contains k text = true ->
  (forall k' v', In (k', v') pre -> contains k' text = false) ->
  mapping_lookup (pre ++ (k, v) :: post) text = Some v.
Proof.
  intros Hk Hpre. induction pre as [|[k0 v0] pre IH]; simpl.
  - now rewrite Hk.
  - rewrite (Hpre k0 v0) by now left.
    apply IH. intros k' v' Hin. apply (Hpre k' v'). now right.
Qed.

Lemma mapping_lookup_none (mapping : list (str * str)) (text : str) :
  (forall k v, In (k, v) mapping -> contains k text = false) ->
  mapping_lookup mapping text = None.
Proof.
  induction mapping as [|[k0 v0] mapping IH]; simpl; intros H.
  - reflexivity.
  - rewrite (H k0 v0) by now left.
    apply IH. intros k v Hin. apply (H k v). now right.
Qed.

(** C8.  The level is decided by the first rule that matches the
    lower-cased text of title, a space and description: the first entry of
    the mapping, in its order, whose key occurs in the text; failing that
    the built-in keywords for entry, then for senior, then for lead;
    failing all, mid.  Nothing is scored: with the default mapping a text
    in which both "senior" and "entry" occur is classified entry.  The
    instances that close the statement show the lower-casing, the
    description, the order of the mapping and each built-in tier at
    work. *)
Theorem determine_level_priority (title desc : str)
  (mapping : list (str * str)) :
  let text := lower (title ++ lit " " ++ desc) in
  let level := _determine_level title desc mapping in
  let hit (words : list str) := exists k, In k words /\ occurs k text in
  let entry := hit (map lit ["junior"; "entry"; "graduate"]) in
  let senior := hit (map lit ["senior"; "sr."]) in
  let lead := hit (map lit ["lead"; "principal"; "staff"]) in
  (forall pre k v post,
      mapping = pre ++ (k, v) :: post ->
      occurs k text ->
      (forall k' v', In (k', v') pre -> ~ occurs k' text) ->
      level = v) /\
  ((forall k v, In (k, v) mapping -> ~ occurs k text) ->
   (entry -> level = lit "entry") /\
   (~ entry -> senior -> level = lit "senior") /\
   (~ entry -> ~ senior -> lead -> level = lit "lead") /\
   (~ entry -> ~ senior -> ~ lead -> level = lit "mid")) /\
  (occurs (lit "senior") text -> occurs (lit "entry") text ->
   _determine_level title desc default_experienceLevelMapping = lit "entry") /\
  _determine_level (lit "Senior-entry-level hybrid") (lit "")
                   default_experienceLevelMapping = lit "entry" /\
  _determine_level (lit "SENIOR Staff Engineer") (lit "") [] = lit "senior" /\
  _determine_level (lit "Staff Engineer") (lit "for GRADUATES") []
    = lit "entry" /\
  _determine_level (lit "Principal Engineer") (lit "") [] = lit "lead" /\
  _determine_level (lit "Engineer") (lit "") [] = lit "mid" /\
  _determine_level (lit "Senior Engineer") (lit "")
                   [kv "engineer" "mid"; kv "senior" "senior"] = lit "mid" /\
  _determine_level (lit "Graduate Engineer") (lit "")
                   [kv "engineer" "lead"] = lit "lead".
Proof.
  intros text level hit entry senior lead.
  split; [|split; [|split; [|vm_compute; repeat split]]].
  - intros pre k v post -> Hk Hpre. unfold level, _determine_level.
    fold text. rewrite (mapping_lookup_first pre post k v text);
      [reflexivity|now apply contains_occurs|].
    intros k' v' Hin. apply contains_not_occurs. now apply (Hpre k' v').
  - intros Hnone. unfold level, _determine_level. fold text.
    rewrite (mapping_lookup_none mapping text)
      by (intros k v Hin; apply contains_not_occurs; now apply (Hnone k v)).
    subst entry senior lead hit. cbv beta.
    repeat split; intros;
      repeat match goal with
             | H : ~ (exists k, _) |- _ =>
                 apply any_in_not_occurs in H; rewrite H
             | H : exists k, _ |- _ => apply any_in_occurs in H; rewrite H
             end; reflexivity.
  - intros _ Hentry. apply contains_occurs in Hentry.
    unfold _determine_level. fold text.
    unfold default_experienceLevelMapping, kv.
    cbn [mapping_lookup].
    destruct (contains (lit "junior") text); [reflexivity|].
    now rewrite Hentry.
Qed.

Lemma determine_level_priority_witness :
  occurs (lit "sr.") (lower (lit "Sr. Staff Engineer" ++ lit " " ++ lit "")) /\
  _determine_level (lit "Sr. Staff Engineer") (lit "") [kv "manager" "lead"]
  = lit "senior".
Proof.
  assert (Hs : occurs (lit "sr.")
                 (lower (lit "Sr. Staff Engineer" ++ lit " " ++ lit ""))).
  { exists [], (lit " staff engineer "). reflexivity. }
  split; [exact Hs|].
  pose proof (determine_level_priority (lit "Sr. Staff Engineer") (lit "")
                [kv "manager" "lead"]) as H.
  cbv zeta in H. destruct H as (_ & H & _).
  apply H.
  - intros k v [[= <- <-]|[]]. apply contains_not_occurs.
    vm_compute. reflexivity.
  - intros (k & Hk & Ho). apply contains_occurs in Ho.
    destruct Hk as [<-|[<-|[<-|[]]]]; vm_compute in Ho; discriminate.
  - exists (lit "sr."). split; [right; now left|exact Hs].
Defined.

(** ** Scraped jobs *)

Lemma py_or_truthy_r (a b : pyval) :
  truthy b = true -> truthy (py_or a b) = true.
Proof. intros H. unfold py_or. now destruct (truthy a) eqn:E. Qed.

Lemma bind_Ok_inv {A B} (m : outcome A) (f : A -> outcome B) (b : B) :
  Scraper.bind m f = Ok b -> exists a, m = Ok a /\ f a = Ok b.
Proof. destruct m as [a|e]; simpl; intros H; [now exists a|discriminate]. Qed.

Section ScrapedJobs.

Variable repr_container : pyval -> str.

Lemma parse_api_job_url (item : pyval) (company : Company) (job : ScrapedJob) :
  _parse_api_job repr_container item company = Ok (Some job) ->
  truthy (of_opt (c_careers_url company)) = true ->
  truthy (application_url job) = true.
Proof.
  intros H Hurl. destruct item; try discriminate.
  unfold _parse_api_job in H. cbv zeta in H.
  destruct (negb _); [discriminate|].
  apply bind_Ok_inv in H as (reqs & _ & H).
  apply bind_Ok_inv in H as (title_s & _ & H).
  apply bind_Ok_inv in H as (desc_s & _ & H).
  injection H as <-. simpl. now apply py_or_truthy_r.
Qed.

Lemma parse_items_url (arr : list pyval) (company : Company)
  (acc jobs : list ScrapedJob) :
  truthy (of_opt (c_careers_url company)) = true ->
  Forall (fun j => truthy (application_url j) = true) acc ->
  parse_items repr_container arr company acc = Ok jobs ->
  Forall (fun j => truthy (application_url j) = true) jobs.
Proof.
  intros Hurl. revert acc. induction arr as [|item arr IH]; intros acc Hacc H.
  - simpl in H. injection H as <-. exact Hacc.
  - simpl in H.
    destruct (_parse_api_job repr_container item company) as [[job|]|] eqn:E;
      simpl in H; try discriminate.
    + apply (IH (acc ++ [job])); [|exact H].
      apply Forall_app. split; [exact Hacc|].
      constructor; [|constructor]. now apply (parse_api_job_url item company).
    + now apply (IH acc).
Qed.

Lemma parse_element_url (selectors mapping : list (str * str))
  (company : Company) (el : Element) (job : ScrapedJob) :
  parse_element selectors mapping company el = Ok (Some job) ->
  truthy (of_opt (c_careers_url company)) = true ->
  truthy (application_url job) = true.
Proof.
  intros H Hurl. unfold parse_element in H.
  apply bind_Ok_inv in H as (sel_title & _ & H).
  destruct (is_empty _); [discriminate|].
  apply bind_Ok_inv in H as (sel_location & _ & H).
  apply bind_Ok_inv in H as (sel_description & _ & H).
  apply bind_Ok_inv in H as (sel_requirements & _ & H).
  apply bind_Ok_inv in H as (sel_application & _ & H).
  apply bind_Ok_inv in H as (reqs & _ & H).
  injection H as <-. simpl. now apply py_or_truthy_r.
Qed.

Lemma parse_elements_url (selectors mapping : list (str * str))
  (company : Company) (elements : list Element) (acc : list ScrapedJob) :
  truthy (of_opt (c_careers_url company)) = true ->
  Forall (fun j => truthy (application_url j) = true) acc ->
  Forall (fun j => truthy (application_url j) = true)
         (parse_elements selectors mapping company elements acc).
Proof.
  intros Hurl. revert acc. induction elements as [|el els IH]; intros acc Hacc.
  - exact Hacc.
  - simpl.
    destruct (parse_element selectors mapping company el) as [[job|]|] eqn:E.
    + apply IH. apply Forall_app. split; [exact Hacc|].
      constructor; [|constructor].
      now apply (parse_element_url selectors mapping company el).
    + now apply IH.
    + now apply IH.
Qed.

(** X9.  Every job the scrape adapter returns, in either mode, carries an
    [application_url] that is true in a condition, hence not [None]: the
    fallback [company.careers_url] is itself required to be true before
    either mode is entered. *)
Lemma scraped_url_never_null (net : Internet) (company : Company)
  (jobs : list ScrapedJob) (job : ScrapedJob) :
  scrape_company repr_container net company = Ok jobs ->
  In job jobs ->
  truthy (application_url job) = true /\ application_url job <> PNone.
Proof.
  intros Hs Hin.
  assert (Ht : truthy (application_url job) = true).
  { unfold scrape_company in Hs.
    apply bind_Ok_inv in Hs as (payload & _ & Hs). cbv zeta in Hs.
    destruct (truthy (of_opt (c_careers_url company))) eqn:Hurl.
    - rewrite andb_true_r in Hs.
      destruct (is_str _ _).
      + destruct (_scrape_api repr_container net company) as [found|] eqn:E;
          injection Hs as <-; [|destruct Hin].
        pose proof (fun arr => parse_items_url arr company [] found Hurl
                                  (Forall_nil _)) as HP.
        unfold _scrape_api in E.
        destruct (c_careers_url company); [|discriminate].
        destruct (http_get net s); simpl in E; [|discriminate].
        apply HP in E. rewrite Forall_forall in E. now apply E.
      + destruct (_scrape_web net company) as [found|] eqn:E;
          injection Hs as <-; [|destruct Hin].
        unfold _scrape_web in E. cbv zeta in E.
        apply bind_Ok_inv in E as ([] & _ & E).
        apply bind_Ok_inv in E as ([[listing selectors] mapping] & _ & E).
        apply bind_Ok_inv in E as ([] & _ & E).
        injection E as <-.
        destruct (pv_elements _ _) as [elements|]; [|destruct Hin].
        pose proof (parse_elements_url selectors mapping company elements []
                      Hurl (Forall_nil _)) as HF.
        rewrite Forall_forall in HF. now apply HF.
    - rewrite andb_false_r in Hs. injection Hs as <-. destruct Hin. }
  split; [exact Ht|]. intros E. rewrite E in Ht. discriminate.
Qed.

End ScrapedJobs.

(** Two postings of one API batch that name no apply URL both receive the
    careers URL, so they meet on the persistence key. *)
Lemma scraped_urls_collide :
  let url := lit "https://acme.test/api/jobs.json" in
  let company :=
    mkCompany 1 (lit "Acme") None (Some url) (PDict [])
              (ConfigDict DEFAULT_SCRAPING_CONFIG) in
  let body :=
    PDict [(lit "jobs",
            PList [PDict [(lit "title", PStr "Backend Engineer")];
                   PDict [(lit "title", PStr "Data Engineer")]])] in
  let net :=
    mkInternet (fun _ => Ok body)
               (fun _ => mkPageVisit (Ok tt) (fun _ => Ok []) (Ok tt)) in
  outcome_map (map (fun j => (title j, application_url j)))
              (scrape_company (fun _ => []) net company)
  = Ok [(lit "Backend Engineer", PStr url); (lit "Data Engineer", PStr url)].
Proof. vm_compute. reflexivity. Qed.

(** C9.  At a title made of whitespace only the guard [if not title] lets
    the item through and [title.strip()] stores an empty title, in API mode
    and in page mode alike. *)
Theorem scraped_title_can_be_empty :
  let api_url := lit "https://acme.test/api/jobs.json" in
  let page_url := lit "https://acme.test/careers" in
  let api_company :=
    mkCompany 1 (lit "Acme") None (Some api_url) (PDict [])
              (ConfigDict DEFAULT_SCRAPING_CONFIG) in
  let page_company :=
    mkCompany 1 (lit "Acme") None (Some page_url) (PDict [])
              (ConfigDict DEFAULT_SCRAPING_CONFIG) in
  let body := PDict [(lit "jobs", PList [PDict [(lit "title", PStr "  ")]])] in
  let el :=
    mkElement (fun sel =>
                 if PyStr.eqb sel
                      (lit ".title, .job-title, h2, h3, .position-title, .role-title")
                 then lit " " else [])
              (fun _ => None) in
  let net :=
    mkInternet (fun _ => Ok body)
               (fun _ => mkPageVisit (Ok tt) (fun _ => Ok [el]) (Ok tt)) in
  outcome_map (map (fun j => (title j, application_url j)))
              (scrape_company (fun _ => []) net api_company)
  = Ok [([], PStr api_url)]
  /\
  outcome_map (map (fun j => (title j, application_url j)))
              (scrape_company (fun _ => []) net page_company)
  = Ok [([], PStr page_url)].
Proof. split; vm_compute; reflexivity. Qed.

(** ** Statements and transactions *)

Lemma stmt_ok {A} (f : nat -> DB -> A * DB) (w : World) :
  plan w = [] ->
  stmt f w =
    (Ok (fst (f (now w) (db w))),
     mkWorld (snd (f (now w) (db w))) (metrics w) [] (S (now w))).
Proof.
  intros H. unfold stmt. rewrite H. now destruct (f (now w) (db w)).
Qed.

(** A statement changes the store by [f] or not at all. *)
Lemma stmt_db {A} (f : nat -> DB -> A * DB) (w : World) :
  db (snd (stmt f w)) = db w \/
  db (snd (stmt f w)) = snd (f (now w) (db w)).
Proof.
  unfold stmt. destruct (plan w) as [|[msg|] rest];
    destruct (f (now w) (db w)); simpl; auto.
Qed.

(** A refused statement raises and leaves the store and the metrics as
    they are. *)
Lemma refused_raises {A} (w : World) :
  exists e, fst (@refused A w) = Raise e.
Proof. unfold refused. destruct (plan w) as [|[msg|] rest]; simpl; eauto. Qed.

Lemma refused_db {A} (w : World) : db (snd (@refused A w)) = db w.
Proof. unfold refused. now destruct (plan w) as [|[msg|] rest]. Qed.


Lemma execute_db {A} (args : list pyval) (f : nat -> DB -> A * DB)
  (w : World) :
  db (snd (execute args f w)) = db w \/
  db (snd (execute args f w)) = snd (f (now w) (db w)).
Proof.
  unfold execute. destruct (forallb encodable args);
    [apply stmt_db|left; apply refused_db].
Qed.

Lemma refused_ok {A} (w : World) :
  plan w = [] ->
  @refused A w =
    (Raise data_error, mkWorld (db w) (metrics w) [] (S (now w))).
Proof. intros H. unfold refused. now rewrite H. Qed.

(** ** Job upsert *)

Lemma url_exists_In (u : str) (l : list JobRow) :
  existsb (fun r => PyStr.eqb (j_application_url r) u) l = true <->
  In u (map j_application_url l).
Proof.
  rewrite existsb_exists, in_map_iff. split.
  - intros (r & Hin & E). apply eqb_eq in E. now exists r.
  - intros (r & E & Hin). exists r. split; [exact Hin|]. now apply eqb_eq.
Qed.

Lemma merge_job_url (j : ScrapedJob) (u : str) (l : list JobRow) :
  map j_application_url (map (merge_job j u) l) = map j_application_url l.
Proof.
  rewrite map_map. apply map_ext. intros r. unfold merge_job.
  now destruct (PyStr.eqb (j_application_url r) u).
Qed.







Lemma upsert_job_absent (j : ScrapedJob) (u : str) (d : DB) :
  ~ In u (job_urls d) ->
  upsert_job j u d =
    (true,
     mkDB (runs d) (companies d)
          (jobs d ++
           [mkJobRow (next_id d) (title j) (company_id j) (company j)
                     (location j) (description j) (requirements j)
                     (experience_level j) u true])
          (S (next_id d))).
Proof.
  intros H. unfold upsert_job.
  destruct (existsb _ (jobs d)) eqn:E; [|reflexivity].
  apply url_exists_In in E. contradiction.
Qed.

Lemma upsert_job_present (j : ScrapedJob) (u : str) (d : DB) :
  In u (job_urls d) ->
  upsert_job j u d = (false, set_jobs d (map (merge_job j u) (jobs d))).
Proof.
  intros H. unfold upsert_job.
  apply url_exists_In in H. unfold job_urls in H. now rewrite H.
Qed.



(** ** Company upsert *)

Lemma find_map_inv {A} (p : A -> bool) (f : A -> A) (l : list A) :
  (forall x, p (f x) = p x) ->
  find p (map f l) = option_map f (find p l).
Proof.
  intros H. induction l as [|x l IH]; simpl; [reflexivity|].
  rewrite H. now destruct (p x).
Qed.

Lemma find_app_new {A} (p : A -> bool) (l : list A) (x : A) :
  existsb p l = false -> p x = true -> find p (l ++ [x]) = Some x.
Proof.
  intros Hl Hx. induction l as [|y l IH]; simpl in *.
  - now rewrite Hx.
  - apply orb_false_iff in Hl as [Hy Hl]. rewrite Hy. now apply IH.
Qed.

Lemma name_exists_In (name : str) (l : list CompanyRow) :
  existsb (fun r => PyStr.eqb (co_name r) name) l = true <->
  In name (map co_name l).
Proof.
  rewrite existsb_exists, in_map_iff. split.
  - intros (r & Hin & E). apply eqb_eq in E. now exists r.
  - intros (r & E & Hin). exists r. split; [exact Hin|]. now apply eqb_eq.
Qed.

Lemma merge_company_name (name : str) (domain careers_url : option str)
  (payload : option str) (r : CompanyRow) :
  co_name (merge_company name domain careers_url payload r) = co_name r.
Proof.
  unfold merge_company. now destruct (PyStr.eqb (co_name r) name).
Qed.

Lemma upsert_company_present (name : str) (domain careers_url : option str)
  (payload : option str) (source : str) (d : DB) :
  In name (company_names d) ->
  upsert_company name domain careers_url payload source d =
    set_companies d
      (map (merge_company name domain careers_url payload) (companies d)).
Proof.
  intros H. unfold upsert_company.
  apply name_exists_In in H. now rewrite H.
Qed.

Lemma upsert_company_absent (name : str) (domain careers_url : option str)
  (payload : option str) (source : str) (d : DB) :
  ~ In name (company_names d) ->
  upsert_company name domain careers_url payload source d =
    mkDB (runs d)
         (companies d ++
          [mkCompanyRow (next_id d) name domain careers_url payload None true
                        source])
         (jobs d) (S (next_id d)).
Proof.
  intros H. unfold upsert_company.
  destruct (existsb _ (companies d)) eqn:E; [|reflexivity].
  apply name_exists_In in E. contradiction.
Qed.

Lemma upsert_company_unique (name : str) (domain careers_url : option str)
  (payload : option str) (source : str) (d : DB) :
  NoDup (company_names d) ->
  NoDup (company_names
           (upsert_company name domain careers_url payload source d)).
Proof.
  intros H.
  destruct (in_dec (list_eq_dec ascii_dec) name (company_names d)) as [Hin|Hin].
  - rewrite upsert_company_present by exact Hin.
    unfold company_names, set_companies. cbn [companies].
    rewrite map_map.
    erewrite map_ext; [exact H|]. intros r. apply merge_company_name.
  - rewrite upsert_company_absent by exact Hin.
    unfold company_names. cbn [companies]. rewrite map_app. simpl.
    apply NoDup_app; [exact H | repeat constructor; intros [] | ].
    intros x Hx [<-|[]]. contradiction.
Qed.

Lemma encodable_of_opt (o : option str) : encodable (of_opt o) = true.
Proof. now destruct o. Qed.

(** The statement for a candidate with a careers URL carries the
    dictionary of [detect_endpoint] and is refused. *)
Lemma upsert_each_refused (c : Candidate) (rest : list Candidate) :
  has_careers c = true ->
  upsert_each (c :: rest) =
  Pipeline.bind (@refused unit) (fun _ => upsert_each rest).
Proof.
  intros H. cbn [upsert_each]. cbv zeta. unfold execute.
  cbn [forallb encodable]. rewrite !encodable_of_opt.
  unfold has_careers in H. unfold endpoint_payload.
  destruct (cand_careers_url c) as [[|x u]|]; try discriminate. reflexivity.
Qed.

(** The statement for a candidate without one is sent, with a null
    endpoint hint. *)
Lemma upsert_each_sent (c : Candidate) (rest : list Candidate) :
  has_careers c = false ->
  upsert_each (c :: rest) =
  Pipeline.bind
    (stmt (fun _ d =>
             (tt, upsert_company (cand_name c) (cand_domain c)
                    (cand_careers_url c) None (source_of c) d)))
    (fun _ => upsert_each rest).
Proof.
  intros H. cbn [upsert_each]. cbv zeta. unfold execute.
  cbn [forallb encodable]. rewrite !encodable_of_opt.
  unfold has_careers in H. unfold endpoint_payload.
  destruct (cand_careers_url c) as [[|x u]|]; try discriminate; reflexivity.
Qed.

Lemma upsert_each_raises (l : list Candidate) (w : World) :
  Exists (fun c => has_careers c = true) l ->
  exists e, fst (upsert_each l w) = Raise e /\
            (plan w = [] -> e = data_error).
Proof.
  intros H. revert w. induction H as [c l Hc|c l _ IH]; intros w.
  - rewrite upsert_each_refused by exact Hc. unfold Pipeline.bind.
    destruct (@refused unit w) as [[[]|e] w1] eqn:E.
    + destruct (@refused_raises unit w) as [e He]. rewrite E in He.
      discriminate.
    + exists e. split; [reflexivity|]. intros Hp.
      rewrite refused_ok in E by exact Hp. now injection E as <- _.
  - destruct (has_careers c) eqn:Hc.
    + rewrite upsert_each_refused by exact Hc. unfold Pipeline.bind.
      destruct (@refused unit w) as [[[]|e] w1] eqn:E.
      * destruct (@refused_raises unit w) as [e He]. rewrite E in He.
        discriminate.
      * exists e. split; [reflexivity|]. intros Hp.
        rewrite refused_ok in E by exact Hp. now injection E as <- _.
    + rewrite upsert_each_sent by exact Hc. unfold Pipeline.bind.
      match goal with
      | |- context [stmt ?f w] => destruct (stmt f w) as [[[]|e] w1] eqn:E
      end.
      * destruct (IH w1) as (e & He & Hd). exists e. split; [exact He|].
        intros Hp. apply Hd. rewrite stmt_ok in E by exact Hp.
        now injection E as <-.
      * exists e. split; [reflexivity|]. intros Hp.
        rewrite stmt_ok in E by exact Hp. discriminate.
Qed.

(** C4.  A candidate with a careers URL is never stored: its statement
    takes the dictionary of [detect_endpoint] as [$4], which the driver
    refuses.  [upsert_companies] raises, a [DataError] when the store has no
    fault of its own, and the transaction leaves the companies as they
    were, those of the batch that came before the candidate included. *)
Theorem company_with_careers_url_is_refused (l : list Candidate)
  (c : Candidate) (w : World) :
  In c l ->
  has_careers c = true ->
  let '(r, w') := upsert_companies l w in
  (exists e, r = Raise e) /\
  (plan w = [] -> r = Raise data_error) /\
  db w' = db w /\
  company_named (cand_name c) (db w') = company_named (cand_name c) (db w).
Proof.
  intros Hin Hc.
  assert (Hex : Exists (fun c => has_careers c = true) l)
    by (apply Exists_exists; eauto).
  destruct (upsert_each_raises l w Hex) as (e & He & Hd).
  unfold upsert_companies. destruct l as [|c0 l0]; [destruct Hin|].
  unfold Pipeline.bind, transaction.
  destruct (upsert_each (c0 :: l0) w) as [[[]|e'] w1]; cbn [fst] in He;
    [discriminate|].
  injection He as ->. cbn [db].
  split; [now exists e|]. split; [|split; reflexivity].
  intros Hp. now rewrite (Hd Hp).
Qed.

Lemma company_with_careers_url_is_refused_witness :
  let stored :=
    mkCompanyRow 7 (lit "Acme") (Some (lit "acme.test")) None None None true
                 (lit "search_engine") in
  let c :=
    mkCandidate (lit "Acme") (Some (lit "acme.test"))
                (Some (lit "https://acme.test/careers")) None in
  let w := mkWorld (mkDB [] [stored] [] 8) new_metrics [] 0 in
  has_careers c = true /\
  fst (upsert_companies [c] w) = Raise data_error /\
  option_map co_careers_url
    (company_named (lit "Acme") (db (snd (upsert_companies [c] w))))
  = Some None.
Proof.
  intros stored c w. split; [reflexivity|].
  pose proof (company_with_careers_url_is_refused [c] c w
                (or_introl eq_refl) eq_refl) as H.
  destruct (upsert_companies [c] w) as [r w']. cbn [fst snd].
  destruct H as (_ & H1 & _ & H2).
  split; [exact (H1 eq_refl)|].
  unfold c in H2. cbn [cand_name] in H2. rewrite H2. reflexivity.
Defined.

(** One candidate without a careers URL, on a store without fault. *)
Lemma upsert_companies_single (c : Candidate) (w : World) :
  plan w = [] ->
  has_careers c = false ->
  upsert_companies [c] w =
    (Ok 1,
     mkWorld
       (upsert_company (cand_name c) (cand_domain c) (cand_careers_url c)
          None (source_of c) (db w))
       (metrics w) [] (S (now w))).
Proof.
  intros Hp Hc. unfold upsert_companies, transaction.
  rewrite upsert_each_sent by exact Hc.
  unfold Pipeline.bind. rewrite stmt_ok by exact Hp. reflexivity.
Qed.

(** ** Deduplication *)

Lemma dedup_loop_length (jobs : list ScrapedJob) (seen : list str)
  (unique : list ScrapedJob) :
  List.length unique <= List.length (dedup_loop jobs seen unique) /\
  List.length (dedup_loop jobs seen unique)
    <= List.length unique + List.length jobs.
Proof.
  revert seen unique. induction jobs as [|j jobs IH]; intros seen unique; simpl.
  - lia.
  - destruct (mem (job_key j) seen).
    + specialize (IH seen unique). lia.
    + specialize (IH (job_key j :: seen) (unique ++ [j])).
      rewrite length_app in IH. simpl in IH. lia.
Qed.


(** The first job of a batch is always kept. *)
Lemma deduplicate_nonempty (jobs : list ScrapedJob) :
  jobs <> [] -> deduplicate jobs <> [].
Proof.
  destruct jobs as [|j jobs]; [congruence|]. intros _ E.
  unfold deduplicate in E. simpl in E.
  pose proof (dedup_loop_length jobs [job_key j] [j]) as [H _].
  rewrite E in H. simpl in H. lia.
Qed.

(** ** Invalidation *)

Lemma filter_map_comm {A B} (p : B -> bool) (f : A -> B) (l : list A) :
  filter p (map f l) = map f (filter (fun x => p (f x)) l).
Proof.
  induction l as [|x l IH]; simpl; [reflexivity|].
  destruct (p (f x)); simpl; now rewrite IH.
Qed.

Lemma filter_filter {A} (p q : A -> bool) (l : list A) :
  filter q (filter p l) = filter (fun x => p x && q x) l.
Proof.
  induction l as [|x l IH]; simpl; [reflexivity|].
  destruct (p x); simpl; [destruct (q x)|]; now rewrite IH.
Qed.

(** The identifiers [invalidate_missing] collects are those of the stale
    rows. *)
Lemma to_disable_stale (company : Company) (current_urls : list pyval)
  (d : DB) :
  map fst
      (filter (fun r => url_absent current_urls (snd r))
              (select_available_jobs (c_id company) d)) =
  map j_id (filter (stale company current_urls) (jobs d)).
Proof.
  unfold select_available_jobs. rewrite filter_map_comm, map_map.
  rewrite filter_filter. reflexivity.
Qed.

Lemma key_determines_row {A K} (key : A -> K) (l : list A) (r r' : A) :
  NoDup (map key l) -> In r l -> In r' l -> key r = key r' -> r = r'.
Proof.
  induction l as [|x l IH]; simpl; intros Hnd Hr Hr' E; [destruct Hr|].
  inversion Hnd as [|? ? Hx Hnd']; subst.
  destruct Hr as [<-|Hr], Hr' as [<-|Hr'].
  - reflexivity.
  - exfalso. apply Hx. rewrite E. now apply in_map.
  - exfalso. apply Hx. rewrite <- E. now apply in_map.
  - now apply IH.
Qed.

Lemma mark_unavailable_stale (company : Company) (current_urls : list pyval)
  (l : list JobRow) :
  NoDup (map j_id l) ->
  map (mark_unavailable
         (map j_id (filter (stale company current_urls) l))) l =
  map (fun r => if stale company current_urls r then unavailable r else r) l.
Proof.
  intros Hnd. apply map_ext_in. intros r Hr. unfold mark_unavailable.
  destruct (stale company current_urls r) eqn:Es.
  - assert (E : existsb (Nat.eqb (j_id r))
                        (map j_id (filter (stale company current_urls) l))
                = true).
    { apply existsb_exists. exists (j_id r). split; [|apply Nat.eqb_refl].
      apply in_map. apply filter_In. now split. }
    now rewrite E.
  - destruct (existsb _ _) eqn:E; [|reflexivity].
    apply existsb_exists in E as (i & Hi & Ei).
    apply Nat.eqb_eq in Ei. subst i.
    apply in_map_iff in Hi as (r' & Eid & Hr').
    apply filter_In in Hr' as [Hr' Hs'].
    assert (r = r') by (apply (key_determines_row j_id l); auto).
    subst r'. congruence.
Qed.

Lemma no_stale_identity (company : Company) (current_urls : list pyval)
  (l : list JobRow) :
  filter (stale company current_urls) l = [] ->
  map (fun r => if stale company current_urls r then unavailable r else r) l
  = l.
Proof.
  induction l as [|r l IH]; simpl; intros H; [reflexivity|].
  destruct (stale company current_urls r); [discriminate|].
  now rewrite IH.
Qed.



(** ** Metrics of a run *)









Ltac conjuncts := repeat match goal with |- _ /\ _ => split end.
















(** ** Claiming a run *)

Lemma oldest_queued_inv (rows : list RunRow) (best : option RunRow)
  (r : RunRow) :
  (forall b, best = Some b -> r_status b = queued) ->
  oldest_queued rows best = Some r ->
  r_status r = queued /\
  (In r rows \/ best = Some r) /\
  (forall r', In r' rows -> r_status r' = queued ->
              r_started_at r <= r_started_at r') /\
  (forall b, best = Some b -> r_started_at r <= r_started_at b).
Proof.
  revert best. induction rows as [|x rows IH]; intros best Hb H; simpl in H.
  - subst best. conjuncts; auto.
    + intros r' [].
    + intros b E. injection E as <-. lia.
  - destruct (status_eqb (r_status x) queued) eqn:Ex.
    + assert (Hx : r_status x = queued) by (now destruct (r_status x)).
      destruct best as [b|].
      * destruct (r_started_at x <? r_started_at b) eqn:Elt.
        -- apply Nat.ltb_lt in Elt.
           apply IH in H as (H1 & H2 & H3 & H4);
             [|intros b' E; now injection E as <-].
           specialize (H4 x eq_refl). conjuncts; auto.
           ++ destruct H2 as [H2|H2]; [left; now right|].
              injection H2 as <-. left. now left.
           ++ intros r' [<-|Hr'] Hq; [lia|now apply H3].
           ++ intros b' E. injection E as <-. lia.
        -- apply Nat.ltb_ge in Elt.
           apply IH in H as (H1 & H2 & H3 & H4); [|exact Hb].
           specialize (H4 b eq_refl). conjuncts; auto.
           ++ destruct H2 as [H2|H2]; [left; now right|now right].
           ++ intros r' [<-|Hr'] Hq; [lia|now apply H3].
           ++ intros b' E. injection E as <-. lia.
      * apply IH in H as (H1 & H2 & H3 & H4);
          [|intros b' E; now injection E as <-].
        specialize (H4 x eq_refl). conjuncts; auto.
        -- destruct H2 as [H2|H2]; [left; now right|].
           injection H2 as <-. left. now left.
        -- intros r' [<-|Hr'] Hq; [lia|now apply H3].
        -- intros b E. discriminate.
    + apply IH in H as (H1 & H2 & H3 & H4); [|exact Hb].
      conjuncts; auto.
      * destruct H2 as [H2|H2]; [left; now right|now right].
      * intros r' [<-|Hr'] Hq; [|now apply H3].
        rewrite Hq in Ex. discriminate.
Qed.

Lemma oldest_queued_none (rows : list RunRow) (best : option RunRow) :
  oldest_queued rows best = None ->
  best = None /\ forall r, In r rows -> r_status r <> queued.
Proof.
  revert best. induction rows as [|x rows IH]; intros best H; simpl in H.
  - split; [exact H|]. intros r [].
  - destruct (status_eqb (r_status x) queued) eqn:Ex.
    + destruct best as [b|].
      * destruct (r_started_at x <? r_started_at b);
          apply IH in H as [H _]; discriminate.
      * apply IH in H as [H _]. discriminate.
    + apply IH in H as [H1 H2]. split; [exact H1|].
      intros r [<-|Hr]; [|now apply H2].
      intros E. rewrite E in Ex. discriminate.
Qed.

(** The claim selects a queued run than which no queued run is older, and
    selects none exactly when no run is queued. *)
Lemma select_next_queued_oldest (d : DB) :
  match select_next_queued d with
  | Some run_id =>
      exists r, In r (runs d) /\ r_id r = run_id /\ r_status r = queued /\
                forall r', In r' (runs d) -> r_status r' = queued ->
                           r_started_at r <= r_started_at r'
  | None => forall r, In r (runs d) -> r_status r <> queued
  end.
Proof.
  unfold select_next_queued.
  destruct (oldest_queued (runs d) None) as [r|] eqn:E; simpl.
  - apply oldest_queued_inv in E as (H1 & H2 & H3 & _); [|discriminate].
    destruct H2 as [H2|H2]; [|discriminate]. now exists r.
  - now apply oldest_queued_none in E as [_ E].
Qed.

(** [claim_next_run] run without interruption is the two statements of a
    claimant, one after the other. *)
Lemma claim_next_run_steps (w : World) :
  plan w = [] ->
  let '(c1, d1) := claim_step (now w) AtSelect (db w) in
  let '(c2, d2) := claim_step (S (now w)) c1 d1 in
  exists r, c2 = Returned r /\
            fst (claim_next_run w) = Ok r /\
            db (snd (claim_next_run w)) = d2.
Proof.
  intros Hp. unfold claim_next_run, Pipeline.bind, claim_step.
  rewrite stmt_ok by exact Hp. cbn [fst snd].
  destruct (select_next_queued (db w)) as [run_id|].
  - rewrite stmt_ok by reflexivity. cbn [fst snd now db].
    exists (Some run_id). auto.
  - exists None. auto.
Qed.

(** C2.  With one queued run and two claimants whose statements alternate,
    both [SELECT]s return the run, which is still queued when the second
    one runs, and both claimants return its identifier. *)
Theorem claim_is_not_exclusive :
  let queued_run := mkRunRow 1 queued 5 None None None None None None None in
  let d := mkDB [queued_run] [] [] 2 in
  run_schedule [0; 1; 0; 1] 10 [AtSelect; AtSelect] d =
    ([Returned (Some 1); Returned (Some 1)],
     mkDB [mkRunRow 1 running 13 None None None None None None None] [] [] 2).
Proof. vm_compute. reflexivity. Qed.

(** When the two claims follow one another the second finds nothing. *)
Lemma claim_in_sequence :
  let queued_run := mkRunRow 1 queued 5 None None None None None None None in
  let w := mkWorld (mkDB [queued_run] [] [] 2) new_metrics [] 10 in
  fst (claim_next_run w) = Ok (Some 1) /\
  fst (claim_next_run (snd (claim_next_run w))) = Ok None.
Proof. split; vm_compute; reflexivity. Qed.

(** ** What a run writes to its own record *)

Lemma keeps_runs_ret {A} (a : A) : keeps_runs (ret a).
Proof. intros w. reflexivity. Qed.

Lemma keeps_runs_lift {A} (o : outcome A) : keeps_runs (lift o).
Proof. intros w. reflexivity. Qed.

Lemma keeps_runs_refused {A} : keeps_runs (@refused A).
Proof. intros w. now rewrite refused_db. Qed.

Lemma keeps_runs_bind {A B} (m : M A) (f : A -> M B) :
  keeps_runs m -> (forall a, keeps_runs (f a)) ->
  keeps_runs (Pipeline.bind m f).
Proof.
  intros Hm Hf w. unfold Pipeline.bind. specialize (Hm w).
  destruct (m w) as [[a|e] w1]; simpl in Hm.
  - now rewrite (Hf a w1).
  - exact Hm.
Qed.

Lemma keeps_runs_stmt {A} (f : nat -> DB -> A * DB) :
  (forall now d, runs (snd (f now d)) = runs d) -> keeps_runs (stmt f).
Proof.
  intros Hf w. destruct (stmt_db f w) as [-> | ->]; [reflexivity|apply Hf].
Qed.

Lemma keeps_runs_execute {A} (args : list pyval) (f : nat -> DB -> A * DB) :
  (forall now d, runs (snd (f now d)) = runs d) \/
  forallb encodable args = false ->
  keeps_runs (execute args f).
Proof.
  intros H. unfold execute. destruct (forallb encodable args).
  - destruct H as [H|H]; [now apply keeps_runs_stmt|discriminate].
  - apply keeps_runs_refused.
Qed.

Lemma keeps_runs_transaction {A} (m : M A) :
  keeps_runs m -> keeps_runs (transaction m).
Proof.
  intros Hm w. unfold transaction. specialize (Hm w).
  destruct (m w) as [[a|e] w1]; simpl in *; [exact Hm|reflexivity].
Qed.

Lemma keeps_runs_modify (f : RunMetrics -> RunMetrics) :
  keeps_runs (modify_metrics f).
Proof. intros w. reflexivity. Qed.

Lemma keeps_runs_try_finally {A} (m : M A) (fin : M unit) :
  keeps_runs m -> keeps_runs fin -> keeps_runs (try_finally m fin).
Proof.
  intros Hm Hf w. unfold try_finally. specialize (Hm w).
  destruct (m w) as [[a|e] w1]; simpl in Hm; specialize (Hf w1);
    destruct (fin w1) as [[[]|e'] w2]; simpl in *; congruence.
Qed.

Lemma keeps_runs_upsert_companies (l : list Candidate) :
  keeps_runs (upsert_companies l).
Proof.
  unfold upsert_companies. destruct l as [|c0 l0]; [apply keeps_runs_ret|].
  apply keeps_runs_bind; [|intros; apply keeps_runs_ret].
  apply keeps_runs_transaction.
  generalize (c0 :: l0). intros l. induction l as [|c l IH]; cbn [upsert_each].
  - apply keeps_runs_ret.
  - cbv zeta. apply keeps_runs_bind; [|intros; exact IH].
    apply keeps_runs_execute. left. intros now d. cbn [snd].
    unfold upsert_company. now destruct (existsb _ _).
Qed.

Lemma keeps_runs_save_jobs (js : list ScrapedJob) : keeps_runs (save_jobs js).
Proof.
  unfold save_jobs. destruct js as [|j0 js0]; [apply keeps_runs_ret|].
  apply keeps_runs_transaction.
  generalize (j0 :: js0). intros js. induction js as [|j js IH];
    cbn [save_each].
  - apply keeps_runs_ret.
  - destruct (application_url j); try apply keeps_runs_refused.
    apply keeps_runs_bind.
    + apply keeps_runs_stmt. intros now d.
      unfold upsert_job. now destruct (existsb _ _).
    + intros ins. apply keeps_runs_bind; [apply keeps_runs_modify|].
      intros; exact IH.
Qed.

Lemma keeps_runs_invalidate_missing (c : Company) (urls : list pyval) :
  keeps_runs (invalidate_missing c urls).
Proof.
  unfold invalidate_missing. destruct urls; [apply keeps_runs_ret|].
  apply keeps_runs_bind; [now apply keeps_runs_stmt|].
  intros res. destruct (map fst _); [apply keeps_runs_ret|].
  apply keeps_runs_bind; [now apply keeps_runs_stmt|].
  intros; apply keeps_runs_modify.
Qed.

Lemma keeps_runs_process_companies (env : Env) (cs : list Company) :
  keeps_runs (process_companies env cs).
Proof.
  induction cs as [|c cs IH]; cbn [process_companies].
  - apply keeps_runs_ret.
  - apply keeps_runs_bind; [|intros; exact IH].
    unfold process_company. apply keeps_runs_bind; [apply keeps_runs_lift|].
    intros [|j js]; [apply keeps_runs_ret|].
    apply keeps_runs_bind; [apply keeps_runs_modify|]. intros _.
    apply keeps_runs_bind; [apply keeps_runs_save_jobs|]. intros _.
    apply keeps_runs_invalidate_missing.
Qed.

(** The body of a run never writes to [scraping_runs]: its one statement
    on that table is refused. *)
Lemma keeps_runs_pipeline_body (env : Env) (run_id : nat) :
  keeps_runs (pipeline_body env run_id).
Proof.
  unfold pipeline_body.
  apply keeps_runs_bind; [apply keeps_runs_modify|]. intros _.
  apply keeps_runs_bind; [apply keeps_runs_upsert_companies|]. intros _.
  apply keeps_runs_bind.
  { unfold load_active_companies.
    apply keeps_runs_bind; [now apply keeps_runs_stmt|].
    intros; apply keeps_runs_ret. }
  intros cs. apply keeps_runs_bind.
  { apply keeps_runs_try_finally; [apply keeps_runs_process_companies|].
    apply keeps_runs_lift. }
  intros _. apply keeps_runs_bind; [intros w0; reflexivity|].
  intros m. apply keeps_runs_execute. now right.
Qed.

Lemma keeps_runs_run_pipeline (env : Env) (run_id : nat) :
  keeps_runs (run_pipeline env run_id).
Proof.
  intros w. unfold run_pipeline.
  pose proof (keeps_runs_pipeline_body env run_id
                (mkWorld (db w) new_metrics (plan w) (now w))) as H.
  destruct (pipeline_body env run_id _) as [[[]|e] w1]; cbn [snd db] in H.
  - exact H.
  - rewrite <- H.
    apply (keeps_runs_bind (modify_metrics (add_error e))).
    + apply keeps_runs_modify.
    + intros _. apply keeps_runs_bind; [intros w0; reflexivity|].
      intros m. apply keeps_runs_execute. now right.
Qed.

Lemma always_raises_bind {A B} (m : M A) (f : A -> M B) :
  (forall a, always_raises (f a)) -> always_raises (Pipeline.bind m f).
Proof.
  intros Hf w. unfold Pipeline.bind.
  destruct (m w) as [[a|e] w1]; [apply Hf|now exists e].
Qed.

Lemma always_raises_execute {A} (args : list pyval)
  (f : nat -> DB -> A * DB) :
  forallb encodable args = false -> always_raises (execute args f).
Proof. intros H w. unfold execute. rewrite H. apply refused_raises. Qed.

Lemma always_raises_pipeline_body (env : Env) (run_id : nat) :
  always_raises (pipeline_body env run_id).
Proof.
  unfold pipeline_body. repeat (apply always_raises_bind; intros ?).
  now apply always_raises_execute.
Qed.

Lemma always_raises_run_pipeline (env : Env) (run_id : nat) :
  always_raises (run_pipeline env run_id).
Proof.
  intros w. unfold run_pipeline.
  destruct (always_raises_pipeline_body env run_id
              (mkWorld (db w) new_metrics (plan w) (now w))) as [e He].
  destruct (pipeline_body env run_id _) as [[[]|e'] w1];
    cbn [fst] in He; [discriminate|].
  apply (always_raises_bind (modify_metrics (add_error e'))). intros _.
  apply always_raises_bind. intros m. now apply always_raises_execute.
Qed.

(** ** The life of a run *)

(** C7.  No run reaches a terminal status: the statement that would mark
    it succeeded and the one that would mark it failed both take the
    dictionary of the metrics as [$2], which the driver refuses.  Whatever
    the run meets, [run_pipeline] raises and leaves every run as it was; a
    queued run that is claimed is left running. *)
Theorem run_never_reaches_a_terminal_status :
  (forall env run_id w,
     let '(out, w') := run_pipeline env run_id w in
     (exists e, out = Raise e) /\ runs (db w') = runs (db w)) /\
  (let queued_run := mkRunRow 1 queued 5 None None None None None None None in
   let w0 := mkWorld (mkDB [queued_run] [] [] 2) new_metrics [] 10 in
   let env := mkEnv [] (fun _ => Ok []) (Ok tt) (fun _ => 0) in
   let '(claimed, w1) := claim_next_run w0 in
   let '(out, w2) := run_pipeline env 1 w1 in
   claimed = Ok (Some 1) /\ out = Raise data_error /\
   [run_status 1 (db w0); run_status 1 (db w1); run_status 1 (db w2)]
   = [Some queued; Some running; Some running]).
Proof.
  split.
  - intros env run_id w.
    pose proof (always_raises_run_pipeline env run_id w) as H1.
    pose proof (keeps_runs_run_pipeline env run_id w) as H2.
    destruct (run_pipeline env run_id w) as [out w']. split; assumption.
  - vm_compute. repeat split.
Qed.

(** When two claims follow one another the second finds the run running
    and returns nothing. *)
Lemma claimed_run_is_not_claimed_again :
  let queued_run := mkRunRow 1 queued 5 None None None None None None None in
  let w0 := mkWorld (mkDB [queued_run] [] [] 2) new_metrics [] 10 in
  let env := mkEnv [] (fun _ => Ok []) (Ok tt) (fun _ => 0) in
  let w1 := snd (claim_next_run w0) in
  let w2 := snd (run_pipeline env 1 w1) in
  fst (claim_next_run w2) = Ok None.
Proof. vm_compute. reflexivity. Qed.

(** ** A run that fails *)

(** C6.  The store fails while the companies are loaded and fails again on
    the statement that would mark the run failed: the exception leaves
    [run_pipeline] and [background_worker], whose loop has no handler; the
    run stays running, without details. *)
Theorem failed_run_can_end_the_worker (fuel : nat) :
  let queued_run := mkRunRow 1 queued 5 None None None None None None None in
  let e : str := lit "connection is closed" in
  let w :=
    mkWorld (mkDB [queued_run] [] [] 2) new_metrics
            [None; None; Some e; Some e] 10 in
  let envs := fun _ : nat => mkEnv [] (fun _ => Ok []) (Ok tt) (fun _ => 0) in
  let '(out, w') := background_worker envs 30 0 (S fuel) w in
  out = Raise e /\
  run_row 1 (db w') =
    Some (mkRunRow 1 running 11 None None None None None None None).
Proof. vm_compute. split; reflexivity. Qed.

(** ** One coordinator *)

(** [claim_next_run] returns a run only after it has marked it running,
    and the run is the one its [SELECT] found queued; otherwise it leaves
    the runs as they are. *)
Lemma claim_next_run_runs (w : World) :
  let '(r, w1) := claim_next_run w in
  match r with
  | Ok (Some run_id) =>
      select_next_queued (db w) = Some run_id /\
      exists t, runs (db w1) = map (mark_running run_id t) (runs (db w))
  | _ => runs (db w1) = runs (db w)
  end.
Proof.
  unfold claim_next_run, Pipeline.bind, stmt at 1.
  destruct (plan w) as [|[msg|] rest]; cbn -[stmt]; try reflexivity.
  - destruct (select_next_queued (db w)) as [run_id|]; [|reflexivity].
    cbn. split; [reflexivity|]. now exists (S (now w)).
  - destruct (select_next_queued (db w)) as [run_id|]; [|reflexivity].
    unfold stmt. cbn. destruct rest as [|[msg|] rest']; cbn.
    + split; [reflexivity|]. now exists (S (now w)).
    + reflexivity.
    + split; [reflexivity|]. now exists (S (now w)).
Qed.

Lemma Forall2_map_self {A} (R : A -> A -> Prop) (f : A -> A) (l : list A) :
  (forall x, In x l -> R x (f x)) -> Forall2 R l (map f l).
Proof.
  induction l as [|x l IH]; simpl; intros H; constructor.
  - apply H. now left.
  - apply IH. intros y Hy. apply H. now right.
Qed.

(** X29.  One turn of a coordinator that nothing interleaves with, on runs
    with distinct identifiers, changes at most one run, the one
    [claim_next_run] returns: that run was queued and is left running, and
    every other run is left exactly as it was. *)
Theorem single_coordinator_lifecycle (env : Env) (w : World) :
  NoDup (run_ids (db w)) ->
  Forall2 (fun r r' =>
             r_id r' = r_id r /\
             (claimed_by w <> Some (r_id r) -> r' = r) /\
             (claimed_by w = Some (r_id r) ->
              r_status r = queued /\ r_status r' = running))
          (runs (db w)) (runs (db (snd (worker_turn env w)))).
Proof.
  intros Hnd. unfold worker_turn, claimed_by, Pipeline.bind.
  pose proof (claim_next_run_runs w) as Hc.
  assert (Hsame : forall rows, rows = runs (db w) ->
            Forall2 (fun r r' =>
                       r_id r' = r_id r /\
                       (None <> Some (r_id r) -> r' = r) /\
                       (None = Some (r_id r) ->
                        r_status r = queued /\ r_status r' = running))
                    (runs (db w)) rows).
  { intros rows ->. rewrite <- (map_id (runs (db w))) at 2.
    apply Forall2_map_self. intros x _.
    split; [reflexivity|]. split; [reflexivity|discriminate]. }
  destruct (claim_next_run w) as [[[run_id|]|e] w1]; cbn [snd];
    cbn [fst]; try (now apply Hsame).
  destruct Hc as [Hsel [t Hrun]].
  pose proof (select_next_queued_oldest (db w)) as Hq. rewrite Hsel in Hq.
  destruct Hq as (r0 & Hin0 & Hid0 & Hq0 & _).
  assert (Hrow : forall r, In r (runs (db w)) -> r_id r = run_id ->
                           r_status r = queued).
  { intros r Hr Hid.
    assert (r = r0)
      by (apply (key_determines_row r_id (runs (db w))); auto; congruence).
    now subst r. }
  rewrite (keeps_runs_run_pipeline env run_id w1), Hrun.
  apply Forall2_map_self. intros r Hr. unfold mark_running.
  destruct (r_id r =? run_id) eqn:E; cbn [r_id r_status].
  - apply Nat.eqb_eq in E. split; [reflexivity|]. split.
    + intros Hne. exfalso. apply Hne. now rewrite E.
    + intros _. split; [now apply Hrow|reflexivity].
  - apply Nat.eqb_neq in E. split; [reflexivity|]. split; [reflexivity|].
    intros [= Heq]. now destruct E.
Qed.

(* ================================================================== *)
(** * Further properties of the code *)

(** ** Trimming *)

Lemma lstrip_idem (s : str) : lstrip (lstrip s) = lstrip s.
Proof.
  induction s as [|c s IH]; simpl; [reflexivity|].
  destruct (is_space c) eqn:E; [exact IH|]. simpl. now rewrite E.
Qed.

Lemma lstrip_app_nonspace (x : str) (c : ascii) :
  is_space c = false -> lstrip (x ++ [c]) = lstrip x ++ [c].
Proof.
  intros Hc. induction x as [|a x IH]; simpl.
  - now rewrite Hc.
  - destruct (is_space a); [exact IH|reflexivity].
Qed.

Lemma lstrip_app_space (x : str) (c : ascii) :
  is_space c = true ->
  lstrip (x ++ [c]) = if forallb is_space x then [] else lstrip x ++ [c].
Proof.
  intros Hc. induction x as [|a x IH]; simpl.
  - now rewrite Hc.
  - destruct (is_space a); simpl; [exact IH|reflexivity].
Qed.

Lemma lstrip_all_space (x : str) : forallb is_space x = true -> lstrip x = [].
Proof.
  induction x as [|a x IH]; simpl; [reflexivity|].
  destruct (is_space a); simpl; [exact IH|discriminate].
Qed.

Lemma rstrip_cons (c : ascii) (s : str) :
  rstrip (c :: s) =
  if is_space c && forallb is_space s then [] else c :: rstrip s.
Proof.
  unfold rstrip. simpl.
  assert (Hrev : forallb is_space (rev s) = forallb is_space s).
  { induction s as [|a s IH]; simpl; [reflexivity|].
    rewrite forallb_app. simpl. rewrite IH. now destruct (is_space a), (forallb is_space s). }
  destruct (is_space c) eqn:Hc.
  - rewrite lstrip_app_space by exact Hc. rewrite Hrev.
    destruct (forallb is_space s); simpl; [reflexivity|].
    now rewrite rev_unit.
  - rewrite lstrip_app_nonspace by exact Hc. simpl. now rewrite rev_unit.
Qed.

Lemma rstrip_all_space (s : str) : forallb is_space s = true -> rstrip s = [].
Proof.
  induction s as [|c s IH]; intros H; [reflexivity|].
  simpl in H. apply andb_true_iff in H as [Hc Hs].
  now rewrite rstrip_cons, Hc, Hs.
Qed.

Lemma lstrip_rstrip (s : str) : lstrip (rstrip s) = rstrip (lstrip s).
Proof.
  induction s as [|c s IH]; [reflexivity|].
  rewrite rstrip_cons. simpl. destruct (is_space c) eqn:Hc; simpl.
  - destruct (forallb is_space s) eqn:Hs.
    + now rewrite (lstrip_all_space s Hs).
    + simpl. now rewrite Hc.
  - rewrite Hc. now rewrite rstrip_cons, Hc.
Qed.

Lemma rstrip_idem (s : str) : rstrip (rstrip s) = rstrip s.
Proof. unfold rstrip. now rewrite rev_involutive, lstrip_idem. Qed.

Lemma strip_idem (s : str) : strip (strip s) = strip s.
Proof.
  unfold strip. now rewrite lstrip_rstrip, lstrip_idem, rstrip_idem.
Qed.

Lemma lstrip_incl (s : str) (c : ascii) : In c (lstrip s) -> In c s.
Proof.
  induction s as [|a s IH]; simpl; [tauto|].
  destruct (is_space a); simpl; auto.
Qed.

Lemma strip_incl (s : str) (c : ascii) : In c (strip s) -> In c s.
Proof.
  unfold strip, rstrip. intros H. apply in_rev in H.
  apply lstrip_incl in H. apply in_rev in H. now apply lstrip_incl in H.
Qed.

(** ** Deduplication of a batch *)

Lemma mem_In (k : str) (l : list str) : mem k l = true <-> In k l.
Proof.
  unfold mem. rewrite existsb_exists. split.
  - intros (x & Hx & E). apply eqb_eq in E. now subst.
  - intros H. exists k. split; [exact H|apply eqb_refl].
Qed.

Lemma dedup_loop_acc (jobs : list ScrapedJob) (seen : list str)
  (unique : list ScrapedJob) :
  dedup_loop jobs seen unique = unique ++ dedup_loop jobs seen [].
Proof.
  revert seen unique. induction jobs as [|j jobs IH]; intros seen unique; simpl.
  - now rewrite app_nil_r.
  - destruct (mem (job_key j) seen); [apply IH|].
    rewrite (IH _ (unique ++ [j])), (IH _ [j]). now rewrite <- app_assoc.
Qed.

Lemma dedup_loop_distinct (jobs : list ScrapedJob) (seen : list str) :
  NoDup (map job_key (dedup_loop jobs seen [])) /\
  forall k, In k (map job_key (dedup_loop jobs seen [])) -> ~ In k seen.
Proof.
  revert seen. induction jobs as [|j jobs IH]; intros seen; simpl.
  - split; [constructor|]. intros k [].
  - destruct (mem (job_key j) seen) eqn:E; [apply IH|].
    rewrite dedup_loop_acc. simpl.
    destruct (IH (job_key j :: seen)) as [H1 H2]. split.
    + constructor; [|exact H1]. intros Hin. apply (H2 _ Hin). now left.
    + intros k [<-|Hk].
      * intros Hin. apply mem_In in Hin. congruence.
      * intros Hin. apply (H2 _ Hk). now right.
Qed.

(** X1.  The jobs [deduplicate] returns have pairwise different identity
    keys. *)
Theorem deduplicate_keys_distinct (jobs : list ScrapedJob) :
  NoDup (map job_key (deduplicate jobs)).
Proof. apply (dedup_loop_distinct jobs []). Qed.

Lemma dedup_loop_snoc (pre : list ScrapedJob) (j : ScrapedJob)
  (seen : list str) (unique : list ScrapedJob) :
  dedup_loop (pre ++ [j]) seen unique =
  if mem (job_key j) seen || mem (job_key j) (map job_key pre)
  then dedup_loop pre seen unique
  else dedup_loop pre seen unique ++ [j].
Proof.
  revert seen unique. induction pre as [|x pre IH]; intros seen unique; simpl.
  - rewrite orb_false_r. now destruct (mem (job_key j) seen).
  - destruct (mem (job_key x) seen) eqn:Ex.
    + rewrite IH.
      destruct (PyStr.eqb (job_key j) (job_key x)) eqn:Ejx; simpl;
        [|reflexivity].
      apply eqb_eq in Ejx. rewrite Ejx, Ex. reflexivity.
    + rewrite IH. simpl.
      now destruct (PyStr.eqb (job_key j) (job_key x)),
        (mem (job_key j) seen).
Qed.

(** X2.  [deduplicate] reads the batch in order and keeps a job exactly
    when no earlier job of the batch has its key: the first occurrence of
    each key stays, at its place, and later ones are dropped. *)
Theorem deduplicate_keeps_first (pre : list ScrapedJob) (j : ScrapedJob) :
  deduplicate (pre ++ [j]) =
  if mem (job_key j) (map job_key pre) then deduplicate pre
  else deduplicate pre ++ [j].
Proof. unfold deduplicate. now rewrite dedup_loop_snoc. Qed.

Lemma dedup_loop_fixed (jobs : list ScrapedJob) (seen : list str) :
  NoDup (map job_key jobs) ->
  (forall k, In k (map job_key jobs) -> ~ In k seen) ->
  dedup_loop jobs seen [] = jobs.
Proof.
  revert seen. induction jobs as [|j jobs IH]; intros seen Hnd Hseen; simpl.
  - reflexivity.
  - inversion Hnd as [|? ? Hj Hnd']; subst.
    destruct (mem (job_key j) seen) eqn:E.
    + apply mem_In in E. exfalso. apply (Hseen (job_key j)); [now left|exact E].
    + rewrite dedup_loop_acc. simpl. f_equal. apply IH; [exact Hnd'|].
      intros k Hk [<-|Hin]; [contradiction|].
      apply (Hseen k); [now right|exact Hin].
Qed.

(** X3.  A batch whose keys are already distinct passes through
    [deduplicate] unchanged; so deduplicating twice is deduplicating
    once. *)
Theorem deduplicate_idempotent (jobs : list ScrapedJob) :
  (NoDup (map job_key jobs) -> deduplicate jobs = jobs) /\
  deduplicate (deduplicate jobs) = deduplicate jobs.
Proof.
  assert (H : forall l, NoDup (map job_key l) -> deduplicate l = l).
  { intros l Hl. apply dedup_loop_fixed; [exact Hl|]. intros k _ []. }
  split; [apply H|]. apply H. apply (dedup_loop_distinct jobs []).
Qed.

Lemma deduplicate_idempotent_witness :
  let job t :=
    mkScrapedJob t (lit "Acme") 1 (lit "Remote") [] [] (lit "mid")
                 (PStr (lit "https://acme.test/jobs")) in
  let jobs := [job (lit "Backend Engineer"); job (lit "Data Engineer")] in
  NoDup (map job_key jobs) /\ deduplicate jobs = jobs.
Proof.
  intros job jobs.
  assert (Hnd : NoDup (map job_key jobs)).
  { repeat constructor; simpl; intuition discriminate. }
  split; [exact Hnd|].
  exact (proj1 (deduplicate_idempotent jobs) Hnd).
Defined.

(** ** Identity keys *)

Lemma normalize_chars (s : str) (c : ascii) :
  In c (normalize s) -> is_word c || is_space c = true.
Proof.
  intros H. unfold normalize in H. apply strip_incl in H.
  apply filter_In in H. tauto.
Qed.

Lemma normalize_no_pipe (s : str) : ~ In "|"%char (normalize s).
Proof. intros H. apply normalize_chars in H. discriminate. Qed.

Lemma split_at_unique {A} (x : A) (a a' r r' : list A) :
  ~ In x a -> ~ In x a' -> a ++ x :: r = a' ++ x :: r' -> a = a' /\ r = r'.
Proof.
  revert a'. induction a as [|y a IH]; intros [|y' a'] Ha Ha' E; simpl in *.
  - injection E as ->. auto.
  - injection E as ->. tauto.
  - injection E as ->. tauto.
  - injection E as -> E. destruct (IH a') as [-> ->]; auto.
Qed.

(** X4.  Two jobs have the same identity key exactly when their
    normalized titles, companies and locations are the same: the separator
    cannot occur inside a normalized field, so the three fields can be read
    back from the key. *)
Theorem job_key_injective (j1 j2 : ScrapedJob) :
  job_key j1 = job_key j2 <->
  normalize (title j1) = normalize (title j2) /\
  normalize (company j1) = normalize (company j2) /\
  normalize (location j1) = normalize (location j2).
Proof.
  unfold job_key, join3. split.
  - intros E. simpl in E.
    apply split_at_unique in E as [Et E]; try apply normalize_no_pipe.
    apply split_at_unique in E as [Ec El]; try apply normalize_no_pipe.
    auto.
  - intros (-> & -> & ->). reflexivity.
Qed.

Lemma lower_char_idem (c : ascii) : lower_char (lower_char c) = lower_char c.
Proof.
  destruct c as [[] [] [] [] [] [] [] []]; vm_compute; reflexivity.
Qed.

Lemma map_fixed {A} (f : A -> A) (l : list A) :
  (forall x, In x l -> f x = x) -> map f l = l.
Proof.
  induction l as [|x l IH]; simpl; intros H; [reflexivity|].
  rewrite H by now left. f_equal. apply IH. intros y Hy. apply H. now right.
Qed.

Lemma filter_all {A} (p : A -> bool) (l : list A) :
  (forall x, In x l -> p x = true) -> filter p l = l.
Proof.
  induction l as [|x l IH]; simpl; intros H; [reflexivity|].
  rewrite H by now left. f_equal. apply IH. intros y Hy. apply H. now right.
Qed.

(** X5.  [normalize] is idempotent: a normalized string is its own
    normalization. *)
Theorem normalize_idempotent (s : str) :
  normalize (normalize s) = normalize s.
Proof.
  unfold normalize at 1. unfold lower.
  rewrite map_fixed.
  - rewrite filter_all; [|apply normalize_chars].
    unfold normalize. apply strip_idem.
  - intros c Hc. unfold normalize in Hc. apply strip_incl in Hc.
    apply filter_In in Hc as [Hc _]. unfold lower in Hc.
    apply in_map_iff in Hc as (c0 & <- & _). apply lower_char_idem.
Qed.

(** ** Requirements *)

Lemma split_from_no_sep (sep : ascii) (cur s p : str) :
  ~ In sep cur -> In p (split_from sep cur s) -> ~ In sep p.
Proof.
  revert cur. induction s as [|c s IH]; intros cur Hcur Hp; simpl in Hp.
  - destruct Hp as [<-|[]]. intros H. apply in_rev in H. contradiction.
  - destruct (Ascii.eqb c sep) eqn:E.
    + destruct Hp as [<-|Hp].
      * intros H. apply in_rev in H. contradiction.
      * apply (IH []); [intros []|exact Hp].
    + apply (IH (c :: cur)); [|exact Hp].
      intros [->|H]; [|contradiction]. now rewrite Ascii.eqb_refl in E.
Qed.

Lemma firstn_incl {A} (k : nat) (l : list A) (x : A) :
  In x (firstn k l) -> In x l.
Proof.
  revert k. induction l as [|y l IH]; intros [|k]; simpl; try tauto.
  intros [->|H]; [now left|right; now apply (IH k)].
Qed.

(** X6.  [_parse_requirements] returns at most ten items, each trimmed,
    between 1 and 199 characters long and free of line breaks; it returns
    no item for a text that is false in a condition, and raises only for a
    true value that is not a string. *)
Theorem parse_requirements_bounds (text : pyval) :
  match _parse_requirements text with
  | Ok reqs =>
      List.length reqs <= 10 /\
      Forall (fun p => 0 < List.length p < 200 /\ strip p = p /\
                       ~ In "010"%char p) reqs /\
      (truthy text = false -> reqs = [])
  | Raise _ => truthy text = true /\ forall s, text <> PStr s
  end.
Proof.
  unfold _parse_requirements. destruct (truthy text) eqn:Ht; cbn [negb].
  - destruct text as [| | |s| |]; cbn [as_str Scraper.bind];
      try (split; [reflexivity|congruence]).
    split; [apply firstn_le_length|]. split; [|discriminate].
    apply Forall_forall. intros p Hp. apply firstn_incl in Hp.
    apply filter_In in Hp as [Hin Hlen].
    apply andb_true_iff in Hlen as [H0 H200].
    apply Nat.ltb_lt in H0. apply Nat.ltb_lt in H200.
    apply in_map_iff in Hin as (q & <- & Hq).
    split; [lia|]. split; [apply strip_idem|].
    intros Hnl. apply strip_incl in Hnl.
    revert Hnl. apply (split_from_no_sep "010"%char [] s q); [intros []|].
    exact Hq.
  - split; [simpl; lia|]. split; [constructor|reflexivity].
Qed.

(** ** Experience level *)

Lemma mapping_lookup_value (mapping : list (str * str)) (text v : str) :
  mapping_lookup mapping text = Some v -> In v (map snd mapping).
Proof.
  induction mapping as [|[k0 v0] mapping IH]; simpl; [discriminate|].
  destruct (contains k0 text).
  - intros E. injection E as ->. now left.
  - intros E. right. now apply IH.
Qed.

(** X7.  The level [_determine_level] returns is a value of the mapping or
    one of entry, senior, lead, mid; with the default mapping it is always
    one of these four. *)
Theorem determine_level_range (title desc : str) (mapping : list (str * str)) :
  let four := map lit ["entry"; "senior"; "lead"; "mid"] in
  In (_determine_level title desc mapping) (map snd mapping ++ four) /\
  In (_determine_level title desc default_experienceLevelMapping) four.
Proof.
  intros four.
  assert (H : forall m,
             In (_determine_level title desc m) (map snd m ++ four)).
  { intros m. unfold _determine_level.
    destruct (mapping_lookup m _) as [v|] eqn:E.
    - apply in_or_app. left. exact (mapping_lookup_value m _ v E).
    - apply in_or_app. right.
      destruct (any_in _ _); [simpl; tauto|].
      destruct (any_in _ _); [simpl; tauto|].
      destruct (any_in _ _); simpl; tauto. }
  split; [apply H|].
  specialize (H default_experienceLevelMapping).
  apply in_app_or in H as [H|H]; [|exact H].
  simpl in H. simpl.
  repeat (destruct H as [<-|H]; [tauto|]). destruct H.
Qed.

(** ** The scrape adapter *)

Lemma parse_requirements_short (text : pyval) (reqs : list str) :
  _parse_requirements text = Ok reqs -> List.length reqs <= 10.
Proof.
  unfold _parse_requirements. destruct (negb (truthy text)).
  - intros E. injection E as <-. simpl. lia.
  - destruct text; cbn [as_str Scraper.bind]; try discriminate.
    intros E.
    apply (f_equal (fun o => match o with
                             | Ok l => List.length l
                             | Raise _ => 0
                             end)) in E.
    cbv beta iota in E. rewrite <- E. apply firstn_le_length.
Qed.

Lemma is_str_iff (v : pyval) (s : str) : is_str v s = true <-> v = PStr s.
Proof.
  destruct v; simpl; try (split; [discriminate|discriminate]).
  rewrite eqb_eq. split; [now intros ->|now intros [= ->]].
Qed.

Lemma payload_dict_is (c : Company) (d : list (str * pyval)) :
  payload_is c d -> payload_dict c = Ok d.
Proof.
  unfold payload_is, payload_dict, py_or.
  intros [E|[E ->]]; rewrite E; [|reflexivity].
  now destruct d.
Qed.

Section ScrapeAdapter.

Variable repr_container : pyval -> str.

(** The mode [scrape_company] takes. *)
Lemma scrape_company_api (net : Internet) (c : Company)
  (d : list (str * pyval)) (x : ascii) (url : str) :
  payload_is c d ->
  c_careers_url c = Some (x :: url) ->
  api_mode d (x :: url) ->
  scrape_company repr_container net c =
  Ok (match _scrape_api repr_container net c with
      | Ok jobs => jobs
      | Raise _ => []
      end).
Proof.
  intros Hd Hu Hm. unfold scrape_company.
  rewrite (payload_dict_is c d Hd). cbn [Scraper.bind]. cbv zeta.
  rewrite Hu. cbn [of_opt truthy andb].
  assert (Ht : is_str
                 (py_or (dict_get d (lit "type"))
                    (if any_in (map lit ["/api/"; ".json"]) (x :: url)
                     then PStr (lit "api") else PStr (lit "webpage")))
                 (lit "api") = true).
  { apply is_str_iff. unfold py_or. destruct Hm as [E|[E Ho]].
    - now rewrite E.
    - rewrite E.
      assert (Ha : any_in (map lit ["/api/"; ".json"]) (x :: url) = true).
      { apply any_in_occurs. destruct Ho as [Ho|Ho].
        - exists (lit "/api/"). split; [now left|exact Ho].
        - exists (lit ".json"). split; [right; now left|exact Ho]. }
      now rewrite Ha. }
  rewrite Ht. now destruct (_scrape_api repr_container net c).
Qed.

Lemma scrape_company_page (net : Internet) (c : Company)
  (d : list (str * pyval)) (x : ascii) (url : str) :
  payload_is c d ->
  c_careers_url c = Some (x :: url) ->
  page_mode d (x :: url) ->
  scrape_company repr_container net c =
  Ok (match _scrape_web net c with
      | Ok jobs => jobs
      | Raise _ => []
      end).
Proof.
  intros Hd Hu Hm. unfold scrape_company.
  rewrite (payload_dict_is c d Hd). cbn [Scraper.bind]. cbv zeta.
  rewrite Hu. cbn [of_opt truthy andb].
  assert (Ht : is_str
                 (py_or (dict_get d (lit "type"))
                    (if any_in (map lit ["/api/"; ".json"]) (x :: url)
                     then PStr (lit "api") else PStr (lit "webpage")))
                 (lit "api") = false).
  { destruct (is_str _ _) eqn:E; [|reflexivity]. exfalso.
    apply is_str_iff in E. unfold py_or in E.
    destruct Hm as [[Ht Hne]|[Ht [H1 H2]]]; rewrite Ht in E.
    - contradiction.
    - destruct (any_in _ _) eqn:Ha; [|discriminate].
      apply any_in_occurs in Ha as (k & [<-|[<-|[]]] & Ho); contradiction. }
  rewrite Ht. now destruct (_scrape_web net c).
Qed.

Lemma parse_items_all (P : ScrapedJob -> Prop) (arr : list pyval)
  (company : Company) (acc jobs : list ScrapedJob) :
  (forall item job,
      _parse_api_job repr_container item company = Ok (Some job) -> P job) ->
  Forall P acc ->
  parse_items repr_container arr company acc = Ok jobs ->
  Forall P jobs.
Proof.
  intros HP. revert acc. induction arr as [|item arr IH]; intros acc Hacc H.
  - simpl in H. injection H as <-. exact Hacc.
  - simpl in H.
    destruct (_parse_api_job repr_container item company) as [[job|]|] eqn:E;
      simpl in H; try discriminate.
    + apply (IH (acc ++ [job])); [|exact H].
      apply Forall_app. split; [exact Hacc|].
      constructor; [|constructor]. now apply (HP item).
    + now apply (IH acc).
Qed.

Lemma parse_elements_all (P : ScrapedJob -> Prop)
  (selectors mapping : list (str * str)) (company : Company)
  (elements : list Element) (acc : list ScrapedJob) :
  (forall el job,
      parse_element selectors mapping company el = Ok (Some job) -> P job) ->
  Forall P acc ->
  Forall P (parse_elements selectors mapping company elements acc).
Proof.
  intros HP. revert acc. induction elements as [|el els IH]; intros acc Hacc.
  - exact Hacc.
  - simpl.
    destruct (parse_element selectors mapping company el) as [[job|]|] eqn:E.
    + apply IH. apply Forall_app. split; [exact Hacc|].
      constructor; [|constructor]. now apply (HP el).
    + now apply IH.
    + now apply IH.
Qed.

(** What holds of every job either mode builds holds of every job
    [scrape_company] returns. *)
Lemma scrape_company_all (P : ScrapedJob -> Prop) (net : Internet)
  (company : Company) (jobs : list ScrapedJob) :
  (forall item job,
      _parse_api_job repr_container item company = Ok (Some job) -> P job) ->
  (forall selectors mapping el job,
      parse_element selectors mapping company el = Ok (Some job) -> P job) ->
  scrape_company repr_container net company = Ok jobs ->
  Forall P jobs.
Proof.
  intros Hapi Hweb Hs. unfold scrape_company in Hs.
  apply bind_Ok_inv in Hs as (payload & _ & Hs). cbv zeta in Hs.
  match type of Hs with
  | match ?a with _ => _ end = _ => destruct a as [found|e] eqn:E
  end; injection Hs as <-; [|constructor].
  destruct (is_str _ _ && _).
  - unfold _scrape_api in E.
    destruct (c_careers_url company); [|discriminate].
    destruct (http_get net s); simpl in E; [|discriminate].
    exact (parse_items_all P _ company [] found Hapi (Forall_nil _) E).
  - destruct (truthy (of_opt (c_careers_url company)));
      [|injection E as <-; constructor].
    unfold _scrape_web in E. cbv zeta in E.
    apply bind_Ok_inv in E as ([] & _ & E).
    apply bind_Ok_inv in E as ([[listing selectors] mapping] & _ & E).
    apply bind_Ok_inv in E as ([] & _ & E).
    injection E as <-.
    destruct (pv_elements _ _); [|constructor].
    apply parse_elements_all; [apply Hweb|constructor].
Qed.

(** X8.  Every job [scrape_company] returns carries the name and the
    identifier of the company it was asked for, trimmed title, location
    and description, and at most ten requirements. *)
Theorem scraped_jobs_belong_to_company (net : Internet) (c : Company)
  (jobs : list ScrapedJob) (job : ScrapedJob) :
  scrape_company repr_container net c = Ok jobs ->
  In job jobs ->
  company job = c_name c /\ company_id job = c_id c /\
  strip (title job) = title job /\ strip (location job) = location job /\
  strip (description job) = description job /\
  List.length (requirements job) <= 10.
Proof.
  intros Hs. revert job. apply Forall_forall.
  apply (fun Ha Hw => scrape_company_all _ net c jobs Ha Hw Hs).
  - intros item job H. destruct item; try discriminate.
    unfold _parse_api_job in H. cbv zeta in H.
    destruct (negb _); [discriminate|].
    apply bind_Ok_inv in H as (reqs & Hr & H).
    apply bind_Ok_inv in H as (title_s & _ & H).
    apply bind_Ok_inv in H as (desc_s & _ & H).
    injection H as <-. cbn [company company_id title location description
                              requirements].
    rewrite !strip_idem.
    repeat split. now apply (parse_requirements_short _ _ Hr).
  - intros selectors mapping el job H. unfold parse_element in H.
    apply bind_Ok_inv in H as (sel_title & _ & H).
    destruct (is_empty _); [discriminate|].
    apply bind_Ok_inv in H as (sel_location & _ & H).
    apply bind_Ok_inv in H as (sel_description & _ & H).
    apply bind_Ok_inv in H as (sel_requirements & _ & H).
    apply bind_Ok_inv in H as (sel_application & _ & H).
    apply bind_Ok_inv in H as (reqs & Hr & H).
    injection H as <-. cbn [company company_id title location description
                              requirements].
    rewrite !strip_idem.
    repeat split. now apply (parse_requirements_short _ _ Hr).
Qed.

(** X10.  [scrape_company] raises exactly when the endpoint payload of the
    company is true in a condition and is not a dictionary: it then has no
    [get], and the [AttributeError] is raised before the [try].  With a
    payload that is a dictionary, or false, it returns, and returns no job
    for a company without a careers URL or with an empty one, for a company
    in API mode whose request fails, and for a company in page mode whose
    page cannot be opened or closed or whose scraping configuration is a
    text that is not empty; the mode is API when the payload says so or,
    the payload naming no type, when the URL holds /api/ or .json. *)
Theorem scrape_company_failures_give_nothing (net : Internet) (c : Company) :
  (truthy (c_careers_endpoint_payload c) = true ->
   (forall d, c_careers_endpoint_payload c <> PDict d) ->
   scrape_company repr_container net c = Raise attribute_error) /\
  (forall d,
      payload_is c d ->
      (exists jobs, scrape_company repr_container net c = Ok jobs) /\
      (truthy (of_opt (c_careers_url c)) = false ->
       scrape_company repr_container net c = Ok []) /\
      (forall url e,
          c_careers_url c = Some url -> api_mode d url ->
          http_get net url = Raise e ->
          scrape_company repr_container net c = Ok []) /\
      (forall url e,
          c_careers_url c = Some url -> page_mode d url ->
          pv_open (visit net url) = Raise e \/
          pv_close (visit net url) = Raise e \/
          (exists x text, c_scraping_config c = ConfigText (x :: text)) ->
          scrape_company repr_container net c = Ok [])).
Proof.
  split.
  - intros Ht Hnd. unfold scrape_company, payload_dict, py_or. rewrite Ht.
    destruct (c_careers_endpoint_payload c); try reflexivity.
    now destruct (Hnd d).
  - intros d Hd.
    assert (Hnone : truthy (of_opt (c_careers_url c)) = false ->
                    scrape_company repr_container net c = Ok []).
    { intros H. unfold scrape_company.
      rewrite (payload_dict_is c d Hd). cbn [Scraper.bind]. cbv zeta.
      now rewrite H, andb_false_r. }
    split; [|split; [exact Hnone|split]].
    + unfold scrape_company.
      rewrite (payload_dict_is c d Hd). cbn [Scraper.bind]. cbv zeta.
      match goal with
      | |- exists _, match ?a with _ => _ end = _ => destruct a; eauto
      end.
    + intros url e Hu Hm Hg. destruct url as [|x url].
      { apply Hnone. now rewrite Hu. }
      rewrite (scrape_company_api net c d x url Hd Hu Hm).
      unfold _scrape_api. now rewrite Hu, Hg.
    + intros url e Hu Hm Hv. destruct url as [|x url].
      { apply Hnone. now rewrite Hu. }
      rewrite (scrape_company_page net c d x url Hd Hu Hm).
      unfold _scrape_web. rewrite Hu. cbv zeta.
      destruct Hv as [Ho|[Hc|(y & text & Hcfg)]].
      * now rewrite Ho.
      * rewrite Hc. destruct (pv_open _); [|reflexivity].
        cbn [Scraper.bind].
        destruct (merged_config c) as [[[listing selectors] mapping]|];
          reflexivity.
      * destruct (pv_open _); [|reflexivity]. cbn [Scraper.bind].
        unfold merged_config. now rewrite Hcfg.
Qed.

End ScrapeAdapter.

Lemma scraped_jobs_belong_to_company_witness :
  let url := lit "https://acme.test/api/jobs.json" in
  let c := mkCompany 7 (lit "Acme") None (Some url) (PDict [])
              (ConfigDict DEFAULT_SCRAPING_CONFIG) in
  let body :=
    PDict [(lit "jobs", PList [PDict [(lit "title", PStr " Engineer ")]])] in
  let net :=
    mkInternet (fun _ => Ok body)
               (fun _ => mkPageVisit (Ok tt) (fun _ => Ok []) (Ok tt)) in
  let job :=
    mkScrapedJob (lit "Engineer") (lit "Acme") 7 (lit "Remote") [] []
                 (lit "mid") (PStr url) in
  scrape_company (fun _ => []) net c = Ok [job] /\
  company job = c_name c /\ company_id job = c_id c.
Proof.
  intros url c body net job.
  assert (Hs : scrape_company (fun _ => []) net c = Ok [job])
    by (vm_compute; reflexivity).
  split; [exact Hs|].
  destruct (scraped_jobs_belong_to_company (fun _ => []) net c [job] job Hs
              (or_introl eq_refl)) as (H1 & H2 & _).
  split; [exact H1|exact H2].
Defined.

Lemma scraped_url_never_null_witness :
  let url := lit "https://acme.test/api/jobs.json" in
  let c := mkCompany 7 (lit "Acme") None (Some url) (PDict [])
              (ConfigDict DEFAULT_SCRAPING_CONFIG) in
  let body :=
    PDict [(lit "jobs", PList [PDict [(lit "title", PStr "Engineer")]])] in
  let net :=
    mkInternet (fun _ => Ok body)
               (fun _ => mkPageVisit (Ok tt) (fun _ => Ok []) (Ok tt)) in
  let job :=
    mkScrapedJob (lit "Engineer") (lit "Acme") 7 (lit "Remote") [] []
                 (lit "mid") (PStr url) in
  scrape_company (fun _ => []) net c = Ok [job] /\
  application_url job <> PNone.
Proof.
  intros url c body net job.
  assert (Hs : scrape_company (fun _ => []) net c = Ok [job])
    by (vm_compute; reflexivity).
  split; [exact Hs|].
  exact (proj2 (scraped_url_never_null (fun _ => []) net c [job] job Hs
                  (or_introl eq_refl))).
Defined.

Lemma scrape_company_failures_give_nothing_witness :
  let url := lit "https://acme.test/careers" in
  let c := mkCompany 7 (lit "Acme") None (Some url) (PStr (lit "{}"))
              (ConfigDict DEFAULT_SCRAPING_CONFIG) in
  let net :=
    mkInternet (fun _ => Ok PNone)
               (fun _ => mkPageVisit (Ok tt) (fun _ => Ok []) (Ok tt)) in
  scrape_company (fun _ => []) net c = Raise attribute_error.
Proof.
  intros url c net.
  apply (scrape_company_failures_give_nothing (fun _ => []) net c);
    [reflexivity|discriminate].
Defined.

Section ScrapeModes.

Variable repr_container : pyval -> str.

Lemma parse_items_not_dict (arr : list pyval) (company : Company)
  (acc : list ScrapedJob) (item : pyval) :
  In item arr -> (forall d, item <> PDict d) ->
  exists e, parse_items repr_container arr company acc = Raise e.
Proof.
  intros Hin Hnd. revert acc. induction arr as [|x arr IH]; intros acc;
    [destruct Hin|].
  simpl. destruct Hin as [->|Hin].
  - destruct item; try (eexists; reflexivity). now destruct (Hnd d).
  - destruct (_parse_api_job repr_container x company) as [[job|]|e]; simpl.
    + now apply IH.
    + now apply IH.
    + now exists e.
Qed.

(** X11.  In API mode one item of the job array that is not a JSON object
    costs the company its whole batch: nothing is returned, whatever the
    other items hold. *)
Theorem api_batch_is_all_or_nothing (net : Internet) (c : Company)
  (payload : list (str * pyval)) (url : str) (data item : pyval) :
  c_careers_url c = Some url ->
  url <> [] ->
  c_careers_endpoint_payload c = PDict payload ->
  dict_get payload (lit "type") = PStr "api" ->
  http_get net url = Ok data ->
  In item (_extract_jobs_array data) ->
  (forall d, item <> PDict d) ->
  scrape_company repr_container net c = Ok [].
Proof.
  intros Hu Hne Hp Ht Hg Hin Hnd.
  destruct url as [|x url]; [congruence|].
  rewrite (scrape_company_api repr_container net c payload x url
             (or_introl Hp) Hu (or_introl Ht)).
  unfold _scrape_api. rewrite Hu, Hg. cbn [Scraper.bind].
  destruct (parse_items_not_dict _ c [] item Hin Hnd) as [e ->].
  reflexivity.
Qed.

(** X12.  In page mode the elements are read one by one, in order: an
    element that yields a job adds it after those of the elements before
    it, and an element without a title, or one whose reading raises, is
    passed over without effect on the others. *)
Theorem page_elements_read_in_order (selectors mapping : list (str * str))
  (c : Company) (elements : list Element) (el : Element)
  (acc : list ScrapedJob) :
  parse_elements selectors mapping c (elements ++ [el]) acc =
  match parse_element selectors mapping c el with
  | Ok (Some job) => parse_elements selectors mapping c elements acc ++ [job]
  | _ => parse_elements selectors mapping c elements acc
  end.
Proof.
  revert acc. induction elements as [|x els IH]; intros acc; simpl.
  - now destruct (parse_element selectors mapping c el) as [[job|]|].
  - destruct (parse_element selectors mapping c x) as [[job|]|]; apply IH.
Qed.

(** X13.  The endpoint payload [detect_endpoint] computes for a careers URL
    decides the mode of the scrape: API mode exactly when the URL holds
    one of the markers /api/, .json, /v1/, /v2/, and page mode otherwise,
    whatever the inference of [scrape_company] itself would say. *)
Theorem detect_endpoint_drives_mode (net : Internet) (c : Company)
  (url : str) :
  c_careers_url c = Some url ->
  url <> [] ->
  c_careers_endpoint_payload c = PDict (detect_endpoint url) ->
  scrape_company repr_container net c =
  Ok match
       (if any_in (map lit ["/api/"; ".json"; "/v1/"; "/v2/"]) url
        then _scrape_api repr_container net c
        else _scrape_web net c)
     with
     | Ok jobs => jobs
     | Raise _ => []
     end.
Proof.
  intros Hu Hne Hp. destruct url as [|x url]; [congruence|].
  unfold detect_endpoint in Hp.
  destruct (any_in (map lit ["/api/"; ".json"; "/v1/"; "/v2/"]) (x :: url)).
  - apply (scrape_company_api repr_container net c _ x url (or_introl Hp) Hu).
    now left.
  - apply (scrape_company_page repr_container net c _ x url (or_introl Hp)
             Hu).
    left. split; [reflexivity|discriminate].
Qed.

End ScrapeModes.

Lemma api_batch_is_all_or_nothing_witness :
  let url := lit "https://acme.test/jobs" in
  let c :=
    mkCompany 7 (lit "Acme") None (Some url)
              (PDict [(lit "type", PStr "api")])
              (ConfigDict DEFAULT_SCRAPING_CONFIG) in
  let data :=
    PList [PDict [(lit "title", PStr "Engineer")]; PStr "see the website"] in
  let net :=
    mkInternet (fun _ => Ok data)
               (fun _ => mkPageVisit (Ok tt) (fun _ => Ok []) (Ok tt)) in
  In (PStr "see the website") (_extract_jobs_array data) /\
  scrape_company (fun _ => []) net c = Ok [].
Proof.
  intros url c data net.
  assert (Hin : In (PStr "see the website") (_extract_jobs_array data))
    by (right; now left).
  split; [exact Hin|].
  apply (api_batch_is_all_or_nothing (fun _ => []) net c
           [(lit "type", PStr "api")] url data (PStr "see the website"));
    try reflexivity; try exact Hin; discriminate.
Defined.

Lemma detect_endpoint_drives_mode_witness :
  let url := lit "https://acme.test/v1/openings" in
  let c :=
    mkCompany 7 (lit "Acme") None (Some url) (PDict (detect_endpoint url))
              (ConfigDict DEFAULT_SCRAPING_CONFIG) in
  let data := PList [PDict [(lit "title", PStr "Engineer")]] in
  let net :=
    mkInternet (fun _ => Ok data)
               (fun _ => mkPageVisit (Ok tt) (fun _ => Ok []) (Ok tt)) in
  outcome_map (map title) (scrape_company (fun _ => []) net c)
  = Ok [lit "Engineer"].
Proof.
  intros url c data net.
  rewrite (detect_endpoint_drives_mode (fun _ => []) net c url eq_refl
             ltac:(discriminate) eq_refl).
  reflexivity.
Defined.

Lemma first_list_under_first (d : list (str * pyval)) (pre post : list str)
  (key : str) (items : list pyval) :
  dict_has d key = true ->
  dict_get d key = PList items ->
  (forall k, In k pre -> dict_has d k = false \/ is_list (dict_get d k) = false) ->
  first_list_under d (pre ++ key :: post) = Some items.
Proof.
  intros Hh Hg Hpre. induction pre as [|k pre IH]; simpl.
  - now rewrite Hh, Hg.
  - destruct (Hpre k (or_introl eq_refl)) as [H|H].
    + rewrite H. apply IH. intros k' Hk'. apply Hpre. now right.
    + destruct (dict_has d k).
      * destruct (dict_get d k); try discriminate;
          apply IH; intros k' Hk'; apply Hpre; now right.
      * apply IH. intros k' Hk'. apply Hpre. now right.
Qed.

Lemma first_list_under_none (d : list (str * pyval)) (keys : list str) :
  (forall k, In k keys -> dict_has d k = false \/ is_list (dict_get d k) = false) ->
  first_list_under d keys = None.
Proof.
  induction keys as [|k keys IH]; simpl; intros H; [reflexivity|].
  destruct (H k (or_introl eq_refl)) as [E|E].
  - rewrite E. apply IH. intros k' Hk'. apply H. now right.
  - destruct (dict_has d k).
    + destruct (dict_get d k); try discriminate;
        apply IH; intros k' Hk'; apply H; now right.
    + apply IH. intros k' Hk'. apply H. now right.
Qed.

(** X14.  [_extract_jobs_array] returns a bare array as it is; from an
    object it returns the array under the first of the keys jobs, data,
    results, positions, openings that holds an array, passing over keys
    that are absent or hold something else; it returns the empty list when
    no key does, and for every other value. *)
Theorem extract_jobs_array_priority (d : list (str * pyval)) :
  let keys := map lit ["jobs"; "data"; "results"; "positions"; "openings"] in
  let no_list k := dict_has d k = false \/ is_list (dict_get d k) = false in
  (forall l, _extract_jobs_array (PList l) = l) /\
  (forall pre key post items,
      keys = pre ++ key :: post ->
      dict_has d key = true ->
      dict_get d key = PList items ->
      (forall k, In k pre -> no_list k) ->
      _extract_jobs_array (PDict d) = items) /\
  ((forall k, In k keys -> no_list k) -> _extract_jobs_array (PDict d) = []) /\
  _extract_jobs_array PNone = [] /\
  (forall b, _extract_jobs_array (PBool b) = []) /\
  (forall n, _extract_jobs_array (PInt n) = []) /\
  (forall s, _extract_jobs_array (PStr s) = []).
Proof.
  intros keys no_list. split; [reflexivity|]. split; [|split].
  - intros pre key post items Hk Hh Hg Hpre. unfold _extract_jobs_array.
    fold keys. rewrite Hk.
    now rewrite (first_list_under_first d pre post key items Hh Hg Hpre).
  - intros H. unfold _extract_jobs_array. fold keys.
    now rewrite (first_list_under_none d keys H).
  - repeat split.
Qed.

(** ** Batches of jobs *)

Lemma save_each_data_error (good : list ScrapedJob) (bad : ScrapedJob)
  (rest : list ScrapedJob) (w : World) :
  plan w = [] ->
  Forall (fun j => exists u, application_url j = PStr u) good ->
  (forall u, application_url bad <> PStr u) ->
  exists w',
    save_each (good ++ bad :: rest) w = (Raise data_error, w') /\
    jobs_inserted (metrics w') + jobs_updated (metrics w')
    = jobs_inserted (metrics w) + jobs_updated (metrics w) + List.length good.
Proof.
  intros Hp Hgood Hbad. revert w Hp.
  induction Hgood as [|j good [u Hu] _ IH]; intros w Hp.
  - eexists. cbn [app save_each].
    destruct (application_url bad) as [| | |u| |];
      try (rewrite refused_ok by exact Hp; split; [reflexivity|simpl; lia]).
    now destruct (Hbad u).
  - cbn [app save_each]. rewrite Hu. unfold Pipeline.bind at 1.
    rewrite stmt_ok by exact Hp.
    unfold Pipeline.bind at 1. unfold modify_metrics.
    match goal with
    | |- context [save_each _ ?w1] => destruct (IH w1 eq_refl) as (w' & E & Hm)
    end.
    exists w'. split; [exact E|]. rewrite Hm.
    destruct (fst (upsert_job j u (db w))); simpl; lia.
Qed.

(** X15.  A batch is written in one transaction, but counted job by job:
    when a job of the batch carries an apply URL that is not a string,
    [save_jobs] raises and the store is left as it was before the batch,
    while [jobs_inserted] and [jobs_updated] keep the counts of the jobs
    upserted before the failure. *)
Theorem failed_batch_is_undone_but_counted (good : list ScrapedJob)
  (bad : ScrapedJob) (rest : list ScrapedJob) (w : World) :
  plan w = [] ->
  Forall (fun j => exists u, application_url j = PStr u) good ->
  (forall u, application_url bad <> PStr u) ->
  let '(r, w') := save_jobs (good ++ bad :: rest) w in
  r = Raise data_error /\
  db w' = db w /\
  jobs_inserted (metrics w') + jobs_updated (metrics w')
  = jobs_inserted (metrics w) + jobs_updated (metrics w) + List.length good.
Proof.
  intros Hp Hgood Hbad.
  destruct (save_each_data_error good bad rest w Hp Hgood Hbad)
    as (w' & E & Hm).
  unfold save_jobs. destruct (good ++ bad :: rest) as [|j js] eqn:El.
  - destruct good; discriminate.
  - unfold transaction. rewrite E. auto.
Qed.

Lemma failed_batch_is_undone_but_counted_witness :
  let job url :=
    mkScrapedJob (lit "Engineer") (lit "Acme") 7 (lit "Remote") [] []
                 (lit "mid") url in
  let good := [job (PStr (lit "https://acme.test/jobs/1"))] in
  let w := mkWorld (mkDB [] [] [] 0) new_metrics [] 0 in
  let w' := snd (save_jobs (good ++ [job (PInt 5)]) w) in
  jobs (db w') = [] /\ jobs_inserted (metrics w') + jobs_updated (metrics w') = 1.
Proof.
  intros job good w w'.
  pose proof (failed_batch_is_undone_but_counted good (job (PInt 5)) [] w
                eq_refl) as H.
  assert (Hg : Forall (fun j => exists u, application_url j = PStr u) good).
  { repeat constructor. now exists (lit "https://acme.test/jobs/1"). }
  specialize (H Hg ltac:(discriminate)).
  subst w'. destruct (save_jobs (good ++ [job (PInt 5)]) w) as [r w'].
  destruct H as (_ & Hd & Hm). cbn [snd]. rewrite Hd, Hm. split; reflexivity.
Defined.

(** ** Batches of companies *)

Lemma company_kept_refl (l : list CompanyRow) : Forall2 company_kept l l.
Proof.
  induction l as [|r l IH]; constructor; [|exact IH].
  unfold company_kept. auto.
Qed.

Lemma companies_extend_refl (l : list CompanyRow) : companies_extend l l.
Proof.
  exists l, []. rewrite app_nil_r.
  split; [reflexivity|]. split; [apply company_kept_refl|constructor].
Qed.

Lemma company_kept_trans (l1 l2 l3 : list CompanyRow) :
  Forall2 company_kept l1 l2 -> Forall2 company_kept l2 l3 ->
  Forall2 company_kept l1 l3.
Proof.
  intros H. revert l3. induction H as [|a b l1 l2 Hab _ IH]; intros l3 H3.
  - inversion H3. constructor.
  - inversion H3 as [|b' c l2' l3' Hbc H3']; subst. constructor; [|now apply IH].
    unfold company_kept in *. intuition congruence.
Qed.

Lemma companies_extend_trans (l1 l2 l3 : list CompanyRow) :
  companies_extend l1 l2 -> companies_extend l2 l3 -> companies_extend l1 l3.
Proof.
  intros (u1 & a1 & -> & H1 & A1) (u2 & a2 & -> & H2 & A2).
  apply Forall2_app_inv_l in H2 as (u2a & u2b & Ha & Hb & ->).
  exists u2a, (u2b ++ a2). split; [now rewrite app_assoc|].
  split; [now apply (company_kept_trans _ u1)|].
  apply Forall_app. split; [|exact A2].
  clear - A1 Hb. induction Hb as [|a b l l' Hab _ IH]; [constructor|].
  inversion A1; subst. constructor; [|now apply IH].
  destruct Hab as (_ & _ & Hact & _). congruence.
Qed.

Lemma upsert_company_extends (name : str) (domain careers_url : option str)
  (payload : option str) (source : str) (d : DB) :
  companies_extend (companies d)
    (companies (upsert_company name domain careers_url payload source d)).
Proof.
  unfold upsert_company. destruct (existsb _ (companies d)).
  - unfold set_companies. cbn [companies].
    exists (map (merge_company name domain careers_url payload) (companies d)), [].
    rewrite app_nil_r. split; [reflexivity|]. split; [|constructor].
    apply Forall2_map_self. intros r _. unfold merge_company, company_kept.
    destruct (PyStr.eqb (co_name r) name); simpl; auto.
  - cbn [companies].
    exists (companies d),
           [mkCompanyRow (next_id d) name domain careers_url payload None true
                         source].
    split; [reflexivity|]. split; [apply company_kept_refl|].
    repeat constructor.
Qed.

Lemma upsert_each_extends (l : list Candidate) (w : World) :
  companies_extend (companies (db w))
                   (companies (db (snd (upsert_each l w)))).
Proof.
  revert w. induction l as [|c l IH]; intros w; cbn [upsert_each].
  - apply companies_extend_refl.
  - cbv zeta. unfold Pipeline.bind.
    match goal with
    | |- context [execute ?a ?f w] =>
        pose proof (execute_db a f w) as Hd;
        destruct (execute a f w) as [[[]|e] w1]
    end; cbn [snd] in Hd |- *.
    + apply (companies_extend_trans _ (companies (db w1))); [|apply IH].
      destruct Hd as [-> | ->];
        [apply companies_extend_refl|apply upsert_company_extends].
    + destruct Hd as [-> | ->];
        [apply companies_extend_refl|apply upsert_company_extends].
Qed.

Lemma kept_image (old updated : list CompanyRow) (r : CompanyRow) :
  Forall2 company_kept old updated -> In r old ->
  exists r', In r' updated /\ company_kept r r'.
Proof.
  induction 1 as [|a b l l' Hab _ IH]; intros Hin; [destruct Hin|].
  destruct Hin as [<-|Hin].
  - exists b. split; [now left|exact Hab].
  - destruct (IH Hin) as (r' & Hr' & Hk). exists r'. split; [now right|exact Hk].
Qed.

Lemma kept_source (old updated : list CompanyRow) (r' : CompanyRow) :
  Forall2 company_kept old updated -> In r' updated ->
  exists r, In r old /\ company_kept r r'.
Proof.
  induction 1 as [|a b l l' Hab _ IH]; intros Hin; [destruct Hin|].
  destruct Hin as [<-|Hin].
  - exists a. split; [now left|exact Hab].
  - destruct (IH Hin) as (r & Hr & Hk). exists r. split; [now right|exact Hk].
Qed.

Lemma companies_extend_preserved (old new : list CompanyRow) :
  companies_extend old new -> companies_preserved old new.
Proof.
  intros (updated & added & -> & Hk & Ha). split; [|split].
  - intros r Hr. destruct (kept_image old updated r Hk Hr) as (r' & Hr' & H).
    exists r'. split; [apply in_or_app; now left|exact H].
  - intros r' Hr'. apply in_app_or in Hr' as [Hr'|Hr'].
    + left. now apply (kept_source old updated).
    + right. rewrite Forall_forall in Ha. now apply Ha.
  - rewrite length_app, <- (Forall2_length Hk). lia.
Qed.

(** X16.  Whatever the candidates and whatever the store does,
    [upsert_companies] loses no company: every stored company is still
    stored with its identifier, name, activity, scraping configuration and
    discovery source, and a company that was not stored before is active.
    In particular discovery never brings an inactive company back into the
    runs. *)
Theorem upsert_companies_keeps_rows (l : list Candidate) (w : World) :
  companies_preserved (companies (db w))
                      (companies (db (snd (upsert_companies l w)))).
Proof.
  apply companies_extend_preserved.
  unfold upsert_companies. destruct l as [|c l]; [apply companies_extend_refl|].
  unfold Pipeline.bind, transaction.
  pose proof (upsert_each_extends (c :: l) w) as H.
  destruct (upsert_each (c :: l) w) as [[[]|e] w1]; cbn [snd db] in *.
  - exact H.
  - apply companies_extend_refl.
Qed.

Lemma merged_company_names (name : str) (domain careers_url : option str)
  (payload : option str) (d : DB) :
  company_names
    (set_companies d
       (map (merge_company name domain careers_url payload) (companies d)))
  = company_names d.
Proof.
  unfold company_names, set_companies. cbn [companies]. rewrite map_map.
  apply map_ext. intros r. apply merge_company_name.
Qed.

Lemma upsert_each_ok (l : list Candidate) (w : World) :
  plan w = [] ->
  Forall (fun c => has_careers c = false) l ->
  NoDup (company_names (db w)) ->
  exists w',
    upsert_each l w = (Ok tt, w') /\ plan w' = [] /\
    NoDup (company_names (db w')) /\
    (forall n, In n (company_names (db w)) -> In n (company_names (db w'))) /\
    (forall c, In c l -> In (cand_name c) (company_names (db w'))) /\
    (forall n, In n (company_names (db w')) ->
               In n (company_names (db w)) \/ In n (map cand_name l)).
Proof.
  intros Hp Hl. revert w Hp.
  induction Hl as [|c l Hc _ IH]; intros w Hp Hnd.
  - exists w. cbn [upsert_each]. unfold ret. repeat split; auto. intros c [].
  - rewrite upsert_each_sent by exact Hc.
    unfold Pipeline.bind. rewrite stmt_ok by exact Hp. cbn [fst snd].
    set (d1 := upsert_company _ _ _ _ _ (db w)).
    assert (Hnd1 : NoDup (company_names d1)) by now apply upsert_company_unique.
    assert (Hold : forall n, In n (company_names (db w)) ->
                             In n (company_names d1)).
    { intros n Hn. subst d1.
      destruct (in_dec (list_eq_dec ascii_dec) (cand_name c)
                       (company_names (db w))) as [Hin|Hin].
      - rewrite upsert_company_present by exact Hin.
        now rewrite merged_company_names.
      - rewrite upsert_company_absent by exact Hin.
        unfold company_names. cbn [companies]. rewrite map_app.
        apply in_or_app. now left. }
    assert (Hnew : In (cand_name c) (company_names d1)).
    { subst d1.
      destruct (in_dec (list_eq_dec ascii_dec) (cand_name c)
                       (company_names (db w))) as [Hin|Hin].
      - now apply Hold.
      - rewrite upsert_company_absent by exact Hin.
        unfold company_names. cbn [companies]. rewrite map_app.
        apply in_or_app. right. now left. }
    assert (Hback : forall n, In n (company_names d1) ->
                              In n (company_names (db w)) \/ n = cand_name c).
    { intros n Hn. subst d1.
      destruct (in_dec (list_eq_dec ascii_dec) (cand_name c)
                       (company_names (db w))) as [Hin|Hin].
      - rewrite upsert_company_present in Hn by exact Hin.
        rewrite merged_company_names in Hn. now left.
      - rewrite upsert_company_absent in Hn by exact Hin.
        unfold company_names in Hn. cbn [companies] in Hn.
        rewrite map_app in Hn. apply in_app_or in Hn as [Hn|[<-|[]]]; auto. }
    destruct (IH (mkWorld d1 (metrics w) [] (S (now w))) eq_refl Hnd1)
      as (w' & E & Hp' & Hnd' & Hkeep & Hall & Hfrom).
    exists w'. split; [exact E|]. split; [exact Hp'|]. split; [exact Hnd'|].
    cbn [db] in *. split; [|split].
    + intros n Hn. apply Hkeep. now apply Hold.
    + intros c' [<-|Hc']; [now apply Hkeep|now apply Hall].
    + intros n Hn. destruct (Hfrom n Hn) as [H|H].
      * destruct (Hback n H) as [H'|H']; [now left|].
        subst n. right. now left.
      * right. now right.
Qed.

(** X17.  When no candidate has a careers URL and the store executes its
    statements, [upsert_companies] returns the number of candidates, and
    afterwards the names of the companies are still distinct and are those
    stored before together with those of the candidates. *)
Theorem upsert_companies_stores_all (l : list Candidate) (w : World) :
  plan w = [] ->
  Forall (fun c => has_careers c = false) l ->
  NoDup (company_names (db w)) ->
  let '(r, w') := upsert_companies l w in
  r = Ok (List.length l) /\
  NoDup (company_names (db w')) /\
  forall n, In n (company_names (db w')) <->
            In n (company_names (db w)) \/ In n (map cand_name l).
Proof.
  intros Hp Hl Hnd. unfold upsert_companies. destruct l as [|c l].
  - unfold ret. split; [reflexivity|]. split; [exact Hnd|].
    intros n. simpl. tauto.
  - destruct (upsert_each_ok (c :: l) w Hp Hl Hnd)
      as (w' & E & _ & Hnd' & Hkeep & Hall & Hfrom).
    unfold Pipeline.bind, transaction. rewrite E. unfold ret.
    split; [reflexivity|]. split; [exact Hnd'|].
    intros n. split; [apply Hfrom|].
    intros [H|H]; [now apply Hkeep|].
    apply in_map_iff in H as (c' & <- & Hc'). now apply Hall.
Qed.

Lemma upsert_companies_stores_all_witness :
  let c1 := mkCandidate (lit "Acme") (Some (lit "acme.test")) None None in
  let c2 := mkCandidate (lit "Globex") None (Some []) None in
  let w := mkWorld (mkDB [] [] [] 0) new_metrics [] 0 in
  NoDup (company_names (db w)) /\
  fst (upsert_companies [c1; c2; c1] w) = Ok 3 /\
  NoDup (company_names (db (snd (upsert_companies [c1; c2; c1] w)))).
Proof.
  intros c1 c2 w. split; [constructor|].
  assert (Hl : Forall (fun c => has_careers c = false) [c1; c2; c1])
    by (repeat constructor).
  pose proof (upsert_companies_stores_all [c1; c2; c1] w eq_refl Hl
                (NoDup_nil _)) as H.
  destruct (upsert_companies [c1; c2; c1] w) as [r w'].
  destruct H as (H1 & H2 & _). split; [exact H1|exact H2].
Defined.

(** ** Runs *)

Lemma run_row_found (d : DB) (row : RunRow) :
  NoDup (run_ids d) -> In row (runs d) -> run_row (r_id row) d = Some row.
Proof.
  intros Hnd Hin. unfold run_row.
  destruct (find (fun r => r_id r =? r_id row) (runs d)) as [r|] eqn:E.
  - apply find_some in E as [Hr E]. apply Nat.eqb_eq in E.
    f_equal. now apply (key_determines_row r_id (runs d)).
  - pose proof (find_none _ _ E row Hin) as H. simpl in H.
    now rewrite Nat.eqb_refl in H.
Qed.

Lemma run_row_update_running (run_id t : nat) (d : DB) (r : RunRow) :
  run_row run_id d = Some r ->
  run_row run_id (update_running run_id t d) =
    Some (mkRunRow (r_id r) running t (r_finished_at r) (r_details r)
                   (r_companies_scraped r) (r_jobs_scraped r)
                   (r_jobs_inserted r) (r_jobs_updated r)
                   (r_jobs_marked_unavailable r)).
Proof.
  unfold run_row, update_running, set_runs. cbn [runs]. intros H.
  rewrite find_map_inv.
  - rewrite H. simpl. unfold mark_running.
    apply find_some in H as [_ H]. now rewrite H.
  - intros x. unfold mark_running.
    destruct (r_id x =? run_id) eqn:E; simpl; now rewrite E.
Qed.

(** X18.  On runs with distinct identifiers and a store that executes its
    statements, an uninterrupted [claim_next_run] returns nothing exactly
    when no run is queued, and then changes nothing; otherwise it returns a
    queued run than which none is older, leaves that run running with the
    time of the claim as [started_at], and leaves the other runs alone. *)
Theorem claim_takes_oldest_queued (w : World) :
  plan w = [] ->
  NoDup (run_ids (db w)) ->
  let '(r, w') := claim_next_run w in
  match r with
  | Ok None =>
      (forall row, In row (runs (db w)) -> r_status row <> queued) /\
      db w' = db w
  | Ok (Some run_id) =>
      exists row,
        In row (runs (db w)) /\ r_id row = run_id /\ r_status row = queued /\
        (forall row', In row' (runs (db w)) -> r_status row' = queued ->
                      r_started_at row <= r_started_at row') /\
        run_row run_id (db w') =
          Some (mkRunRow run_id running (S (now w)) (r_finished_at row)
                         (r_details row) (r_companies_scraped row)
                         (r_jobs_scraped row) (r_jobs_inserted row)
                         (r_jobs_updated row)
                         (r_jobs_marked_unavailable row)) /\
        (forall row', In row' (runs (db w)) -> r_id row' <> run_id ->
                      In row' (runs (db w')))
  | Raise _ => False
  end.
Proof.
  intros Hp Hnd. unfold claim_next_run, Pipeline.bind.
  rewrite stmt_ok by exact Hp. cbn [fst snd].
  pose proof (select_next_queued_oldest (db w)) as Hsel.
  destruct (select_next_queued (db w)) as [run_id|].
  - rewrite stmt_ok by reflexivity. cbn [fst snd db now]. unfold ret.
    destruct Hsel as (row & Hin & Hid & Hq & Hold).
    exists row. repeat (split; [assumption|]). split.
    + subst run_id. cbn [db].
      now rewrite (run_row_update_running _ _ _ row (run_row_found _ _ Hnd Hin)).
    + intros row' Hin' Hne. cbn [db]. unfold update_running, set_runs.
      cbn [runs].
      apply in_map_iff. exists row'. split; [|exact Hin'].
      unfold mark_running. destruct (r_id row' =? run_id) eqn:E; [|reflexivity].
      apply Nat.eqb_eq in E. contradiction.
  - unfold ret. split; [exact Hsel|reflexivity].
Qed.

Lemma claim_takes_oldest_queued_witness :
  let run id status at_ :=
    mkRunRow id status at_ None None None None None None None in
  let w :=
    mkWorld (mkDB [run 1 success 3; run 2 queued 8; run 3 queued 5] [] [] 4)
            new_metrics [] 10 in
  NoDup (run_ids (db w)) /\ fst (claim_next_run w) = Ok (Some 3).
Proof.
  intros run w.
  assert (Hnd : NoDup (run_ids (db w))).
  { repeat constructor; simpl; intuition discriminate. }
  split; [exact Hnd|].
  pose proof (claim_takes_oldest_queued w eq_refl Hnd) as H.
  destruct (claim_next_run w) as [[[run_id|]|e] w']; cbn [fst].
  - destruct H as (row & Hin & Hid & Hq & Hold & _).
    destruct Hin as [<-|[<-|[<-|[]]]]; try discriminate.
    + specialize (Hold (run 3 queued 5)
                       ltac:(right; right; now left) eq_refl).
      simpl in Hold. lia.
    + now rewrite <- Hid.
  - exfalso. destruct H as [H _].
    now apply (H (run 2 queued 8) ltac:(right; now left)).
  - destruct H.
Defined.

(** X19.  Whatever the store does, [run_pipeline] leaves every run other
    than its own as it is, keeps the identifier and [started_at] of its
    own, and leaves its status as it was or sets it to success or
    failed. *)
Theorem run_pipeline_touches_only_its_run (env : Env) (run_id : nat)
  (w : World) :
  Forall2 (fun r r' =>
             r_id r' = r_id r /\ r_started_at r' = r_started_at r /\
             (r_id r <> run_id -> r' = r) /\
             (r_status r' = r_status r \/ r_status r' = success \/
              r_status r' = failed))
          (runs (db w)) (runs (db (snd (run_pipeline env run_id w)))).
Proof.
  rewrite (keeps_runs_run_pipeline env run_id w).
  rewrite <- (map_id (runs (db w))) at 2. apply Forall2_map_self.
  intros r _. auto.
Qed.

Lemma single_coordinator_lifecycle_witness :
  let run id status at_ :=
    mkRunRow id status at_ None None None None None None None in
  let env := mkEnv [] (fun _ => Ok []) (Ok tt) (fun _ => 0) in
  let w :=
    mkWorld (mkDB [run 1 success 3; run 2 queued 8] [] [] 4) new_metrics []
            10 in
  NoDup (run_ids (db w)) /\
  map r_status (runs (db (snd (worker_turn env w)))) = [success; running] /\
  Forall2 (fun r r' =>
             r_id r' = r_id r /\
             (claimed_by w <> Some (r_id r) -> r' = r) /\
             (claimed_by w = Some (r_id r) ->
              r_status r = queued /\ r_status r' = running))
          (runs (db w)) (runs (db (snd (worker_turn env w)))).
Proof.
  intros run env w.
  assert (Hnd : NoDup (run_ids (db w))).
  { repeat constructor; simpl; intuition discriminate. }
  split; [exact Hnd|]. split; [reflexivity|].
  exact (single_coordinator_lifecycle env w Hnd).
Defined.

(** ** Reconciliation of a company *)

Lemma in_urls_iff (u : str) (l : list pyval) :
  existsb (fun v => is_str v u) l = true <-> In (PStr u) l.
Proof.
  rewrite existsb_exists. split.
  - intros (v & Hv & E). destruct v; try discriminate.
    simpl in E. apply eqb_eq in E. now subst.
  - intros H. exists (PStr u). split; [exact H|]. simpl. apply eqb_refl.
Qed.

Lemma merge_job_ids (j : ScrapedJob) (u : str) (l : list JobRow) :
  map j_id (map (merge_job j u) l) = map j_id l.
Proof.
  rewrite map_map. apply map_ext. intros r. unfold merge_job.
  now destruct (PyStr.eqb (j_application_url r) u).
Qed.

Lemma upsert_job_effect (j : ScrapedJob) (u : str) (d : DB) :
  NoDup (job_ids d) -> ids_fresh d ->
  let d' := snd (upsert_job j u d) in
  NoDup (job_ids d') /\ ids_fresh d' /\
  In u (job_urls d') /\
  (forall u', In u' (job_urls d) -> In u' (job_urls d')) /\
  (forall r, In r (jobs d') -> j_application_url r = u ->
             j_is_available r = true) /\
  (forall r, In r (jobs d') -> j_application_url r <> u -> In r (jobs d)).
Proof.
  intros Hnd Hfresh. cbv zeta.
  destruct (in_dec (list_eq_dec ascii_dec) u (job_urls d)) as [Hin|Hin].
  - rewrite (upsert_job_present j u d Hin). cbn [snd].
    unfold set_jobs, job_ids, job_urls, ids_fresh. cbn [jobs next_id].
    rewrite merge_job_ids, merge_job_url.
    split; [exact Hnd|]. split; [|split; [exact Hin|split; [auto|split]]].
    + intros r Hr. apply in_map_iff in Hr as (r0 & <- & Hr0).
      specialize (Hfresh r0 Hr0). unfold merge_job.
      now destruct (PyStr.eqb (j_application_url r0) u).
    + intros r Hr Hu. apply in_map_iff in Hr as (r0 & <- & Hr0).
      unfold merge_job in *.
      destruct (PyStr.eqb (j_application_url r0) u) eqn:E; [reflexivity|].
      apply eqb_neq in E. contradiction.
    + intros r Hr Hu. apply in_map_iff in Hr as (r0 & <- & Hr0).
      unfold merge_job in *.
      destruct (PyStr.eqb (j_application_url r0) u) eqn:E; [|exact Hr0].
      apply eqb_eq in E. simpl in Hu. congruence.
  - rewrite (upsert_job_absent j u d Hin). cbn [snd].
    unfold job_ids, job_urls, ids_fresh. cbn [jobs next_id].
    rewrite !map_app. cbn [map j_id j_application_url].
    split; [|split; [|split; [|split; [|split]]]].
    + apply NoDup_app; [exact Hnd | repeat constructor; intros [] | ].
      intros x Hx [<-|[]]. apply in_map_iff in Hx as (r & E & Hr).
      specialize (Hfresh r Hr). lia.
    + intros r Hr. apply in_app_or in Hr as [Hr|[<-|[]]].
      * specialize (Hfresh r Hr). lia.
      * simpl. lia.
    + apply in_or_app. right. now left.
    + intros u' Hu'. apply in_or_app. now left.
    + intros r Hr Hu. apply in_app_or in Hr as [Hr|[<-|[]]]; [|reflexivity].
      exfalso. apply Hin. rewrite <- Hu. now apply in_map.
    + intros r Hr Hu. apply in_app_or in Hr as [Hr|[<-|[]]]; [exact Hr|].
      simpl in Hu. congruence.
Qed.

Lemma save_each_effect (js : list ScrapedJob) (w : World) :
  plan w = [] ->
  Forall (fun j => exists u, application_url j = PStr u) js ->
  NoDup (job_ids (db w)) -> ids_fresh (db w) ->
  exists w',
    save_each js w = (Ok tt, w') /\ plan w' = [] /\
    NoDup (job_ids (db w')) /\ ids_fresh (db w') /\
    (forall u, In u (job_urls (db w)) -> In u (job_urls (db w'))) /\
    (forall u, In (PStr u) (map application_url js) ->
               In u (job_urls (db w'))) /\
    (forall r, In r (jobs (db w')) ->
               In (PStr (j_application_url r)) (map application_url js) ->
               j_is_available r = true) /\
    (forall r, In r (jobs (db w')) ->
               ~ In (PStr (j_application_url r)) (map application_url js) ->
               In r (jobs (db w))).
Proof.
  intros Hp Hjs. revert w Hp.
  induction Hjs as [|j js [u Hu] _ IH]; intros w Hp Hnd Hfresh.
  - exists w. unfold save_each, ret.
    repeat (split; [solve [auto]|]).
    split; [intros u []|]. split; [intros r _ []|]. auto.
  - cbn [save_each]. rewrite Hu. unfold Pipeline.bind at 1.
    rewrite stmt_ok by exact Hp. unfold Pipeline.bind at 1.
    unfold modify_metrics. cbn [db metrics plan now].
    destruct (upsert_job_effect j u (db w) Hnd Hfresh)
      as (Hnd1 & Hfresh1 & Hu1 & Hkeep1 & Hav1 & Hold1).
    match goal with
    | |- context [save_each js ?w1] =>
        destruct (IH w1 eq_refl Hnd1 Hfresh1)
          as (w' & E & Hp' & Hnd' & Hfresh' & Hkeep & Hall & Hav & Hold)
    end.
    cbn [db] in *. exists w'. split; [exact E|].
    split; [exact Hp'|]. split; [exact Hnd'|]. split; [exact Hfresh'|].
    cbn [map]. rewrite Hu. split; [|split; [|split]].
    + intros u' Hu'. apply Hkeep. now apply Hkeep1.
    + intros u' [E'|Hu']; [|now apply Hall].
      injection E' as <-. now apply Hkeep.
    + intros r Hr Hin.
      destruct (existsb (fun v => is_str v (j_application_url r))
                        (map application_url js)) eqn:Ex.
      * apply Hav; [exact Hr|]. now apply in_urls_iff.
      * assert (Hnin : ~ In (PStr (j_application_url r))
                             (map application_url js)).
        { intros H. apply in_urls_iff in H. congruence. }
        destruct Hin as [E'|Hin]; [|contradiction].
        injection E' as E'. apply Hav1; [now apply Hold|now symmetry].
    + intros r Hr Hnin. apply Hold1.
      * apply Hold; [exact Hr|]. intros H. apply Hnin. now right.
      * intros E'. apply Hnin. left. now rewrite E'.
Qed.

Lemma invalidate_missing_jobs (c : Company) (urls : list pyval) (w : World) :
  plan w = [] -> NoDup (job_ids (db w)) -> urls <> [] ->
  exists w',
    invalidate_missing c urls w = (Ok tt, w') /\
    jobs (db w') =
      map (fun r => if stale c urls r then unavailable r else r) (jobs (db w)).
Proof.
  intros Hp Hnd Hne. destruct urls as [|u0 urls]; [congruence|].
  unfold invalidate_missing, Pipeline.bind.
  rewrite stmt_ok by exact Hp. cbn [fst snd].
  rewrite to_disable_stale.
  destruct (filter (stale c (u0 :: urls)) (jobs (db w)))
    as [|s0 stale_rows] eqn:Es.
  - simpl. unfold ret. eexists. split; [reflexivity|]. cbn [db].
    now rewrite no_stale_identity.
  - rewrite <- Es. destruct (map j_id _) as [|i ids] eqn:Ei.
    { rewrite Es in Ei. discriminate. }
    rewrite <- Ei. rewrite stmt_ok by reflexivity.
    cbn [fst snd db metrics]. unfold modify_metrics.
    eexists. split; [reflexivity|]. cbn [db].
    unfold update_unavailable, set_jobs. cbn [jobs].
    now apply mark_unavailable_stale.
Qed.

(** X21.  After a company's batch has been saved and the missing jobs
    invalidated, the store agrees with the batch: every URL of the batch is
    stored, and a stored job of the company is available exactly when its
    URL is one of the batch. *)
Theorem reconciliation_converges (env : Env) (c : Company) (w : World)
  (found : list ScrapedJob) :
  plan w = [] ->
  NoDup (job_ids (db w)) ->
  ids_fresh (db w) ->
  scrape env c = Ok found ->
  found <> [] ->
  Forall (fun j => exists u, application_url j = PStr u)
         (deduplicate found) ->
  let urls := map application_url (deduplicate found) in
  let '(r, w') := process_company env c w in
  r = Ok tt /\
  (forall u, In (PStr u) urls -> In u (job_urls (db w'))) /\
  (forall row, In row (jobs (db w')) -> j_company_id row = c_id c ->
               (j_is_available row = true <->
                In (PStr (j_application_url row)) urls)).
Proof.
  intros Hp Hnd Hfresh Es Hne Hstr urls. unfold process_company.
  pose proof (deduplicate_nonempty found Hne) as Hune.
  unfold Pipeline.bind at 1, lift. rewrite Es.
  destruct found as [|j0 js0]; [congruence|].
  unfold Pipeline.bind at 1. unfold modify_metrics.
  set (w1 := mkWorld (db w) _ (plan w) (now w)).
  destruct (save_each_effect (deduplicate (j0 :: js0)) w1 Hp Hstr Hnd Hfresh)
    as (w2 & E & Hp2 & Hnd2 & _ & _ & Hall & Hav & _).
  unfold Pipeline.bind, save_jobs, transaction.
  destruct (deduplicate (j0 :: js0)) as [|u0 us] eqn:Ed; [congruence|].
  rewrite E.
  assert (Hurls : urls <> []) by (subst urls; discriminate).
  destruct (invalidate_missing_jobs c urls w2 Hp2 Hnd2 Hurls)
    as (w3 & E3 & Hj).
  fold urls. rewrite E3. split; [reflexivity|]. split.
  - intros u Hu. unfold job_urls. rewrite Hj, map_map.
    specialize (Hall u Hu). unfold job_urls in Hall.
    apply in_map_iff in Hall as (r & <- & Hr). apply in_map_iff.
    exists r. split; [|exact Hr]. now destruct (stale c urls r).
  - intros row Hrow Hc. rewrite Hj in Hrow.
    apply in_map_iff in Hrow as (r & <- & Hr).
    assert (Hcid : j_company_id (if stale c urls r then unavailable r else r)
                   = j_company_id r) by (now destruct (stale c urls r)).
    assert (Hurl : j_application_url
                     (if stale c urls r then unavailable r else r)
                   = j_application_url r) by (now destruct (stale c urls r)).
    rewrite Hcid in Hc. rewrite Hurl.
    destruct (existsb (fun v => is_str v (j_application_url r)) urls) eqn:Ex.
    + assert (Hs : stale c urls r = false).
      { unfold stale, url_absent. rewrite Ex. apply andb_false_r. }
      rewrite Hs. split; [intros _; now apply in_urls_iff|].
      intros Hin. now apply Hav.
    + assert (Hnin : ~ In (PStr (j_application_url r)) urls).
      { intros H. apply in_urls_iff in H. congruence. }
      assert (Hs : stale c urls r = j_is_available r).
      { unfold stale, url_absent. rewrite Ex, Hc, Nat.eqb_refl.
        simpl. apply andb_true_r. }
      rewrite Hs. destruct (j_is_available r) eqn:Ea.
      * simpl. split; [discriminate|contradiction].
      * rewrite Ea. split; [discriminate|contradiction].
Qed.

Lemma reconciliation_converges_witness :
  let x := lit "https://acme.test/jobs/x" in
  let y := lit "https://acme.test/jobs/y" in
  let acme :=
    mkCompany 1 (lit "Acme") None (Some (lit "https://acme.test/careers"))
              (PDict []) (ConfigDict DEFAULT_SCRAPING_CONFIG) in
  let row id url available :=
    mkJobRow id (lit "Engineer") 1 (lit "Acme") (lit "Remote") [] []
             (lit "mid") url available in
  let job :=
    mkScrapedJob (lit "Engineer") (lit "Acme") 1 (lit "Remote") [] []
                 (lit "mid") (PStr x) in
  let env := mkEnv [] (fun _ => Ok [job]) (Ok tt) (fun _ => 0) in
  let w :=
    mkWorld (mkDB [] [] [row 10 x false; row 11 y true] 12) new_metrics [] 0 in
  let w' := snd (process_company env acme w) in
  NoDup (job_ids (db w)) /\
  forall r, In r (jobs (db w')) -> j_company_id r = 1 ->
            (j_is_available r = true <-> j_application_url r = x).
Proof.
  intros x y acme row job env w w'.
  assert (Hnd : NoDup (job_ids (db w))).
  { repeat constructor; simpl; intuition discriminate. }
  split; [exact Hnd|].
  assert (Hfresh : ids_fresh (db w)).
  { intros r [<-|[<-|[]]]; simpl; lia. }
  assert (Hstr : Forall (fun j => exists u, application_url j = PStr u)
                        (deduplicate [job])).
  { repeat constructor. now exists x. }
  pose proof (reconciliation_converges env acme w [job] eq_refl Hnd Hfresh
                eq_refl ltac:(discriminate) Hstr) as H.
  cbv zeta in H. subst w'.
  destruct (process_company env acme w) as [r0 w']. cbn [snd].
  destruct H as (_ & _ & H). intros r Hr Hc.
  rewrite (H r Hr Hc). change (deduplicate [job]) with [job].
  simpl. split.
  - intros [E|[]]. now injection E.
  - intros ->. now left.
Defined.

(** ** The idle worker *)

Lemma nothing_queued (d : DB) :
  (forall r, In r (runs d) -> r_status r <> queued) ->
  select_next_queued d = None.
Proof.
  intros H. pose proof (select_next_queued_oldest d) as Hs.
  destruct (select_next_queued d) as [run_id|]; [|reflexivity].
  destruct Hs as (r & Hin & _ & Hq & _). now destruct (H r Hin).
Qed.

(** X22.  While no run is queued and the store executes its statements,
    the worker changes nothing in the store: each turn costs one [SELECT]
    and one sleep of the poll interval, whatever the number of turns. *)
Theorem worker_idles (envs : nat -> Env) (poll turn fuel : nat) (w : World) :
  plan w = [] ->
  (forall r, In r (runs (db w)) -> r_status r <> queued) ->
  background_worker envs poll turn fuel w =
    (Ok tt, mkWorld (db w) (metrics w) [] (now w + fuel * S poll)).
Proof.
  intros Hp Hq. revert turn w Hp Hq.
  induction fuel as [|fuel IH]; intros turn w Hp Hq.
  - simpl. unfold ret. destruct w as [d m p n]. simpl in *. subst p.
    now rewrite Nat.add_0_r.
  - cbn [background_worker]. unfold Pipeline.bind at 1.
    unfold claim_next_run. unfold Pipeline.bind at 1.
    rewrite stmt_ok by exact Hp. cbn [fst snd].
    rewrite (nothing_queued (db w) Hq). unfold ret.
    unfold Pipeline.bind at 1. unfold Pipeline.bind at 1. unfold sleep.
    cbn [db metrics plan now].
    rewrite IH by (cbn [plan db]; auto). cbn [db metrics now].
    f_equal. f_equal. lia.
Qed.

Lemma worker_idles_witness :
  let done := mkRunRow 1 success 3 (Some 9) None None None None None None in
  let w := mkWorld (mkDB [done] [] [] 2) new_metrics [] 10 in
  background_worker (fun _ => mkEnv [] (fun _ => Ok []) (Ok tt) (fun _ => 0)) 30 0 3 w =
    (Ok tt, mkWorld (mkDB [done] [] [] 2) new_metrics [] 103).
Proof.
  intros done w.
  rewrite (worker_idles (fun _ => mkEnv [] (fun _ => Ok []) (Ok tt) (fun _ => 0)) 30 0 3 w
             eq_refl).
  - reflexivity.
  - intros r [<-|[]]. discriminate.
Defined.

(** ** Configuration *)

(** X23.  Every search query read from the configuration is trimmed, not
    empty and free of commas, whatever the configured text. *)
Theorem search_queries_clean (raw : str) :
  Forall (fun q => q <> [] /\ strip q = q /\ ~ In ","%char q)
         (Config.search_queries raw).
Proof.
  unfold Config.search_queries. apply Forall_forall. intros q Hq.
  apply in_map_iff in Hq as (p & <- & Hp).
  apply filter_In in Hp as [Hp Hne].
  split; [|split].
  - intros E. now rewrite E in Hne.
  - apply strip_idem.
  - intros Hc. apply strip_incl in Hc. revert Hc.
    apply (split_from_no_sep ","%char [] raw p); [intros []|exact Hp].
Qed.

(** ** Discovery *)

Import Discovery.

Lemma split_from_nonempty (sep : ascii) (cur s : str) :
  1 <= List.length (split_from sep cur s).
Proof.
  revert cur. induction s as [|c s IH]; intros cur; simpl; [lia|].
  destruct (Ascii.eqb c sep); [simpl; lia|apply IH].
Qed.

(** A split has two pieces or more exactly when the separator occurs. *)
Lemma split_from_length (sep : ascii) (cur s : str) :
  2 <= List.length (split_from sep cur s) <-> In sep s.
Proof.
  revert cur. induction s as [|c s IH]; intros cur; simpl.
  - split; [lia|tauto].
  - destruct (Ascii.eqb c sep) eqn:E.
    + apply Ascii.eqb_eq in E. subst c. simpl. split; [auto|].
      intros _. pose proof (split_from_nonempty sep [] s). lia.
    + rewrite IH. split; [auto|]. intros [->|H]; [|exact H].
      now rewrite Ascii.eqb_refl in E.
Qed.

Lemma split_from_head (sep : ascii) (cur s : str) :
  In (hd [] (split_from sep cur s)) (split_from sep cur s).
Proof.
  revert cur. induction s as [|c s IH]; intros cur; simpl.
  - now left.
  - destruct (Ascii.eqb c sep); [now left|apply IH].
Qed.

(** X24.  For a title that is a string, [_name_from_title_or_domain]
    always returns, and what it returns is decided as follows.  When a
    hyphen occurs in the title and the part before the first hyphen,
    trimmed, has 3 to 79 characters, the result is that part; it is trimmed
    and free of hyphens.  Otherwise the result is the capitalized
    second-last label of the domain when the domain holds a dot, and
    nothing when it holds none. *)
Theorem name_from_title_or_domain_cases (title domain : str) :
  let first := strip (hd [] (split "-"%char title)) in
  let from_title :=
    occurs (lit "-") title /\ 2 < List.length first < 80 in
  exists r,
    _name_from_title_or_domain (PStr title) domain = Ok r /\
    match r with
    | Some name =>
        (from_title /\ name = first /\
         2 < List.length name < 80 /\ strip name = name /\
         ~ In "-"%char name) \/
        (~ from_title /\ In "."%char domain /\
         name = capitalize (second_last (split "."%char domain)))
    | None => ~ from_title /\ ~ In "."%char domain
    end.
Proof.
  intros first from_title.
  unfold _name_from_title_or_domain. cbn [dash_in Scraper.bind Scraper.as_str].
  fold first.
  set (from_domain :=
         if 2 <=? List.length (split "."%char domain)
         then Some (capitalize (second_last (split "."%char domain)))
         else None).
  assert (Hd : match from_domain with
               | Some name =>
                   In "."%char domain /\
                   name = capitalize (second_last (split "."%char domain))
               | None => ~ In "."%char domain
               end).
  { subst from_domain. destruct (2 <=? _) eqn:E.
    - apply Nat.leb_le in E. apply split_from_length in E. auto.
    - apply Nat.leb_gt in E. intros H.
      apply (split_from_length "."%char []) in H. unfold split in E. lia. }
  assert (Hdom : ~ from_title ->
                 exists r, Ok from_domain = Ok r /\
                  match r with
                  | Some name =>
                      (from_title /\ name = first /\
                       2 < List.length name < 80 /\ strip name = name /\
                       ~ In "-"%char name) \/
                      (~ from_title /\ In "."%char domain /\
                       name = capitalize (second_last (split "."%char domain)))
                  | None => ~ from_title /\ ~ In "."%char domain
                  end).
  { intros Hno. exists from_domain. split; [reflexivity|].
    destruct from_domain; [right|]; tauto. }
  destruct (contains (lit "-") title) eqn:Ec.
  2:{ apply Hdom. intros [Ho _]. apply contains_spec in Ho. congruence. }
  destruct ((2 <? _) && (_ <? 80)) eqn:El.
  2:{ apply Hdom. intros [_ [H2 H80]].
      apply Nat.ltb_lt in H2. apply Nat.ltb_lt in H80.
      rewrite H2, H80 in El. discriminate. }
  apply andb_true_iff in El as [H2 H80].
  apply Nat.ltb_lt in H2. apply Nat.ltb_lt in H80.
  eexists. split; [reflexivity|]. left.
  split; [split; [now apply contains_spec|lia]|].
  split; [reflexivity|]. split; [lia|]. split; [apply strip_idem|].
  intros Hin. apply strip_incl in Hin. revert Hin.
  apply (split_from_no_sep "-"%char [] title); [intros []|].
  apply split_from_head.
Qed.

Section DiscoveryAdapter.

Variable repr_container : pyval -> str.
Variable hostname : str -> outcome (option str).

(** X25.  [_extract_company] yields a candidate only for a result whose
    link is a string that is not empty, that the URL parser accepts and
    whose host names no job board; the candidate has a name that is not
    empty, the host without its "www." as domain, the source
    "search_engine", and as careers URL either nothing or the link
    itself. *)
Theorem extract_company_result (result : list (str * pyval)) :
  match _extract_company repr_container hostname result with
  | Some c =>
      exists link host,
        dict_get result (lit "link") = PStr link /\ link <> [] /\
        hostname link = Ok host /\
        let domain := match host with Some (x :: h) => x :: h | _ => [] end in
        any_in JOB_BOARD_HINTS domain = false /\
        cand_name c <> [] /\
        cand_domain c = Some (remove_all (lit "www.") domain) /\
        (cand_careers_url c = None \/ cand_careers_url c = Some link) /\
        cand_discovery_source c = Some (lit "search_engine")
  | None => True
  end.
Proof.
  unfold _extract_company.
  destruct (truthy (dict_get result (lit "link"))) eqn:Ht; cbn [negb];
    [|exact I].
  destruct (dict_get result (lit "link")) as [| | |link| |];
    cbn [Scraper.as_str Scraper.bind]; try exact I.
  destruct (hostname link) as [host|e] eqn:Eh; cbn [Scraper.bind];
    [|exact I].
  set (domain := match host with Some (x :: h) => x :: h | _ => [] end).
  destruct (any_in JOB_BOARD_HINTS domain) eqn:Eb; [exact I|].
  destruct (_name_from_title_or_domain _ domain) as [[[|x n]|]|e];
    cbn [Scraper.bind]; try exact I.
  exists link, host. fold domain.
  split; [reflexivity|]. split; [intros ->; discriminate Ht|].
  split; [exact Eh|]. cbv zeta. split; [exact Eb|].
  cbn [cand_name cand_domain cand_careers_url cand_discovery_source].
  split; [discriminate|]. split; [reflexivity|]. split; [|reflexivity].
  destruct (any_in CAREERS_KEYWORDS _); auto.
Qed.

(** X26.  A search engine that raises contributes no candidate and costs
    the discovery nothing else: the outcome is the one of a discovery in
    which that engine had answered with no result. *)
Theorem failing_engine_is_skipped
  (search : str -> str -> nat -> outcome (list (list (str * pyval))))
  (queries : list str) (limit : nat) :
  discover_companies repr_container hostname search queries limit =
  discover_companies repr_container hostname
    (fun engine query n =>
       match search engine query n with
       | Ok results => Ok results
       | Raise _ => Ok []
       end) queries limit.
Proof.
  unfold discover_companies. f_equal.
  induction queries as [|q queries IH]; cbn [search_queries]; [reflexivity|].
  rewrite IH. f_equal.
  induction SEARCH_ENGINES as [|e engines IHe]; cbn [search_engines];
    [reflexivity|].
  rewrite IHe. now destruct (search e q limit).
Qed.

End DiscoveryAdapter.

Lemma candidate_key_in (k : str) (l : list (str * Candidate)) :
  existsb (fun kv => PyStr.eqb k (fst kv)) l = true <-> In k (map fst l).
Proof.
  rewrite existsb_exists, in_map_iff. split.
  - intros (kv & Hin & E). apply eqb_eq in E. now exists kv.
  - intros (kv & E & Hin). exists kv. split; [exact Hin|].
    apply eqb_eq. now symmetry.
Qed.

Lemma discovery_dedup_acc (companies : list Candidate)
  (dedup : list (str * Candidate)) :
  (forall kv, In kv dedup -> fst kv = candidate_key (snd kv)) ->
  NoDup (map fst dedup) ->
  let result := Discovery.dedup_loop companies dedup in
  (forall kv, In kv result -> fst kv = candidate_key (snd kv)) /\
  NoDup (map fst result).
Proof.
  revert dedup. induction companies as [|c rest IH]; intros dedup Hk Hnd.
  - simpl. auto.
  - cbn [Discovery.dedup_loop]. cbv zeta.
    destruct (existsb _ dedup) eqn:E; [now apply IH|].
    apply IH.
    + intros kv Hin. apply in_app_or in Hin as [Hin|[<-|[]]]; auto.
    + rewrite map_app. simpl.
      apply NoDup_app; [exact Hnd | repeat constructor; intros [] | ].
      intros x Hx [<-|[]]. apply candidate_key_in in Hx. congruence.
Qed.

Lemma discovery_dedup_snoc (pre : list Candidate) (c : Candidate)
  (dedup : list (str * Candidate)) :
  Discovery.dedup_loop (pre ++ [c]) dedup =
  let result := Discovery.dedup_loop pre dedup in
  if existsb (fun kv => PyStr.eqb (candidate_key c) (fst kv)) result
  then result else result ++ [(candidate_key c, c)].
Proof.
  revert dedup. induction pre as [|x pre IH]; intros dedup;
    cbn [app Discovery.dedup_loop]; cbv zeta.
  - reflexivity.
  - destruct (existsb _ dedup); apply IH.
Qed.

(** X27.  The candidates [discover_companies] keeps have pairwise
    different keys (the domain, or the lower-cased name when there is no
    domain), and a candidate is kept exactly when no candidate before it
    has its key: the first of each key stays, at its place. *)
Theorem discovered_candidates_first_of_key (pre : list Candidate)
  (c : Candidate) :
  NoDup (map candidate_key (deduplicated (pre ++ [c]))) /\
  deduplicated (pre ++ [c]) =
  if mem (candidate_key c) (map candidate_key (deduplicated pre))
  then deduplicated pre else deduplicated pre ++ [c].
Proof.
  assert (Hkeys : forall l,
             map candidate_key (deduplicated l)
             = map fst (Discovery.dedup_loop l [])).
  { intros l. unfold deduplicated. rewrite map_map.
    destruct (discovery_dedup_acc l [] ltac:(intros kv []) (NoDup_nil _))
      as [Hk _].
    apply map_ext_in. intros kv Hin. symmetry. now apply Hk. }
  split.
  - rewrite Hkeys.
    now destruct (discovery_dedup_acc (pre ++ [c]) []
                    ltac:(intros kv []) (NoDup_nil _)).
  - rewrite Hkeys. unfold deduplicated. rewrite discovery_dedup_snoc.
    cbv zeta.
    assert (Hm : mem (candidate_key c)
                     (map fst (Discovery.dedup_loop pre []))
                 = existsb (fun kv => PyStr.eqb (candidate_key c) (fst kv))
                           (Discovery.dedup_loop pre [])).
    { unfold mem. induction (Discovery.dedup_loop pre []) as [|kv l IHl];
        [reflexivity|]. simpl. now rewrite IHl. }
    rewrite Hm. destruct (existsb _ _); [reflexivity|].
    now rewrite map_app.
Qed.

(** ** From discovery to the scrape *)

Lemma insert_by_in {A} (rank : A -> nat) (x y : A) (l : list A) :
  In y (insert_by rank x l) <-> y = x \/ In y l.
Proof.
  induction l as [|z l IH]; simpl.
  - intuition.
  - destruct (rank x <=? rank z); simpl; [intuition|].
    rewrite IH. intuition.
Qed.

Lemma insert_by_length {A} (rank : A -> nat) (x : A) (l : list A) :
  List.length (insert_by rank x l) = S (List.length l).
Proof.
  induction l as [|z l IH]; simpl; [reflexivity|].
  destruct (rank x <=? rank z); simpl; [reflexivity|now rewrite IH].
Qed.

(** A scan returns the rows it is given, each once, in an order of its
    own. *)
Lemma scan_in {A} (rank : A -> nat) (y : A) (l : list A) :
  In y (scan rank l) <-> In y l.
Proof.
  unfold scan. induction l as [|x l IH]; simpl; [tauto|].
  rewrite insert_by_in, IH. intuition.
Qed.

Lemma scan_length {A} (rank : A -> nat) (l : list A) :
  List.length (scan rank l) = List.length l.
Proof.
  unfold scan. induction l as [|x l IH]; simpl; [reflexivity|].
  now rewrite insert_by_length, IH.
Qed.

(** X30.  A candidate without careers URL whose name is not yet stored is
    stored by [upsert_companies] and, while fewer active companies than
    the limit are stored, is among the companies [load_active_companies]
    returns, in whatever order the store scans them, together with every
    company that was active before and with nothing else.  The loaded
    company carries the candidate's name, domain and careers URL and the
    empty dictionary as endpoint payload; scraping it visits nothing and
    gives no job; loading changes nothing in the store. *)
Theorem discovered_company_is_loaded (repr_container : pyval -> str)
  (net : Internet) (rank : CompanyRow -> nat) (c : Candidate) (limit : nat)
  (w : World) :
  plan w = [] ->
  has_careers c = false ->
  ~ In (cand_name c) (company_names (db w)) ->
  List.length (filter co_is_active (companies (db w))) < limit ->
  let '(up, w1) := upsert_companies [c] w in
  let '(r, w2) := load_active_companies rank limit w1 in
  up = Ok 1 /\ db w2 = db w1 /\
  exists loaded company,
    r = Ok loaded /\
    List.length loaded
    = S (List.length (filter co_is_active (companies (db w)))) /\
    (forall row, In row (companies (db w)) -> co_is_active row = true ->
                 In (to_company row) loaded) /\
    In company loaded /\
    c_name company = cand_name c /\
    c_domain company = cand_domain c /\
    c_careers_url company = cand_careers_url c /\
    c_careers_endpoint_payload company = PDict [] /\
    scrape_company repr_container net company = Ok [].
Proof.
  intros Hp Hc Hn Hl.
  rewrite upsert_companies_single by assumption.
  rewrite upsert_company_absent by exact Hn.
  unfold load_active_companies, Pipeline.bind.
  rewrite stmt_ok by reflexivity.
  unfold ret, select_active_companies. cbn [fst snd db companies].
  split; [reflexivity|]. split; [reflexivity|].
  rewrite filter_app. cbn [filter co_is_active].
  set (old := filter co_is_active (companies (db w))) in *.
  set (new := mkCompanyRow _ _ _ _ _ _ _ _).
  rewrite firstn_all2
    by (rewrite scan_length, length_app; simpl; lia).
  exists (map to_company (scan rank (old ++ [new]))), (to_company new).
  split; [reflexivity|]. split.
  { rewrite length_map, scan_length, length_app. simpl. lia. }
  split.
  { intros row Hrow Ha. apply in_map. apply scan_in.
    apply in_or_app. left. subst old. apply filter_In. now split. }
  split.
  { apply in_map. apply scan_in. apply in_or_app. right. now left. }
  unfold to_company, new.
  cbn [c_name c_domain c_careers_url c_careers_endpoint_payload
       co_name co_domain co_careers_url co_careers_endpoint_payload].
  repeat (split; [reflexivity|]).
  unfold scrape_company, payload_dict.
  cbn [c_careers_endpoint_payload c_careers_url of_opt py_or truthy
       Scraper.bind].
  unfold has_careers in Hc. rewrite Hc. cbn [andb].
  now rewrite andb_false_r.
Qed.

Lemma discovered_company_is_loaded_witness :
  let c := mkCandidate (lit "Acme") (Some (lit "acme.test")) None None in
  let initech :=
    mkCompanyRow 4 (lit "Initech") None None None None true (lit "manual") in
  let w := mkWorld (mkDB [] [initech] [] 5) new_metrics [] 0 in
  let net :=
    mkInternet (fun _ => Raise (lit "unreachable"))
               (fun _ => mkPageVisit (Ok tt) (fun _ => Ok []) (Ok tt)) in
  let rank := fun r : CompanyRow => 9 - co_id r in
  plan w = [] /\
  option_map (map c_name)
    (match fst (load_active_companies rank 200 (snd (upsert_companies [c] w)))
     with Ok loaded => Some loaded | Raise _ => None end)
  = Some [lit "Acme"; lit "Initech"] /\
  exists loaded company,
    fst (load_active_companies rank 200 (snd (upsert_companies [c] w)))
      = Ok loaded /\
    In company loaded /\ c_name company = lit "Acme" /\
    scrape_company (fun _ => []) net company = Ok [].
Proof.
  intros c initech w net rank. split; [reflexivity|].
  split; [vm_compute; reflexivity|].
  assert (Hn : ~ In (cand_name c) (company_names (db w))).
  { intros [H|[]]. discriminate H. }
  assert (Hl : List.length (filter co_is_active (companies (db w))) < 200)
    by (simpl; lia).
  pose proof (discovered_company_is_loaded (fun _ => []) net rank c 200 w
                eq_refl eq_refl Hn Hl) as H.
  destruct (upsert_companies [c] w) as [r1 w1]. cbn [snd].
  destruct (load_active_companies rank 200 w1) as [r w2]. cbn [fst].
  destruct H as (_ & _ & loaded & company & Hr & _ & _ & Hin & Hname & _ & _
                 & _ & Hs).
  exists loaded, company. repeat split; assumption.
Defined.

(** ** A store that executes every statement *)

Lemma stays_sound_ret {A} (a : A) : stays_sound (ret a).
Proof. intros w H. exact H. Qed.

Lemma stays_sound_lift {A} (o : outcome A) : stays_sound (lift o).
Proof. intros w H. exact H. Qed.

Lemma stays_sound_modify (f : RunMetrics -> RunMetrics) :
  stays_sound (modify_metrics f).
Proof. intros w H. exact H. Qed.

Lemma stays_sound_stmt {A} (f : nat -> DB -> A * DB) : stays_sound (stmt f).
Proof. intros w H. now rewrite stmt_ok. Qed.

Lemma stays_sound_refused {A} : stays_sound (@refused A).
Proof. intros w H. now rewrite refused_ok. Qed.

Lemma stays_sound_execute {A} (args : list pyval) (f : nat -> DB -> A * DB) :
  stays_sound (execute args f).
Proof.
  unfold execute. destruct (forallb encodable args);
    [apply stays_sound_stmt|apply stays_sound_refused].
Qed.

Lemma stays_sound_bind {A B} (m : M A) (f : A -> M B) :
  stays_sound m -> (forall a, stays_sound (f a)) ->
  stays_sound (Pipeline.bind m f).
Proof.
  intros Hm Hf w H. unfold Pipeline.bind. specialize (Hm w H).
  destruct (m w) as [[a|e] w1]; cbn [snd] in Hm; [now apply Hf|exact Hm].
Qed.

Lemma stays_sound_transaction {A} (m : M A) :
  stays_sound m -> stays_sound (transaction m).
Proof.
  intros Hm w H. unfold transaction. specialize (Hm w H).
  destruct (m w) as [[a|e] w1]; exact Hm.
Qed.

Lemma stays_sound_try_finally {A} (m : M A) (fin : M unit) :
  stays_sound m -> stays_sound fin -> stays_sound (try_finally m fin).
Proof.
  intros Hm Hf w H. unfold try_finally. specialize (Hm w H).
  destruct (m w) as [[a|e] w1]; cbn [snd] in Hm; specialize (Hf w1 Hm);
    destruct (fin w1) as [[[]|e'] w2]; exact Hf.
Qed.

Lemma stays_sound_upsert_companies (l : list Candidate) :
  stays_sound (upsert_companies l).
Proof.
  unfold upsert_companies. destruct l as [|c0 l0]; [apply stays_sound_ret|].
  apply stays_sound_bind; [|intros; apply stays_sound_ret].
  apply stays_sound_transaction.
  generalize (c0 :: l0). intros l. induction l as [|c l IH]; cbn [upsert_each].
  - apply stays_sound_ret.
  - cbv zeta. apply stays_sound_bind; [|intros; exact IH].
    apply stays_sound_execute.
Qed.

Lemma stays_sound_save_jobs (js : list ScrapedJob) :
  stays_sound (save_jobs js).
Proof.
  unfold save_jobs. destruct js as [|j0 js0]; [apply stays_sound_ret|].
  apply stays_sound_transaction.
  generalize (j0 :: js0). intros js. induction js as [|j js IH];
    cbn [save_each].
  - apply stays_sound_ret.
  - destruct (application_url j); try apply stays_sound_refused.
    apply stays_sound_bind; [apply stays_sound_stmt|].
    intros ins. apply stays_sound_bind; [apply stays_sound_modify|].
    intros; exact IH.
Qed.

Lemma stays_sound_invalidate_missing (c : Company) (urls : list pyval) :
  stays_sound (invalidate_missing c urls).
Proof.
  unfold invalidate_missing. destruct urls; [apply stays_sound_ret|].
  apply stays_sound_bind; [apply stays_sound_stmt|].
  intros res. destruct (map fst _); [apply stays_sound_ret|].
  apply stays_sound_bind; [apply stays_sound_stmt|].
  intros; apply stays_sound_modify.
Qed.

Lemma stays_sound_process_companies (env : Env) (cs : list Company) :
  stays_sound (process_companies env cs).
Proof.
  induction cs as [|c cs IH]; cbn [process_companies].
  - apply stays_sound_ret.
  - apply stays_sound_bind; [|intros; exact IH].
    unfold process_company. apply stays_sound_bind; [apply stays_sound_lift|].
    intros [|j js]; [apply stays_sound_ret|].
    apply stays_sound_bind; [apply stays_sound_modify|]. intros _.
    apply stays_sound_bind; [apply stays_sound_save_jobs|]. intros _.
    apply stays_sound_invalidate_missing.
Qed.

Lemma stays_sound_pipeline_body (env : Env) (run_id : nat) :
  stays_sound (pipeline_body env run_id).
Proof.
  unfold pipeline_body.
  apply stays_sound_bind; [apply stays_sound_modify|]. intros _.
  apply stays_sound_bind; [apply stays_sound_upsert_companies|]. intros _.
  apply stays_sound_bind.
  { unfold load_active_companies.
    apply stays_sound_bind; [apply stays_sound_stmt|].
    intros; apply stays_sound_ret. }
  intros cs. apply stays_sound_bind.
  { apply stays_sound_try_finally; [apply stays_sound_process_companies|].
    apply stays_sound_lift. }
  intros _. apply stays_sound_bind; [intros w0 H; exact H|].
  intros m. apply stays_sound_execute.
Qed.

(** On a store without fault the exception that leaves [run_pipeline] is
    the driver's refusal of the dictionary of the metrics. *)
Lemma run_pipeline_data_error (env : Env) (run_id : nat) (w : World) :
  plan w = [] -> fst (run_pipeline env run_id w) = Raise data_error.
Proof.
  intros Hp. unfold run_pipeline.
  set (w0 := mkWorld (db w) new_metrics (plan w) (now w)).
  pose proof (stays_sound_pipeline_body env run_id w0 Hp) as Hs.
  destruct (always_raises_pipeline_body env run_id w0) as [e He].
  destruct (pipeline_body env run_id w0) as [[[]|e'] w1];
    cbn [fst snd] in *; [discriminate|].
  unfold Pipeline.bind, modify_metrics, get_metrics, execute.
  cbn [forallb encodable of_nat to_dict andb].
  now rewrite refused_ok.
Qed.

(** X31.  On a store that executes every statement, the first run the
    worker claims ends it: [run_pipeline] raises the [DataError] of its
    last statement, whatever the run has met, [background_worker] has no
    handler, and the run is left running, claimed at the time of the
    [UPDATE] of [claim_next_run]. *)
Theorem first_claimed_run_ends_the_worker (envs : nat -> Env)
  (poll turn fuel : nat) (w : World) (run_id : nat) :
  plan w = [] ->
  select_next_queued (db w) = Some run_id ->
  let '(out, w') := background_worker envs poll turn (S fuel) w in
  out = Raise data_error /\
  runs (db w') = map (mark_running run_id (S (now w))) (runs (db w)).
Proof.
  intros Hp Hsel. cbn [background_worker].
  unfold Pipeline.bind at 1. unfold Pipeline.bind at 1.
  unfold claim_next_run. unfold Pipeline.bind at 1.
  rewrite stmt_ok by exact Hp. cbn [fst snd]. rewrite Hsel.
  unfold Pipeline.bind at 1. rewrite stmt_ok by reflexivity.
  cbn [fst snd db now]. unfold ret.
  set (w1 := mkWorld _ _ _ _).
  pose proof (run_pipeline_data_error (envs turn) run_id w1 eq_refl) as Hr.
  pose proof (keeps_runs_run_pipeline (envs turn) run_id w1) as Hk.
  destruct (run_pipeline (envs turn) run_id w1) as [out w2].
  cbn [fst snd] in Hr, Hk. subst out. split; [reflexivity|].
  rewrite Hk. reflexivity.
Qed.

Lemma first_claimed_run_ends_the_worker_witness :
  let run id status at_ :=
    mkRunRow id status at_ None None None None None None None in
  let envs := fun _ : nat => mkEnv [] (fun _ => Ok []) (Ok tt) (fun _ => 0) in
  let w :=
    mkWorld (mkDB [run 1 success 3; run 2 queued 8] [] [] 4) new_metrics []
            10 in
  select_next_queued (db w) = Some 2 /\
  fst (background_worker envs 30 0 5 w) = Raise data_error /\
  map r_status (runs (db (snd (background_worker envs 30 0 5 w))))
  = [success; running].
Proof.
  intros run envs w. split; [reflexivity|].
  pose proof (first_claimed_run_ends_the_worker envs 30 0 4 w 2 eq_refl
                eq_refl) as H.
  destruct (background_worker envs 30 0 5 w) as [out w']. cbn [fst snd].
  destruct H as [H1 H2]. split; [exact H1|]. rewrite H2. reflexivity.
Defined.

(** X32.  A company stored with an endpoint payload cannot be scraped:
    the driver returns the column as text, [payload or {}] keeps the text,
    and [payload.get] raises [AttributeError] before the [try] of
    [scrape_company].  In a run the exception leaves the loop over the
    companies at that company: nothing is written for it, and the
    companies after it are not scraped. *)
Theorem stored_payload_breaks_the_scrape (repr_container : pyval -> str)
  (net : Internet) (row : CompanyRow) (text : str) :
  co_careers_endpoint_payload row = Some text ->
  text <> [] ->
  scrape_company repr_container net (to_company row)
  = Raise Scraper.attribute_error /\
  forall env rest w,
    scrape env (to_company row) = Raise Scraper.attribute_error ->
    process_companies env (to_company row :: rest) w
    = (Raise Scraper.attribute_error, w).
Proof.
  intros Hrow Hne. split.
  - unfold scrape_company, payload_dict, to_company.
    cbn [c_careers_endpoint_payload]. rewrite Hrow.
    destruct text as [|x text]; [congruence|]. reflexivity.
  - intros env rest w Hs. cbn [process_companies].
    unfold Pipeline.bind, process_company, Pipeline.bind, lift.
    now rewrite Hs.
Qed.

Lemma stored_payload_breaks_the_scrape_witness :
  let acme :=
    mkCompanyRow 7 (lit "Acme") None
                 (Some (lit "https://acme.test/api/jobs"))
                 (Some (lit "{}")) None true (lit "manual") in
  let net :=
    mkInternet (fun _ => Ok (PList []))
               (fun _ => mkPageVisit (Ok tt) (fun _ => Ok []) (Ok tt)) in
  co_careers_endpoint_payload acme = Some (lit "{}") /\
  scrape_company (fun _ => []) net (to_company acme)
  = Raise Scraper.attribute_error.
Proof.
  intros acme net. split; [reflexivity|].
  apply (stored_payload_breaks_the_scrape (fun _ => []) net acme
           (lit "{}")); [reflexivity|discriminate].
Defined.
